(** * bigcache: the byte queue and the sharded cache, embedded in Rocq

    Source files: [queue/bytes_queue.go] (package [queue]) and [bigcache.go]
    (package [bigcache]).

    Conventions of the embedding.
    - A Go [int] that holds a length or an offset of an allocated slice is a
      [Z]; such values are bounded by the size of addressable memory, far
      below [2^63], so their arithmetic is written without wrap-around.
      Where the source converts between widths ([uint32(len)],
      [uint32(index)], [uint64] subtraction of timestamps, [number - 1] on an
      arbitrary [int]) the wrap-around is written out.
    - A [[]byte] is a [list byte]; slicing and [copy] follow Go: a slice
      expression out of range panics, [copy] writes [min(len dst, len src)]
      bytes.
    - A run-time panic is [None]; a returned Go [error] is the [Error]
      constructor of [res].
    - A [float64] is a binary64 number of the Standard Library's
      [SpecFloat], whose operations round as IEEE 754 prescribes. *)

From Stdlib Require Import ZArith Lia Strings.Byte.
From Stdlib Require Floats.SpecFloat.
From stdpp Require Import base option list gmap strings.

Local Open Scope Z_scope.

(** ** Bytes, fixed-width integers, little-endian encoding *)

Definition byte_to_Z (b : byte) : Z := Z.of_N (Byte.to_N b).

Definition byte_of_Z (z : Z) : byte :=
  match Byte.of_N (Z.to_N (z mod 256)) with
  | Some b => b
  | None => x00
  end.

Definition uint16 (z : Z) : Z := z mod 2 ^ 16.
Definition uint32 (z : Z) : Z := z mod 2 ^ 32.
Definition uint64 (z : Z) : Z := z mod 2 ^ 64.
(** Two's complement wrap of a 64-bit signed [int]. *)
Definition int64 (z : Z) : Z := (z + 2 ^ 63) mod 2 ^ 64 - 2 ^ 63.

(** [binary.LittleEndian.PutUintN]: the [n] low bytes of [z], lowest first. *)
Fixpoint le_encode (n : nat) (z : Z) : list byte :=
  match n with
  | O => []
  | S n' => byte_of_Z z :: le_encode n' (z / 256)
  end.

(** [binary.LittleEndian.UintN] on a slice of exactly the right width. *)
Fixpoint le_decode (bs : list byte) : Z :=
  match bs with
  | [] => 0
  | b :: bs' => byte_to_Z b + 256 * le_decode bs'
  end.

(** [len(s)] as a Go [int]. *)
Definition len {A} (s : list A) : Z := Z.of_nat (length s).

(** [make([]byte, n)]: panics on a negative length. *)
Definition make (n : Z) : option (list byte) :=
  if n <? 0 then None else Some (replicate (Z.to_nat n) x00).

(** [s[lo:hi]] on a slice whose capacity equals its length (every slice that
    is sliced in the queue comes from [make] or is a whole argument). *)
Definition slice (s : list byte) (lo hi : Z) : option (list byte) :=
  if (0 <=? lo) && (lo <=? hi) && (hi <=? len s)
  then Some (take (Z.to_nat (hi - lo)) (drop (Z.to_nat lo) s))
  else None.

(** [copy(dst[off:], src)]: the updated [dst] and the number of bytes
    copied; [dst[off:]] panics when [off] is out of range. *)
Definition copy_at (dst : list byte) (off : Z) (src : list byte)
  : option (list byte * Z) :=
  if (0 <=? off) && (off <=? len dst) then
    let n := Z.min (len dst - off) (len src) in
    Some (take (Z.to_nat off) dst ++ take (Z.to_nat n) src
            ++ drop (Z.to_nat (off + n)) dst, n)
  else None.

(** A returned value or a returned Go [error]. *)
Inductive res (E A : Type) : Type :=
  | Val (a : A)
  | Error (e : E).
Arguments Val {E A} a.
Arguments Error {E A} e.

(** ** Package [queue] *)

Module queue.

Definition headerEntrySize : Z := 4.
Definition leftMarginIndex : Z := 1.
Definition minimumEmptyBlobSize : Z := 32 + headerEntrySize.

(** The struct without [headerBuffer] (a scratch buffer, overwritten before
    every use) and [verbose] (logging only). *)
Record BytesQueue : Type := mkQueue {
  array : list byte;
  capacity : Z;
  head : Z;
  tail : Z;
  count : Z;
  rightMargin : Z
}.

Record queueError : Type := mkQueueError { message : string }.

Definition errEmptyQueue : queueError := mkQueueError "Empty queue".
Definition errInvalidIndex : queueError :=
  mkQueueError "Index must be grater than zero. Invalid index.".

Definition set_array (q : BytesQueue) (a : list byte) : BytesQueue :=
  mkQueue a (capacity q) (head q) (tail q) (count q) (rightMargin q).
Definition set_head (q : BytesQueue) (h : Z) : BytesQueue :=
  mkQueue (array q) (capacity q) h (tail q) (count q) (rightMargin q).
Definition set_tail (q : BytesQueue) (t : Z) : BytesQueue :=
  mkQueue (array q) (capacity q) (head q) t (count q) (rightMargin q).
Definition set_count (q : BytesQueue) (n : Z) : BytesQueue :=
  mkQueue (array q) (capacity q) (head q) (tail q) n (rightMargin q).
Definition set_rightMargin (q : BytesQueue) (r : Z) : BytesQueue :=
  mkQueue (array q) (capacity q) (head q) (tail q) (count q) r.

Definition NewBytesQueue (initialCapacity : Z) : option BytesQueue :=
  a ← make initialCapacity;
  Some (mkQueue a initialCapacity leftMarginIndex leftMarginIndex 0
          leftMarginIndex).

Definition availableSpaceAfterTail (q : BytesQueue) : Z :=
  if tail q >=? head q then capacity q - tail q
  else head q - tail q - minimumEmptyBlobSize.

Definition availableSpaceBeforeHead (q : BytesQueue) : Z :=
  if tail q >=? head q then head q - leftMarginIndex - minimumEmptyBlobSize
  else head q - tail q - minimumEmptyBlobSize.

(** [q.tail += copy(q.array[q.tail:], data[:len])] *)
Definition copy (q : BytesQueue) (data : list byte) (len : Z)
  : option BytesQueue :=
  src ← slice data 0 len;
  '(a, n) ← copy_at (array q) (tail q) src;
  Some (set_tail (set_array q a) (tail q + n)).

Definition push (q : BytesQueue) (data : list byte) (len : Z)
  : option BytesQueue :=
  q1 ← copy q (le_encode 4 (uint32 len)) headerEntrySize;
  q2 ← copy q1 data len;
  let q3 := if tail q2 >? head q2 then set_rightMargin q2 (tail q2) else q2 in
  Some (set_count q3 (count q3 + 1)).

Definition allocateAdditionalMemory (q : BytesQueue) (minimum : Z)
  : option BytesQueue :=
  let cap1 :=
    if capacity q <? minimum then capacity q + minimum else capacity q in
  let cap2 := cap1 * 2 in
  let oldArray := array q in
  newArray ← make cap2;
  let q1 := mkQueue newArray cap2 (head q) (tail q) (count q)
              (rightMargin q) in
  if negb (leftMarginIndex =? rightMargin q1) then
    src ← slice oldArray 0 (rightMargin q1);
    '(a, _) ← copy_at (array q1) 0 src;
    let q2 := set_array q1 a in
    if tail q2 <? head q2 then
      let emptyBlobLen := head q2 - tail q2 - headerEntrySize in
      blob ← make emptyBlobLen;
      q3 ← push q2 blob emptyBlobLen;
      Some (set_tail (set_head q3 leftMarginIndex) (rightMargin q3))
    else Some q2
  else Some q1.

(** Returns the index of the pushed entry and the new queue. *)
Definition Push (q : BytesQueue) (data : list byte)
  : option (Z * BytesQueue) :=
  let dataLen := len data in
  q1 ← (if availableSpaceAfterTail q <? dataLen + headerEntrySize then
          if availableSpaceBeforeHead q >=? dataLen + headerEntrySize
          then Some (set_tail q leftMarginIndex)
          else allocateAdditionalMemory q dataLen
        else Some q);
  let index := tail q1 in
  q2 ← push q1 data dataLen;
  Some (index, q2).

Definition peek (q : BytesQueue) (index : Z) : option (list byte * Z) :=
  hdr ← slice (array q) index (index + headerEntrySize);
  let blockSize := le_decode hdr in
  data ← slice (array q) (index + headerEntrySize)
           (index + headerEntrySize + blockSize);
  Some (data, blockSize).

Definition Pop (q : BytesQueue)
  : option (res queueError (list byte) * BytesQueue) :=
  if count q =? 0 then Some (Error errEmptyQueue, q) else
  '(data, size) ← peek q (head q);
  let q1 := set_count (set_head q (head q + (headerEntrySize + size)))
              (count q - 1) in
  let q2 :=
    if head q1 =? rightMargin q1 then
      let q' := set_head q1 leftMarginIndex in
      let q'' := if tail q' =? rightMargin q'
                 then set_tail q' leftMarginIndex else q' in
      set_rightMargin q'' (tail q'')
    else q1 in
  Some (Val data, q2).

Definition Clear (q : BytesQueue) : BytesQueue :=
  set_count
    (set_rightMargin
       (set_tail (set_head q leftMarginIndex) leftMarginIndex)
       leftMarginIndex)
    0.

Definition Peek (q : BytesQueue) : option (res queueError (list byte)) :=
  if count q =? 0 then Some (Error errEmptyQueue) else
  '(data, _) ← peek q (head q);
  Some (Val data).

Definition Get (q : BytesQueue) (index : Z)
  : option (res queueError (list byte)) :=
  if index <=? 0 then Some (Error errInvalidIndex) else
  '(data, _) ← peek q index;
  Some (Val data).

Definition Capacity (q : BytesQueue) : Z := capacity q.
Definition Len (q : BytesQueue) : Z := count q.

End queue.

(** ** Package [bigcache] *)

Module bigcache.

Import queue.

(** *** Entry framing

    The framing helpers ([wrapEntry], [readEntry], ...) live in a source
    file that is not part of the two files embedded here. *)

Definition timestampSizeInBytes : Z := 8.
Definition hashSizeInBytes : Z := 8.
Definition keySizeInBytes : Z := 2.
Definition headersSizeInBytes : Z :=
  timestampSizeInBytes + hashSizeInBytes + keySizeInBytes.

(** Modelled from the spec: [wrapEntry], absent from the embedded sources.
    Layout, little-endian: 8 bytes timestamp, 8 bytes hash, 2 bytes key
    length, the key bytes, the value bytes.  The scratch buffer only avoids
    an allocation; the returned slice is the populated prefix. *)
Definition wrapEntry (timestamp hash : Z) (key : string) (entry : list byte)
  : list byte :=
  let k := String.list_byte_of_string key in
  le_encode 8 (uint64 timestamp) ++ le_encode 8 (uint64 hash)
    ++ le_encode 2 (uint16 (len k)) ++ k ++ entry.

(** Modelled from the spec: [readTimestampFromEntry], bytes 0..8. *)
Definition readTimestampFromEntry (data : list byte) : Z :=
  le_decode (take 8 data).

(** Modelled from the spec: [readHashFromEntry], bytes 8..16. *)
Definition readHashFromEntry (data : list byte) : Z :=
  le_decode (take 8 (drop 8 data)).

(** Modelled from the spec: the key length field, bytes 16..18. *)
Definition readKeyLength (data : list byte) : nat :=
  Z.to_nat (le_decode (take 2 (drop 16 data))).

(** Modelled from the spec: [readKeyFromEntry], the [L] bytes after the
    18-byte header. *)
Definition readKeyFromEntry (data : list byte) : string :=
  String.string_of_list_byte (take (readKeyLength data) (drop 18 data)).

(** Modelled from the spec: [readEntry], the remainder of the blob after
    the key. *)
Definition readEntry (data : list byte) : list byte :=
  drop (18 + readKeyLength data) data.

(** Modelled from the spec: [resetKeyFromEntry] sets bytes 8..16 of the
    blob to zero; the blob returned here is what the slice reads
    afterwards. *)
Definition resetKeyFromEntry (data : list byte) : list byte :=
  take 8 data
    ++ take (length data - 8) (replicate 8 x00)
    ++ drop 16 data.

(** *** Collaborators *)

(** Modelled from the spec: the default hasher ("64-bit FNV-style"), here
    FNV-1a on the key bytes. *)
Definition fnv64a (key : string) : Z :=
  fold_left
    (fun h b => uint64 (Z.lxor h (byte_to_Z b) * 1099511628211))
    (String.list_byte_of_string key) 14695981039346656037.

Definition newDefaultHasher : string -> Z := fnv64a.

Record Config : Type := mkConfig {
  Shards : Z;
  (** [time.Duration]: nanoseconds *)
  LifeWindow : Z;
  MaxEntriesInWindow : Z;
  MaxEntrySize : Z;
  Verbose : bool;
  Hasher : option (string -> Z)
}.

Inductive error : Type :=
  | InvalidConfig (msg : string)
  | EntryNotFound (key : string)
  | QueueError (e : queueError).

(** Modelled from the spec: [notFound], the error "carries the key". *)
Definition notFound (key : string) : error := EntryNotFound key.

Definition minimumEntriesInShard : Z := 10.

(** [lock] is left out (one operation at a time); [entryBuffer] is the
    scratch space of [wrapEntry]. *)
Record cacheShard : Type := mkShard {
  hashmap : gmap Z Z;
  entries : BytesQueue
}.

(** The clock is passed to [Set_] as the value [clock.epoch()] returns. *)
Record BigCache : Type := mkCache {
  shards : list cacheShard;
  lifeWindow : Z;
  hash : string -> Z;
  config : Config;
  shardMask : Z;
  shardSize : Z
}.

Definition isPowerOfTwo (number : Z) : bool :=
  Z.land number (int64 (number - 1)) =? 0.

Definition max (a b : Z) : Z := if a >? b then a else b.

(** A Go [float64]: an IEEE 754 binary64 number, with the operations as
    the Standard Library specifies them (53 bits of precision, rounding to
    nearest, ties to even). *)
Definition float64 : Set := SpecFloat.spec_float.

(** [float64(z)] for an integer [z]. *)
Definition float64_of_int (z : Z) : float64 :=
  SpecFloat.binary_normalize 53 1024 z 0 false.

Definition float64_add : float64 -> float64 -> float64 :=
  SpecFloat.SFadd 53 1024.

Definition float64_div : float64 -> float64 -> float64 :=
  SpecFloat.SFdiv 53 1024.

(** The integer part of a finite [float64]; zero for the others, which the
    cache never converts. *)
Definition int_of_float64 (f : float64) : Z :=
  match f with
  | SpecFloat.S754_finite s m e =>
      let v := if 0 <=? e then Z.pos m * 2 ^ e
               else Z.quot (Z.pos m) (2 ^ (- e)) in
      if s then - v else v
  | _ => 0
  end.

(** [Duration.Seconds()] of the Go standard library, on a duration in
    nanoseconds: [float64(d / Second) + float64(d % Second) / 1e9]. *)
Definition Seconds (d : Z) : float64 :=
  let sec := Z.quot d 1000000000 in
  let nsec := Z.rem d 1000000000 in
  float64_add (float64_of_int sec)
    (float64_div (float64_of_int nsec) (float64_of_int 1000000000)).

(** [uint64(f)]: the fraction is dropped.  Go leaves the result for a
    negative [f] to the implementation; here it wraps around, as the amd64
    compiler has it. *)
Definition uint64_of_float64 (f : float64) : Z := uint64 (int_of_float64 f).

(** Integer division of two [int]: panics on a zero divisor. *)
Definition int_div (a b : Z) : option Z :=
  if b =? 0 then None else Some (int64 (Z.quot a b)).

Definition newShard (shardSize : Z) (cfg : Config) : option cacheShard :=
  q ← NewBytesQueue (int64 (shardSize * MaxEntrySize cfg));
  _ ← make (int64 (MaxEntrySize cfg + headersSizeInBytes));
  Some (mkShard ∅ q).

Definition newBigCache (cfg : Config) : option (res error BigCache) :=
  if negb (isPowerOfTwo (Shards cfg)) then
    Some (Error (InvalidConfig "Shards number must be power of two"))
  else
    let hasher := default newDefaultHasher (Hasher cfg) in
    _ ← (if Shards cfg <? 0 then None else Some tt);
    d ← int_div (MaxEntriesInWindow cfg) (Shards cfg);
    let size := max d minimumEntriesInShard in
    ss ← (if 0 <? Shards cfg
          then s ← newShard size cfg;
               Some (replicate (Z.to_nat (Shards cfg)) s)
          else Some []);
    Some (Val (mkCache ss (uint64_of_float64 (Seconds (LifeWindow cfg))) hasher cfg
                 (uint64 (Shards cfg - 1)) size)).

Definition Sum64 (c : BigCache) (key : string) : Z := uint64 (hash c key).

Definition shardIndex (c : BigCache) (hashedKey : Z) : nat :=
  Z.to_nat (Z.land hashedKey (shardMask c)).

(** [c.shards[hashedKey&c.shardMask]]: panics out of range. *)
Definition getShard (c : BigCache) (hashedKey : Z) : option cacheShard :=
  shards c !! shardIndex c hashedKey.

Definition Get (c : BigCache) (key : string)
  : option (res error (list byte)) :=
  let hashedKey := Sum64 c key in
  shard ← getShard c hashedKey;
  let itemIndex := default 0 (hashmap shard !! hashedKey) in
  if itemIndex =? 0 then Some (Error (notFound key)) else
  r ← queue.Get (entries shard) itemIndex;
  match r with
  | Error e => Some (Error (QueueError e))
  | Val wrappedEntry =>
      let entryKey := readKeyFromEntry wrappedEntry in
      if negb (String.eqb key entryKey) then Some (Error (notFound key))
      else Some (Val (readEntry wrappedEntry))
  end.

(** [previousEntry] is a slice of the queue's array, so
    [resetKeyFromEntry(previousEntry)] writes into the array: the blob at
    [index] is replaced by the reset blob. *)
Definition resetInPlace (q : BytesQueue) (index : Z) (previousEntry : list byte)
  : option BytesQueue :=
  '(a, _) ← copy_at (array q) (index + headerEntrySize)
              (resetKeyFromEntry previousEntry);
  Some (set_array q a).

Definition onEvict {S : Type} (c : BigCache) (oldestEntry : list byte)
    (currentTimestamp : Z) (evict : S -> option S) (s : S) : option S :=
  let oldestTimestamp := readTimestampFromEntry oldestEntry in
  if uint64 (currentTimestamp - oldestTimestamp) >? lifeWindow c
  then evict s else Some s.

(** The closure passed to [onEvict] in [Set]. *)
Definition evict (oldestEntry : list byte) (s : cacheShard)
  : option cacheShard :=
  '(_, q) ← Pop (entries s);
  let hash := readHashFromEntry oldestEntry in
  Some (mkShard (delete hash (hashmap s)) q).

(** First step of [Set]: the entry the map holds for the hash, if any, has
    its hash field reset in place. *)
Definition resetPrevious (shard : cacheShard) (hashedKey : Z)
  : option cacheShard :=
  let previousIndex := default 0 (hashmap shard !! hashedKey) in
  if negb (previousIndex =? 0) then
    r ← queue.Get (entries shard) previousIndex;
    match r with
    | Val previousEntry =>
        q ← resetInPlace (entries shard) previousIndex previousEntry;
        Some (mkShard (hashmap shard) q)
    | Error _ => Some shard
    end
  else Some shard.

(** Second step of [Set]: one eviction attempt on the oldest entry. *)
Definition evictOldest (c : BigCache) (currentTimestamp : Z)
    (shard : cacheShard) : option cacheShard :=
  p ← Peek (entries shard);
  match p with
  | Val oldestEntry =>
      onEvict c oldestEntry currentTimestamp (evict oldestEntry) shard
  | Error _ => Some shard
  end.

(** Third step of [Set]: wrap, push, record the index in the map. *)
Definition pushEntry (currentTimestamp hashedKey : Z) (key : string)
    (entry : list byte) (shard : cacheShard) : option cacheShard :=
  let w := wrapEntry currentTimestamp hashedKey key entry in
  '(index, q) ← Push (entries shard) w;
  Some (mkShard (<[hashedKey := uint32 index]> (hashmap shard)) q).

(** [Set] on the shard of the key; [now] is [clock.epoch()]. *)
Definition setShard (c : BigCache) (now : Z) (hashedKey : Z) (key : string)
    (entry : list byte) (shard : cacheShard) : option cacheShard :=
  let currentTimestamp := uint64 now in
  s1 ← resetPrevious shard hashedKey;
  s2 ← evictOldest c currentTimestamp s1;
  pushEntry currentTimestamp hashedKey key entry s2.

Definition Set_ (c : BigCache) (now : Z) (key : string) (entry : list byte)
  : option BigCache :=
  let hashedKey := Sum64 c key in
  shard ← getShard c hashedKey;
  shard' ← setShard c now hashedKey key entry shard;
  Some (mkCache (<[shardIndex c hashedKey := shard']> (shards c))
          (lifeWindow c) (hash c) (config c) (shardMask c) (shardSize c)).

Definition clearShard (s : cacheShard) : cacheShard :=
  mkShard ∅ (queue.Clear (entries s)).

Definition Clear (c : BigCache) : BigCache :=
  mkCache (clearShard <$> shards c) (lifeWindow c) (hash c) (config c)
    (shardMask c) (shardSize c).

Definition Size (c : BigCache) : Z :=
  uint64 (foldl (fun count shard => count + Z.of_nat (size (hashmap shard)))
            0 (shards c)).

(** The exported constructor: [newBigCache] with the system clock; the
    clock is an argument of [Set_] here. *)
Definition NewBigCache (cfg : Config) : option (res error BigCache) :=
  newBigCache cfg.

Definition getKeyAndValue (shard : cacheShard) (hashedKey : Z)
  : option (res error (string * list byte)) :=
  let itemIndex := default 0 (hashmap shard !! hashedKey) in
  if itemIndex =? 0 then Some (Error (notFound "")) else
  r ← queue.Get (entries shard) itemIndex;
  match r with
  | Error e => Some (Error (QueueError e))
  | Val wrappedEntry =>
      Some (Val (readKeyFromEntry wrappedEntry, readEntry wrappedEntry))
  end.

(** The inner loop of [Iterate] over the keys of one shard's map, as the
    list of the calls [accept(key, value)] it makes. *)
Fixpoint iterateKeys (shard : cacheShard) (keys : list Z)
  : option (list (string * list byte)) :=
  match keys with
  | [] => Some []
  | hashedKey :: keys' =>
      r ← getKeyAndValue shard hashedKey;
      rest ← iterateKeys shard keys';
      Some (match r with
            | Val kv => kv :: rest
            | Error _ => rest
            end)
  end.

(** [Iterate], as the list of the calls of [accept], for an [accept] that
    does not touch the cache.  Go leaves the order of a map range
    unspecified; here the keys of a map come in the order of
    [map_to_list]. *)
Definition Iterate (c : BigCache) : option (list (string * list byte)) :=
  calls ← mapM (fun shard =>
                  iterateKeys shard (map_to_list (hashmap shard)).*1)
             (shards c);
  Some (concat calls).

End bigcache.

(** * Vocabulary of the properties *)

(** ** Queue states a client can reach *)

Module QueueSpec.

Import queue.

(** The states obtained from [NewBytesQueue] by the exported mutators, along
    runs in which no call panics. *)
Inductive reachable : BytesQueue -> Prop :=
  | reachable_New (n : Z) (q : BytesQueue) :
      NewBytesQueue n = Some q -> reachable q
  | reachable_Push (q : BytesQueue) (data : list byte) (i : Z)
      (q' : BytesQueue) :
      reachable q -> Push q data = Some (i, q') -> reachable q'
  | reachable_Pop (q : BytesQueue) (r : res queueError (list byte))
      (q' : BytesQueue) :
      reachable q -> Pop q = Some (r, q') -> reachable q'
  | reachable_Clear (q : BytesQueue) :
      reachable q -> reachable (Clear q).

(** Tail and right margin never go left of the left margin. *)
Definition margins_ok (q : BytesQueue) : Prop :=
  leftMarginIndex <= tail q /\ leftMarginIndex <= rightMargin q.

(** The queue is wrapped: the tail has restarted left of the head. *)
Definition wrapped (q : BytesQueue) : Prop := tail q < head q.

(** [Push] stored header and data completely: the tail moved by the whole
    entry. *)
Definition storedInFull (data : list byte) (i : Z) (q' : BytesQueue) : Prop :=
  tail q' - i = headerEntrySize + len data.

(** Calls of the mutators, and a run of calls from a state. *)
Inductive call : Type :=
  | CallPush (data : list byte)
  | CallPop
  | CallClear.

Fixpoint run (q : BytesQueue) (calls : list call) : option BytesQueue :=
  match calls with
  | [] => Some q
  | CallPush data :: calls' => '(_, q') ← Push q data; run q' calls'
  | CallPop :: calls' => '(_, q') ← Pop q; run q' calls'
  | CallClear :: calls' => run (Clear q) calls'
  end.

(** The blobs that repeated [Pop] returns until the queue reports that it
    is empty; [fuel] bounds the number of calls. *)
Fixpoint drain (fuel : nat) (q : BytesQueue) : option (list (list byte)) :=
  match fuel with
  | O => Some []
  | S fuel' =>
      '(r, q') ← Pop q;
      match r with
      | Error _ => Some []
      | Val data => rest ← drain fuel' q'; Some (data :: rest)
      end
  end.

(** A filler entry: only zero bytes. *)
Definition isFiller (data : list byte) : bool :=
  forallb (Byte.eqb x00) data.

(** *** Representation of a queue by the list of its entries *)

(** The [n] bytes of [a] from index [i]. *)
Definition segment (a : list byte) (i n : Z) : list byte :=
  take (Z.to_nat n) (drop (Z.to_nat i) a).

(** Two arrays hold the same bytes at the indices from [lo] up to [hi]. *)
Definition agree (a a' : list byte) (lo hi : Z) : Prop :=
  forall k : nat, lo <= Z.of_nat k < hi -> a !! k = a' !! k.

(** The blob [b] is framed at index [i]: its length in four bytes, then its
    bytes, all inside the array. *)
Definition entry_at (a : list byte) (i : Z) (b : list byte) : Prop :=
  0 <= i /\ i + headerEntrySize + len b <= len a /\ len b < 2 ^ 32 /\
  segment a i (headerEntrySize + len b) = le_encode 4 (uint32 (len b)) ++ b.

(** The entries [es], each with its index, lie back to back from [i] to
    [j]. *)
Fixpoint chain (a : list byte) (i : Z) (es : list (Z * list byte)) (j : Z)
  : Prop :=
  match es with
  | [] => i = j
  | (h, b) :: es' =>
      h = i /\ entry_at a i b /\ chain a (i + headerEntrySize + len b) es' j
  end.

(** Linear geometry: the entries run from head to tail, the right margin is
    the tail, and an empty queue sits at the left margin. *)
Definition linear (q : BytesQueue) (es : list (Z * list byte)) : Prop :=
  rightMargin q = tail q /\
  chain (array q) (head q) es (tail q) /\
  (es = [] -> head q = leftMarginIndex).

(** Wrapped geometry: the older entries run from head to the right margin,
    the newer ones from the left margin to the tail, and the gap between tail
    and head has room for a filler. *)
Definition wrappedAround (q : BytesQueue) (es : list (Z * list byte)) : Prop :=
  exists es1 es2 : list (Z * list byte),
    es = es1 ++ es2 /\ es1 <> [] /\ es2 <> [] /\
    tail q + minimumEmptyBlobSize <= head q /\
    chain (array q) (head q) es1 (rightMargin q) /\
    chain (array q) leftMarginIndex es2 (tail q).

(** The queue holds the entries [es], oldest first. *)
Definition represents (q : BytesQueue) (es : list (Z * list byte)) : Prop :=
  len (array q) = capacity q /\
  leftMarginIndex <= head q /\
  count q = len es /\
  (linear q es \/ wrappedAround q es).

(** *** Pop order *)

(** [Push] of [data] has to grow the array while the queue is wrapped. *)
Definition growsWrapped (q : BytesQueue) (data : list byte) : bool :=
  (availableSpaceAfterTail q <? len data + headerEntrySize)
  && negb (availableSpaceBeforeHead q >=? len data + headerEntrySize)
  && (tail q <? head q).

(** The filler that a growth writes into the gap of a wrapped queue. *)
Definition fillerOf (q : BytesQueue) : Z * list byte :=
  (tail q, replicate (Z.to_nat (head q - tail q - headerEntrySize)) x00).

(** The entries, oldest first, after a [Push] that returned index [i]: the
    new entry goes last; a growth of a wrapped queue first moves the entries
    left of the head, followed by the filler, in front of the others. *)
Definition orderAfterPush (q : BytesQueue) (es : list (Z * list byte)) (i : Z)
    (data : list byte) : list (Z * list byte) :=
  if growsWrapped q data then
    List.filter (fun e => e.1 <? head q) es ++ [fillerOf q]
      ++ List.filter (fun e => head q <=? e.1) es ++ [(i, data)]
  else es ++ [(i, data)].

(** [Push] stored the entry in full and the array is within the 4 GiB that
    the four-byte length header can describe. *)
Definition inFull (data : list byte) (i : Z) (q' : BytesQueue) : bool :=
  (tail q' - i =? headerEntrySize + len data) && (capacity q' <=? 2 ^ 32).

(** A run of calls that keeps the list of entries alongside the queue; it
    stops with [None] at a panic or at a [Push] that is not [inFull]. *)
Fixpoint runInFull (q : BytesQueue) (es : list (Z * list byte))
    (calls : list call) : option (BytesQueue * list (Z * list byte)) :=
  match calls with
  | [] => Some (q, es)
  | CallPush data :: calls' =>
      '(i, q') ← Push q data;
      if inFull data i q'
      then runInFull q' (orderAfterPush q es i data) calls'
      else None
  | CallPop :: calls' => '(_, q') ← Pop q; runInFull q' (drop 1 es) calls'
  | CallClear :: calls' => runInFull (Clear q) [] calls'
  end.

(** *** Example states *)

(** Two pushes, a pop and a push that restarts at the left margin. *)
Definition exampleCalls : list call :=
  [CallPush (replicate 70 "a"%byte); CallPush (replicate 10 "b"%byte);
   CallPop; CallPush (replicate 30 "c"%byte)].

(** [NewBytesQueue 100]. *)
Definition exampleNewQueue : BytesQueue :=
  mkQueue (replicate 100 x00) 100 1 1 0 1.

(** The queue after [exampleCalls]: wrapped, the entry of 10 bytes at 75, the
    entry of 30 bytes at 1, tail at 35. *)
Definition exampleWrappedQueue : BytesQueue :=
  mkQueue
    ([x00] ++ le_encode 4 30 ++ replicate 30 "c"%byte
       ++ replicate 40 "a"%byte ++ le_encode 4 10 ++ replicate 10 "b"%byte
       ++ replicate 11 x00)
    100 75 35 2 89.

Definition exampleWrappedEntries : list (Z * list byte) :=
  [(75, replicate 10 "b"%byte); (1, replicate 30 "c"%byte)].

(** The same queue after a push of 40 bytes, which grows the array to 200
    bytes and writes a filler of 36 bytes into the gap. *)
Definition exampleGrownQueue : BytesQueue :=
  mkQueue
    ([x00] ++ le_encode 4 30 ++ replicate 30 "c"%byte
       ++ le_encode 4 36 ++ replicate 36 x00
       ++ le_encode 4 10 ++ replicate 10 "b"%byte
       ++ le_encode 4 40 ++ replicate 40 "d"%byte
       ++ replicate 67 x00)
    200 1 133 4 133.

End QueueSpec.

(** ** Cache states a client can reach *)

Module CacheSpec.

Import bigcache.

(** The values of a Go [int]. *)
Definition int_range (z : Z) : Prop := - 2 ^ 63 <= z < 2 ^ 63.

(** A [Config] whose integer fields are values of their Go types. *)
Definition valid_config (cfg : Config) : Prop :=
  int_range (Shards cfg) /\ int_range (LifeWindow cfg) /\
  int_range (MaxEntriesInWindow cfg) /\ int_range (MaxEntrySize cfg).

(** The states obtained from [newBigCache] by [Set] and [Clear] ([Get] does
    not change the state), along runs in which no call panics. *)
Inductive reachable : BigCache -> Prop :=
  | reachable_new (cfg : Config) (c : BigCache) :
      valid_config cfg -> newBigCache cfg = Some (Val c) -> reachable c
  | reachable_Set (c : BigCache) (now : Z) (key : string)
      (entry : list byte) (c' : BigCache) :
      reachable c -> Set_ c now key entry = Some c' -> reachable c'
  | reachable_Clear (c : BigCache) :
      reachable c -> reachable (Clear c).

(** The shard table has one shard per value of [hash & shardMask]. *)
Definition shards_ok (c : BigCache) : Prop :=
  (exists k : Z, 0 <= k /\ shardMask c = Z.ones k) /\
  length (shards c) = Z.to_nat (shardMask c + 1).

(** What [Clear] leaves of a shard: an empty map, an empty queue at the
    left margin, the same array and capacity. *)
Definition cleared (s s' : cacheShard) : Prop :=
  hashmap s' = ∅ /\
  queue.count (entries s') = 0 /\
  queue.head (entries s') = queue.leftMarginIndex /\
  queue.tail (entries s') = queue.leftMarginIndex /\
  queue.rightMargin (entries s') = queue.leftMarginIndex /\
  queue.array (entries s') = queue.array (entries s) /\
  queue.capacity (entries s') = queue.capacity (entries s).

(** The blob the map of the key's shard points to, when [Get] gets as far
    as reading it. *)
Definition storedBlob (c : BigCache) (key : string) : option (list byte) :=
  shard ← getShard c (Sum64 c key);
  let itemIndex := default 0 (hashmap shard !! Sum64 c key) in
  if itemIndex =? 0 then None else
  r ← queue.Get (entries shard) itemIndex;
  match r with Val blob => Some blob | Error _ => None end.

(** A run of [Set] calls (time, key, value) from a state. *)
Fixpoint run (c : BigCache) (calls : list (Z * string * list byte))
  : option BigCache :=
  match calls with
  | [] => Some c
  | (now, key, entry) :: calls' =>
      c' ← Set_ c now key entry; run c' calls'
  end.

(** A hasher for examples: the length of the key. *)
Definition lengthHasher (key : string) : Z := Z.of_nat (String.length key).

(** One shard of ten entries of ten bytes, a life window of 5 seconds. *)
Definition exampleConfig : Config :=
  mkConfig 1 5000000000 0 10 false (Some lengthHasher).

(** The cache [newBigCache exampleConfig] returns. *)
Definition exampleEmptyCache : BigCache :=
  mkCache [mkShard ∅ (queue.mkQueue (replicate 100 x00) 100 1 1 0 1)]
    5 lengthHasher exampleConfig 0 10.

(** The same cache after [Set] of key A to the one-byte value 1 at time 0:
    the blob of 20 bytes sits at index 1. *)
Definition exampleCache : BigCache :=
  mkCache
    [mkShard {[1 := 1]}
       (queue.mkQueue
          (x00 :: le_encode 4 20 ++ wrapEntry 0 1 "A" ["1"%byte]
             ++ replicate 75 x00)
          100 1 25 1 25)]
    5 lengthHasher exampleConfig 0 10.

(** The one shard of [exampleCache]. *)
Definition exampleShard : cacheShard :=
  mkShard {[1 := 1]}
    (queue.mkQueue
       (x00 :: le_encode 4 20 ++ wrapEntry 0 1 "A" ["1"%byte]
          ++ replicate 75 x00)
       100 1 25 1 25).

(** The [Push] inside [Set] stores the wrapped entry in full. *)
Definition setInFull (c : BigCache) (now : Z) (key : string)
    (entry : list byte) : bool :=
  let hashedKey := Sum64 c key in
  let w := wrapEntry (uint64 now) hashedKey key entry in
  match
    shard ← getShard c hashedKey;
    s1 ← resetPrevious shard hashedKey;
    s2 ← evictOldest c (uint64 now) s1;
    '(i, q) ← queue.Push (entries s2) w;
    Some (QueueSpec.inFull w i q)
  with
  | Some b => b
  | None => false
  end.

(** The queue of a shard has an array of [capacity] bytes and its tail and
    right margin are not left of the left margin. *)
Definition shard_ok (s : cacheShard) : Prop :=
  len (queue.array (entries s)) = queue.capacity (entries s) /\
  QueueSpec.margins_ok (entries s).

(** [Iterate] calls [accept(k, v)] for the map entry under [h] of a shard:
    the entry holds a non-zero index and the blob there carries key [k] and
    value [v]. *)
Definition yields (shard : cacheShard) (h : Z) (k : string) (v : list byte)
  : Prop :=
  exists (i : Z) (blob : list byte),
    hashmap shard !! h = Some i /\ i <> 0 /\
    queue.Get (entries shard) i = Some (Val blob) /\
    k = readKeyFromEntry blob /\ v = readEntry blob.

(** *** Shards along runs in which every push is stored in full *)

(** The entries of a queue after the blob at index [i] had its hash field
    reset in place. *)
Definition resetAt (i : Z) (es : list (Z * list byte))
  : list (Z * list byte) :=
  (fun e => if e.1 =? i then (e.1, resetKeyFromEntry e.2) else e) <$> es.

(** The shard holds the entries [es]; every map entry points at one of them
    whose hash field is the map key; and every entry with a non-zero hash
    field is the one the map holds for that hash. *)
Definition shard_inv (s : cacheShard) (es : list (Z * list byte)) : Prop :=
  QueueSpec.represents (entries s) es /\
  (forall h i : Z,
     hashmap s !! h = Some i ->
     exists b : list byte, (i, b) ∈ es /\ readHashFromEntry b = h) /\
  (forall (i : Z) (b : list byte),
     (i, b) ∈ es -> readHashFromEntry b <> 0 ->
     hashmap s !! readHashFromEntry b = Some i).

(** The shard inside [Set] for the hash [h], between the reset of the
    previous entry and the update of the map: the map entry under [h] is
    not constrained, and no entry carries a non-zero hash field [h]. *)
Definition shard_inv_at (h : Z) (s : cacheShard) (es : list (Z * list byte))
  : Prop :=
  QueueSpec.represents (entries s) es /\
  (forall h' i : Z,
     h' <> h -> hashmap s !! h' = Some i ->
     exists b : list byte, (i, b) ∈ es /\ readHashFromEntry b = h') /\
  (forall (i : Z) (b : list byte),
     (i, b) ∈ es -> readHashFromEntry b <> 0 ->
     readHashFromEntry b <> h /\
     hashmap s !! readHashFromEntry b = Some i).

(** The states obtained from the constructor by [Set] calls that store their
    entry in full, and by [Clear]. *)
Inductive reachableInFull : BigCache -> Prop :=
  | inFull_new (cfg : Config) (c : BigCache) :
      valid_config cfg -> newBigCache cfg = Some (Val c) ->
      reachableInFull c
  | inFull_Set (c : BigCache) (now : Z) (key : string) (entry : list byte)
      (c' : BigCache) :
      reachableInFull c -> Set_ c now key entry = Some c' ->
      setInFull c now key entry = true -> reachableInFull c'
  | inFull_Clear (c : BigCache) :
      reachableInFull c -> reachableInFull (Clear c).

(** *** Histories of [Set] calls *)





(** *** A cache of two shards *)

(** Two shards of ten entries of ten bytes, keys hashed by their length. *)
Definition exampleConfig2 : Config :=
  mkConfig 2 5000000000 0 10 false (Some lengthHasher).

(** The cache [newBigCache exampleConfig2] returns after [Set] of key BB
    (hash 2, shard 0) to the one-byte value 2 at time 0. *)
Definition exampleCache2 : BigCache :=
  mkCache
    [mkShard {[2 := 1]}
       (queue.mkQueue
          (x00 :: le_encode 4 21 ++ wrapEntry 0 2 "BB" ["2"%byte]
             ++ replicate 74 x00)
          100 1 26 1 26);
     mkShard ∅ (queue.mkQueue (replicate 100 x00) 100 1 1 0 1)]
    5 lengthHasher exampleConfig2 1 10.

(** *** A key longer than the key length field can tell *)




End CacheSpec.

(** * Properties *)

(** ** Encoding lemmas *)

Lemma byte_to_of_Z (z : Z) : byte_to_Z (byte_of_Z z) = z mod 256.
Proof.
  unfold byte_to_Z, byte_of_Z.
  assert (Hb : 0 <= z mod 256 < 256) by (apply Z.mod_pos_bound; lia).
  destruct (Byte.of_N (Z.to_N (z mod 256))) as [b|] eqn:E.
  - apply Byte.to_of_N in E. rewrite E. lia.
  - apply Byte.of_N_None_iff in E. lia.
Qed.

Lemma length_le_encode (n : nat) (z : Z) : length (le_encode n z) = n.
Proof. revert z; induction n as [|n IH]; intros z; simpl; [done|by rewrite IH]. Qed.

Lemma le_decode_encode (n : nat) (z : Z) :
  le_decode (le_encode n z) = z mod 256 ^ Z.of_nat n.
Proof.
  revert z; induction n as [|n IH]; intros z.
  - simpl. by rewrite Z.mod_1_r.
  - cbn [le_encode le_decode]. rewrite IH, byte_to_of_Z.
    rewrite Nat2Z.inj_succ, Z.pow_succ_r by lia.
    rewrite Z.rem_mul_r by lia. done.
Qed.

Lemma le_decode_encode_small (n : nat) (z : Z) :
  0 <= z < 256 ^ Z.of_nat n -> le_decode (le_encode n z) = z.
Proof. intros H. rewrite le_decode_encode. by apply Z.mod_small. Qed.

Lemma len_nonneg {A} (s : list A) : 0 <= len s.
Proof. unfold len; lia. Qed.

(** ** Elementary facts about the queue operations *)

(** Inversion of one monadic bind in a hypothesis. *)
Ltac bind_inv H x E :=
  apply bind_Some in H as (x & E & H).

Section QueueBasics.

Import queue QueueSpec.

Lemma copy_at_Some (dst : list byte) (off : Z) (src a : list byte) (n : Z) :
  copy_at dst off src = Some (a, n) ->
  0 <= off <= len dst /\ n = Z.min (len dst - off) (len src) /\
  a = take (Z.to_nat off) dst ++ take (Z.to_nat n) src
        ++ drop (Z.to_nat (off + n)) dst.
Proof.
  unfold copy_at. destruct (0 <=? off) eqn:E1; [|done].
  destruct (off <=? len dst) eqn:E2; [|done]. cbn [andb].
  intros [= <- <-]. split_and!; [lia|lia|done|done].
Qed.

Lemma copy_fields (q : BytesQueue) (data : list byte) (l : Z)
    (q' : BytesQueue) :
  copy q data l = Some q' ->
  head q' = head q /\ rightMargin q' = rightMargin q /\
  count q' = count q /\ capacity q' = capacity q /\ tail q <= tail q'.
Proof.
  unfold copy. intros H.
  bind_inv H src Es. bind_inv H an E. destruct an as [a n].
  injection H as <-. cbn.
  apply copy_at_Some in E as (? & -> & _).
  pose proof (len_nonneg src). split_and!; try done. lia.
Qed.

Lemma push_fields (q : BytesQueue) (data : list byte) (l : Z)
    (q' : BytesQueue) :
  push q data l = Some q' ->
  head q' = head q /\ capacity q' = capacity q /\ tail q <= tail q' /\
  count q' = count q + 1 /\
  (rightMargin q' = rightMargin q \/ rightMargin q' = tail q').
Proof.
  unfold push. intros H.
  bind_inv H q1 E1. bind_inv H q2 E2.
  apply copy_fields in E1 as (? & ? & ? & ? & ?).
  apply copy_fields in E2 as (? & ? & ? & ? & ?).
  injection H as <-.
  destruct (tail q2 >? head q2); cbn; split_and!; try lia; auto with lia.
Qed.

Lemma allocateAdditionalMemory_margins (q : BytesQueue) (m : Z)
    (q' : BytesQueue) :
  margins_ok q -> allocateAdditionalMemory q m = Some q' -> margins_ok q'.
Proof.
  unfold margins_ok, allocateAdditionalMemory. intros [Ht Hr] H.
  bind_inv H newArray En. cbn [rightMargin array tail head] in H.
  destruct (leftMarginIndex =? rightMargin q) eqn:E0; cbn [negb] in H.
  { injection H as <-. done. }
  bind_inv H src Es. bind_inv H an Ec. destruct an as [a n].
  cbn [set_array rightMargin array tail head] in H.
  destruct (tail q <? head q) eqn:E1.
  - bind_inv H blob Eb. bind_inv H q3 E3.
    apply push_fields in E3 as (? & ? & ? & ? & Hrm). cbn in *.
    injection H as <-. cbn. destruct Hrm; lia.
  - injection H as <-. done.
Qed.

Lemma Push_margins (q : BytesQueue) (data : list byte) (i : Z)
    (q' : BytesQueue) :
  margins_ok q -> Push q data = Some (i, q') ->
  leftMarginIndex <= i /\ margins_ok q'.
Proof.
  unfold Push. intros Hm H.
  bind_inv H q1 E1. bind_inv H q2 E2. injection H as <- <-.
  assert (margins_ok q1) as [Ht Hr].
  { destruct (availableSpaceAfterTail q <? _).
    - destruct (availableSpaceBeforeHead q >=? _).
      + injection E1 as <-. split; [done|apply Hm].
      + by eapply allocateAdditionalMemory_margins.
    - by injection E1 as <-. }
  apply push_fields in E2 as (? & ? & ? & ? & Hrm).
  unfold margins_ok. destruct Hrm; split_and!; lia.
Qed.

Lemma Pop_margins (q : BytesQueue) (r : res queueError (list byte))
    (q' : BytesQueue) :
  margins_ok q -> Pop q = Some (r, q') -> margins_ok q'.
Proof.
  unfold margins_ok, Pop. intros [Ht Hr] H.
  destruct (count q =? 0). { by injection H as <- <-. }
  bind_inv H ds E. destruct ds as [d sz]. injection H as <- <-.
  cbn [set_count set_head head rightMargin tail array capacity count].
  repeat case_match;
    cbn [set_tail set_head set_rightMargin set_count head rightMargin tail
           array capacity count];
    unfold leftMarginIndex in *; lia.
Qed.

Lemma reachable_margins (q : BytesQueue) : reachable q -> margins_ok q.
Proof.
  induction 1 as [n q H|q d i q' _ IH H|q r q' _ IH H|q _ IH].
  - unfold NewBytesQueue in H. bind_inv H a E.
    injection H as <-. by split.
  - by eapply Push_margins.
  - by eapply Pop_margins.
  - by split.
Qed.

End QueueBasics.

(** C9.  In every queue state reachable from [NewBytesQueue] through [Push],
    [Pop] and [Clear], a [Push] that returns gives an index that is at least
    the left margin, 1; it never returns 0. *)
Theorem Push_index_positive (q : queue.BytesQueue) (data : list byte) (i : Z)
    (q' : queue.BytesQueue) :
  QueueSpec.reachable q -> queue.Push q data = Some (i, q') ->
  queue.leftMarginIndex <= i /\ i <> 0.
Proof.
  intros Hr H. apply reachable_margins in Hr.
  destruct (Push_margins _ _ _ _ Hr H) as [Hi _].
  unfold queue.leftMarginIndex in *. lia.
Qed.

(** ** Construction and shard selection *)

Section Construction.

Import bigcache CacheSpec.

Lemma int64_id (z : Z) : int_range z -> int64 z = z.
Proof.
  unfold int_range, int64. intros H.
  rewrite Z.mod_small; lia.
Qed.

Lemma land_pred_pow2 (k : Z) : 0 <= k -> Z.land (2 ^ k) (2 ^ k - 1) = 0.
Proof.
  intros Hk. replace (2 ^ k - 1) with (Z.ones k)
    by (rewrite Z.ones_equiv; lia).
  rewrite Z.land_ones by done. apply Z.mod_same. lia.
Qed.

Lemma land_pred_zero_pow2 (n : Z) :
  0 < n -> Z.land n (n - 1) = 0 -> n = 2 ^ Z.log2 n.
Proof.
  intros Hn Hl. destruct (Z.log2_spec n Hn) as [Hlo Hhi].
  destruct (Z.eq_dec n (2 ^ Z.log2 n)) as [|Hne]; [done|exfalso].
  assert (Hk : Z.log2 (n - 1) = Z.log2 n).
  { apply Z.log2_unique; [apply Z.log2_nonneg|].
    split; [lia|]. apply Z.lt_trans with n; [lia|exact Hhi]. }
  assert (H1 : Z.testbit n (Z.log2 n) = true) by (by apply Z.bit_log2).
  assert (H2 : Z.testbit (n - 1) (Z.log2 n) = true).
  { rewrite <- Hk. apply Z.bit_log2.
    pose proof (Z.pow_pos_nonneg 2 (Z.log2 n) eq_refl (Z.log2_nonneg n)).
    lia. }
  assert (H3 : Z.testbit (Z.land n (n - 1)) (Z.log2 n) = true).
  { by rewrite Z.land_spec, H1, H2. }
  rewrite Hl, Z.bits_0 in H3. done.
Qed.

(** On the positive values of an [int], the test is exact. *)
Lemma isPowerOfTwo_positive (n : Z) :
  0 < n < 2 ^ 63 ->
  isPowerOfTwo n = true <-> exists k : Z, 0 <= k /\ n = 2 ^ k.
Proof.
  intros Hn. unfold isPowerOfTwo.
  rewrite int64_id by (unfold int_range; lia). rewrite Z.eqb_eq. split.
  - intros H. exists (Z.log2 n). split; [apply Z.log2_nonneg|].
    apply land_pred_zero_pow2; [lia|done].
  - intros (k & Hk & ->). by apply land_pred_pow2.
Qed.

(** Every negative [int] but the least one is rejected. *)
Lemma isPowerOfTwo_negative (n : Z) :
  - 2 ^ 63 < n < 0 -> isPowerOfTwo n = false.
Proof.
  intros Hn. unfold isPowerOfTwo.
  rewrite int64_id by (unfold int_range; lia).
  apply Z.eqb_neq. intros H.
  assert (Hneg : Z.land n (n - 1) < 0) by (apply Z.land_neg; lia).
  lia.
Qed.

Lemma newBigCache_rejects (cfg : Config) :
  isPowerOfTwo (Shards cfg) = false ->
  newBigCache cfg
  = Some (Error (InvalidConfig "Shards number must be power of two")).
Proof. intros H. unfold newBigCache. by rewrite H. Qed.

Lemma newBigCache_Val (cfg : Config) (c : BigCache) :
  valid_config cfg -> newBigCache cfg = Some (Val c) ->
  (exists k : Z, 0 <= k /\ Shards cfg = 2 ^ k) /\
  shardMask c = Shards cfg - 1 /\
  length (shards c) = Z.to_nat (Shards cfg) /\
  hash c = default newDefaultHasher (Hasher cfg) /\
  Forall (fun s => hashmap s = ∅ /\
                   exists n, queue.NewBytesQueue n = Some (entries s))
    (shards c).
Proof.
  intros (Hs & _) H. unfold newBigCache in H.
  destruct (isPowerOfTwo (Shards cfg)) eqn:Ep; [|done]. cbn [negb] in H.
  bind_inv H u Eu. destruct (Shards cfg <? 0) eqn:E0; [done|].
  bind_inv H d Ed. unfold int_div in Ed.
  destruct (Shards cfg =? 0) eqn:E1; [done|].
  assert (Hpos : 0 < Shards cfg < 2 ^ 63) by (unfold int_range in Hs; lia).
  bind_inv H ss Ess. injection H as <-. cbn.
  destruct (0 <? Shards cfg) eqn:E2; [|lia].
  bind_inv Ess s Es. injection Ess as <-.
  split_and!.
  - by apply isPowerOfTwo_positive.
  - unfold uint64. apply Z.mod_small. lia.
  - by rewrite length_replicate.
  - done.
  - apply Forall_replicate. unfold newShard in Es.
    bind_inv Es q Enq. bind_inv Es b Eb. injection Es as <-. eauto.
Qed.

Lemma shards_ok_getShard (c : BigCache) (h : Z) :
  shards_ok c -> is_Some (getShard c h).
Proof.
  intros [(k & Hk & Hm) Hlen]. unfold getShard, shardIndex.
  apply lookup_lt_is_Some. rewrite Hlen, Hm, Z.land_ones by done.
  pose proof (Z.mod_pos_bound h (2 ^ k)).
  rewrite Z.ones_equiv. lia.
Qed.

Lemma reachable_shards_ok (c : BigCache) : reachable c -> shards_ok c.
Proof.
  induction 1 as [cfg c Hv H|c now key entry c' _ IH H|c _ IH].
  - apply newBigCache_Val in H as ((k & Hk & Hs) & Hm & Hl & _); [|done].
    split.
    + exists k. split; [done|]. rewrite Hm, Hs, Z.ones_equiv. lia.
    + rewrite Hl, Hm. f_equal. lia.
  - unfold Set_ in H. bind_inv H s Es. bind_inv H s' Es'.
    injection H as <-. destruct IH as [Hm Hl]. split; cbn; [done|].
    by rewrite length_insert.
  - destruct IH as [Hm Hl]. split; cbn; [done|].
    by rewrite length_fmap.
Qed.

End Construction.

(** C5.  With zero shards the constructor passes the power-of-two test and
    then panics on the division [MaxEntriesInWindow / Shards]: it neither
    returns the configuration error nor a cache, although zero is not a power
    of two.  (For every other non-power of two in the positive range the
    configuration error is returned, see [isPowerOfTwo_positive].) *)
Theorem newBigCache_zero_shards (lw mw ms : Z) (v : bool)
    (h : option (string -> Z)) :
  bigcache.isPowerOfTwo 0 = true /\
  bigcache.newBigCache (bigcache.mkConfig 0 lw mw ms v h) = None.
Proof. split; reflexivity. Qed.

(** ** Lookup and clearing *)

Section GetClear.

Import bigcache CacheSpec.

Lemma Get_storedBlob (c : BigCache) (key : string) (blob : list byte) :
  storedBlob c key = Some blob ->
  Get c key
  = Some (if String.eqb key (readKeyFromEntry blob)
          then Val (readEntry blob) else Error (notFound key)).
Proof.
  unfold storedBlob, Get. intros H.
  bind_inv H shard Es. rewrite Es. cbn [mbind option_bind].
  destruct (default 0 (hashmap shard !! Sum64 c key) =? 0); [done|].
  bind_inv H r Er. rewrite Er. cbn [mbind option_bind].
  destruct r as [b|e]; [|done]. injection H as ->.
  by destruct (String.eqb key (readKeyFromEntry blob)).
Qed.

Lemma Get_Val_storedBlob (c : BigCache) (key : string) (v : list byte) :
  Get c key = Some (Val v) ->
  exists blob, storedBlob c key = Some blob /\
               readKeyFromEntry blob = key /\ v = readEntry blob.
Proof.
  unfold storedBlob, Get. intros H.
  bind_inv H shard Es. rewrite Es. cbn [mbind option_bind].
  destruct (default 0 (hashmap shard !! Sum64 c key) =? 0); [done|].
  bind_inv H r Er. rewrite Er. cbn [mbind option_bind].
  destruct r as [b|e]; [|done]. exists b.
  destruct (String.eqb key (readKeyFromEntry b)) eqn:E; cbn [negb] in H;
    [|done].
  apply String.eqb_eq in E. injection H as <-. done.
Qed.

Lemma Size_Clear (c : BigCache) : Size (Clear c) = 0.
Proof.
  unfold Size, Clear. cbn [shards].
  assert (H : forall (l : list cacheShard) (n : Z),
             foldl (fun count shard =>
                      count + Z.of_nat (size (hashmap shard)))
               n (clearShard <$> l) = n).
  { induction l as [|s l IH]; intros n; cbn; [done|].
    rewrite map_size_empty, IH. lia. }
  by rewrite H.
Qed.

Lemma Get_Clear (c : BigCache) (key : string) :
  shards_ok c -> Get (Clear c) key = Some (Error (notFound key)).
Proof.
  intros Hok. unfold Get.
  destruct (shards_ok_getShard c (Sum64 c key) Hok) as [s Hs].
  assert (Hs' : getShard (Clear c) (Sum64 (Clear c) key)
                = Some (clearShard s)).
  { unfold getShard, shardIndex, Clear in *. cbn [shards shardMask].
    rewrite list_lookup_fmap. unfold Sum64 in *. cbn [hash].
    by rewrite Hs. }
  rewrite Hs'. cbn [mbind option_bind clearShard hashmap].
  by rewrite lookup_empty.
Qed.

Lemma cleared_Clear (c : BigCache) :
  Forall2 cleared (shards c) (shards (Clear c)).
Proof.
  unfold Clear. cbn [shards]. apply Forall2_fmap_r, Forall_Forall2_diag.
  apply Forall_forall. intros s _. by repeat split.
Qed.

End GetClear.

(** C7.  After [Clear] on a reachable cache, [Size] is 0, every key yields
    the not-found error on [Get], and every shard has an empty map and a queue
    with count 0 and head = tail = right margin = left margin over the same
    array and capacity as before. *)
Theorem Clear_postcondition (c : bigcache.BigCache) :
  CacheSpec.reachable c ->
  bigcache.Size (bigcache.Clear c) = 0 /\
  (forall key : string,
     bigcache.Get (bigcache.Clear c) key
     = Some (Error (bigcache.notFound key))) /\
  Forall2 CacheSpec.cleared (bigcache.shards c)
    (bigcache.shards (bigcache.Clear c)).
Proof.
  intros Hr. apply reachable_shards_ok in Hr. split_and!.
  - apply Size_Clear.
  - intros key. by apply Get_Clear.
  - apply cleared_Clear.
Qed.

(** ** Runs *)

Section Runs.

Lemma queue_run_reachable (calls : list QueueSpec.call)
    (q q' : queue.BytesQueue) :
  QueueSpec.reachable q -> QueueSpec.run q calls = Some q' ->
  QueueSpec.reachable q'.
Proof.
  revert q. induction calls as [|[data| |] calls IH]; intros q Hq H;
    cbn [QueueSpec.run] in H.
  - by injection H as <-.
  - bind_inv H r E. destruct r as [i q1].
    eapply IH; [|exact H]. by eapply QueueSpec.reachable_Push.
  - bind_inv H r E. destruct r as [r q1].
    eapply IH; [|exact H]. by eapply QueueSpec.reachable_Pop.
  - eapply IH; [|exact H]. by apply QueueSpec.reachable_Clear.
Qed.

Lemma cache_run_reachable (calls : list (Z * string * list byte))
    (c c' : bigcache.BigCache) :
  CacheSpec.reachable c -> CacheSpec.run c calls = Some c' ->
  CacheSpec.reachable c'.
Proof.
  revert c. induction calls as [|[[now key] entry] calls IH]; intros c Hc H;
    cbn [CacheSpec.run] in H.
  - by injection H as <-.
  - bind_inv H c1 E. eapply IH; [|exact H].
    by eapply CacheSpec.reachable_Set.
Qed.

End Runs.

(** ** The growth that is too small *)

(** C1.  A queue of capacity 10 holds one entry of 5 bytes; a push of 8 bytes
    grows the array to 20 bytes, where only 6 of the 8 bytes fit after the
    header at index 10.  [Get] on the returned index panics; after one more
    growth it returns bytes that were never pushed. *)
Theorem Push_growth_cuts_entry :
  exists q0 q1 q2 q3 : queue.BytesQueue,
    queue.NewBytesQueue 10 = Some q0 /\
    queue.Push q0 (replicate 5 "a"%byte) = Some (1, q1) /\
    queue.Push q1 (replicate 8 "b"%byte) = Some (10, q2) /\
    queue.capacity q2 = 20 /\ queue.tail q2 = 20 /\
    queue.Get q2 10 = None /\
    queue.Push q2 [x00] = Some (20, q3) /\
    queue.Get q3 10 = Some (Val (replicate 6 "b"%byte ++ [x01; x00])).
Proof.
  do 4 eexists.
  repeat (split; [vm_compute; reflexivity|]). vm_compute; reflexivity.
Qed.

(** C8.  The same cut entry makes [Pop] walk off the entries: after three
    pushes and three pops the reachable state has tail 25 and head 26, a gap
    of 1, and the next [Push] panics on a negative filler length. *)
Theorem wrapped_gap_below_minimum :
  exists q0 q : queue.BytesQueue,
    queue.NewBytesQueue 10 = Some q0 /\
    QueueSpec.run q0
      [QueueSpec.CallPush (replicate 5 "a"%byte);
       QueueSpec.CallPush (replicate 8 "b"%byte);
       QueueSpec.CallPush [x00];
       QueueSpec.CallPop; QueueSpec.CallPop; QueueSpec.CallPop] = Some q /\
    QueueSpec.reachable q /\
    QueueSpec.wrapped q /\
    queue.head q - queue.tail q = 1 /\
    queue.head q - queue.tail q < queue.minimumEmptyBlobSize /\
    queue.Push q [] = None.
Proof.
  do 2 eexists. split; [vm_compute; reflexivity|].
  match goal with
  | |- ?R = Some _ /\ _ =>
      let v := eval vm_compute in R in
      match v with
      | Some ?q => assert (Hrun : R = Some q) by (vm_compute; reflexivity)
      end
  end.
  split; [exact Hrun|]. split.
  { eapply queue_run_reachable; [|exact Hrun].
    apply (QueueSpec.reachable_New 10). vm_compute; reflexivity. }
  repeat (split; [vm_compute; done|]). vm_compute; done.
Qed.

(** ** Counterexamples on concrete runs *)

(** C10.  One shard of capacity 100; the second [Set] pushes a blob of 100
    bytes that the growth to 200 bytes cuts short.  Two sets later the
    eviction pops a blob that starts inside the third entry, whose hash field
    is no key of the map: the count drops, the map does not, and the shard
    ends with 3 keys over 2 queue entries. *)
Theorem map_larger_than_queue :
  exists (c0 c : bigcache.BigCache) (s : bigcache.cacheShard),
    bigcache.newBigCache
      (bigcache.mkConfig 1 5000000000 0 10 false
         (Some CacheSpec.lengthHasher)) = Some (Val c0) /\
    CacheSpec.run c0
      [(0, "a"%string, replicate 76 "1"%byte);
       (0, "bb"%string, replicate 80 "2"%byte);
       (30, "ccc"%string, replicate 40 "3"%byte);
       (30, "dddd"%string, ["4"%byte]);
       (30, "eeeee"%string, ["5"%byte])] = Some c /\
    CacheSpec.reachable c /\
    bigcache.shards c = [s] /\
    size (bigcache.hashmap s) = 3%nat /\
    queue.Len (bigcache.entries s) = 2.
Proof.
  do 3 eexists. split; [vm_compute; reflexivity|].
  match goal with
  | |- ?R = Some _ /\ _ =>
      let v := eval vm_compute in R in
      match v with
      | Some ?c => assert (Hrun : R = Some c) by (vm_compute; reflexivity)
      end
  end.
  split; [exact Hrun|]. split.
  { eapply cache_run_reachable; [|exact Hrun].
    apply (CacheSpec.reachable_new
             (bigcache.mkConfig 1 5000000000 0 10 false
                (Some CacheSpec.lengthHasher))); [|vm_compute; reflexivity].
    repeat split; vm_compute; congruence. }
  repeat (split; [vm_compute; reflexivity|]). vm_compute; reflexivity.
Qed.

(** C3 as stated fails: the queue wraps at the third push and grows at the
    fourth; the growth makes the entry pushed after the wrap the oldest, so
    the pops return a, c, filler, b, d for the pushes a, b, c, d. *)
Lemma FIFO_order_counterexample :
  exists q0 q : queue.BytesQueue,
    queue.NewBytesQueue 100 = Some q0 /\
    QueueSpec.run q0
      [QueueSpec.CallPush (replicate 70 "a"%byte);
       QueueSpec.CallPush (replicate 10 "b"%byte);
       QueueSpec.CallPop;
       QueueSpec.CallPush (replicate 30 "c"%byte);
       QueueSpec.CallPush (replicate 40 "d"%byte)] = Some q /\
    QueueSpec.drain 10 q
    = Some [replicate 30 "c"%byte; replicate 36 x00;
            replicate 10 "b"%byte; replicate 40 "d"%byte] /\
    List.filter (fun e => negb (QueueSpec.isFiller e))
      [replicate 70 "a"%byte; replicate 30 "c"%byte; replicate 36 x00;
       replicate 10 "b"%byte; replicate 40 "d"%byte]
    <> [replicate 70 "a"%byte; replicate 10 "b"%byte;
        replicate 30 "c"%byte; replicate 40 "d"%byte].
Proof.
  do 2 eexists.
  repeat (split; [vm_compute; reflexivity|]). vm_compute. discriminate.
Qed.

(** C2 as stated fails: after [Set] of key A, a [Set] of a different key B
    with the same hash resets A's blob and takes over the map entry; A was
    never set again and its blob is still the oldest entry of the queue, yet
    [Get] of A reports not-found. *)
Lemma roundtrip_collision_counterexample :
  exists (c0 c1 c2 : bigcache.BigCache) (s : bigcache.cacheShard),
    bigcache.newBigCache
      (bigcache.mkConfig 1 5000000000 0 10 false
         (Some CacheSpec.lengthHasher)) = Some (Val c0) /\
    bigcache.Set_ c0 0 "A" ["1"%byte] = Some c1 /\
    bigcache.Get c1 "A" = Some (Val ["1"%byte]) /\
    bigcache.Set_ c1 0 "B" ["2"%byte] = Some c2 /\
    bigcache.shards c2 = [s] /\
    queue.head (bigcache.entries s) = 1 /\
    queue.Len (bigcache.entries s) = 2 /\
    bigcache.Get c2 "A" = Some (Error (bigcache.notFound "A")).
Proof.
  do 4 eexists.
  repeat (split; [vm_compute; reflexivity|]). vm_compute; reflexivity.
Qed.

(** C4 as stated fails on its last part: the empty key hashes to 0 under the
    length hasher.  The oldest entry is the superseded blob of that key, with
    hash field 0; when it expires, deleting map[0] removes the entry of the
    live blob at index 24. *)
Lemma zero_hash_delete_counterexample :
  exists (c0 c2 : bigcache.BigCache) (s s' : bigcache.cacheShard)
         (oldest : list byte),
    bigcache.newBigCache
      (bigcache.mkConfig 1 5000000000 0 10 false
         (Some CacheSpec.lengthHasher)) = Some (Val c0) /\
    CacheSpec.run c0 [(0, ""%string, ["1"%byte]); (4, ""%string, ["2"%byte])]
    = Some c2 /\
    bigcache.shards c2 = [s] /\
    bigcache.Get c2 "" = Some (Val ["2"%byte]) /\
    queue.Peek (bigcache.entries s) = Some (Val oldest) /\
    bigcache.readHashFromEntry oldest = 0 /\
    bigcache.evictOldest c2 6 s = Some s' /\
    queue.Len (bigcache.entries s') = queue.Len (bigcache.entries s) - 1 /\
    bigcache.hashmap s !! 0 = Some 24 /\
    bigcache.hashmap s' !! 0 = None.
Proof.
  do 5 eexists.
  repeat (split; [vm_compute; reflexivity|]). vm_compute; reflexivity.
Qed.

(** ** The eviction step of [Set] *)

Section Eviction.

Import queue bigcache.

Lemma Peek_Pop (q : BytesQueue) (oldest : list byte) :
  Peek q = Some (Val oldest) ->
  exists q', Pop q = Some (Val oldest, q') /\ Len q' = Len q - 1 /\
             Len q <> 0.
Proof.
  unfold Peek, Pop. destruct (count q =? 0) eqn:E0; [done|].
  intros H. bind_inv H ds E. destruct ds as [d sz]. injection H as ->.
  rewrite E. cbn [mbind option_bind]. eexists. split; [reflexivity|].
  apply Z.eqb_neq in E0. unfold Len. split; [|done].
  repeat case_match;
    cbn [set_tail set_head set_rightMargin set_count count]; lia.
Qed.

Lemma Peek_Error (q : BytesQueue) (e : queueError) :
  Peek q = Some (Error e) -> Len q = 0.
Proof.
  unfold Peek, Len. destruct (count q =? 0) eqn:E0; [lia|].
  intros H. bind_inv H ds E. by destruct ds.
Qed.

Lemma resetPrevious_frame (s s1 : cacheShard) (h : Z) :
  resetPrevious s h = Some s1 ->
  hashmap s1 = hashmap s /\ Len (entries s1) = Len (entries s) /\
  head (entries s1) = head (entries s) /\
  tail (entries s1) = tail (entries s) /\
  rightMargin (entries s1) = rightMargin (entries s) /\
  capacity (entries s1) = capacity (entries s).
Proof.
  unfold resetPrevious. intros H.
  destruct (negb _); [|by injection H as <-].
  bind_inv H r Er. destruct r as [prev|e]; [|by injection H as <-].
  bind_inv H q Eq0. injection H as <-. cbn [hashmap entries].
  unfold resetInPlace in Eq0. bind_inv Eq0 an Ec. destruct an as [a n].
  injection Eq0 as <-. done.
Qed.

End Eviction.

(** C4, amended.  [Set] runs in three steps: reset of the superseded blob
    (which leaves map and count alone), one eviction attempt, push.  The
    eviction attempt peeks the oldest entry when the queue is not empty, and
    pops it and deletes the map entry of its hash field exactly when
    [now - oldest.timestamp], taken in [uint64], is greater than the life
    window; otherwise the shard is unchanged.  At most one entry is popped.
    When the popped hash field is zero the delete changes nothing provided
    the map holds no entry for hash 0. *)
Theorem Set_eviction_attempt (c : bigcache.BigCache) (now hashedKey : Z)
    (key : string) (entry : list byte) (s s' : bigcache.cacheShard) :
  bigcache.setShard c now hashedKey key entry s = Some s' ->
  exists s1 s2 : bigcache.cacheShard,
    bigcache.resetPrevious s hashedKey = Some s1 /\
    bigcache.hashmap s1 = bigcache.hashmap s /\
    queue.Len (bigcache.entries s1) = queue.Len (bigcache.entries s) /\
    bigcache.evictOldest c (uint64 now) s1 = Some s2 /\
    bigcache.pushEntry (uint64 now) hashedKey key entry s2 = Some s' /\
    match queue.Peek (bigcache.entries s1) with
    | Some (Val oldest) =>
        queue.Len (bigcache.entries s1) <> 0 /\
        if uint64 (uint64 now - bigcache.readTimestampFromEntry oldest)
           >? bigcache.lifeWindow c
        then
          exists q' : queue.BytesQueue,
            queue.Pop (bigcache.entries s1) = Some (Val oldest, q') /\
            queue.Len q' = queue.Len (bigcache.entries s1) - 1 /\
            s2 = bigcache.mkShard
                   (delete (bigcache.readHashFromEntry oldest)
                      (bigcache.hashmap s1)) q' /\
            (bigcache.readHashFromEntry oldest = 0 ->
             bigcache.hashmap s1 !! 0 = None ->
             bigcache.hashmap s2 = bigcache.hashmap s1)
        else s2 = s1
    | Some (Error _) => queue.Len (bigcache.entries s1) = 0 /\ s2 = s1
    | None => False
    end.
Proof.
  unfold bigcache.setShard. intros H.
  bind_inv H s1 E1. bind_inv H s2 E2. exists s1, s2.
  destruct (resetPrevious_frame _ _ _ E1) as (Hm & Hl & _).
  split_and!; try done.
  unfold bigcache.evictOldest in E2. bind_inv E2 p Ep. rewrite Ep.
  destruct p as [oldest|e].
  - destruct (Peek_Pop _ _ Ep) as (q' & Hpop & Hlen & Hne).
    split; [done|]. unfold bigcache.onEvict in E2.
    destruct (_ >? _); [|by injection E2 as <-].
    unfold bigcache.evict in E2. rewrite Hpop in E2.
    cbn [mbind option_bind] in E2. injection E2 as <-.
    exists q'. split_and!; try done.
    intros -> H0. cbn [bigcache.hashmap]. by apply delete_id.
  - injection E2 as <-. split; [|done]. by eapply Peek_Error.
Qed.

Lemma Set_eviction_attempt_witness :
  bigcache.setShard CacheSpec.exampleCache 6 1 "B" ["2"%byte]
    (bigcache.mkShard {[1 := 1]}
       (queue.mkQueue
          (x00 :: le_encode 4 20 ++ bigcache.wrapEntry 0 1 "A" ["1"%byte]
             ++ replicate 75 x00) 100 1 25 1 25))
  = Some (bigcache.mkShard {[1 := 1]}
            (queue.mkQueue
               (x00 :: le_encode 4 20
                  ++ bigcache.wrapEntry 6 1 "B" ["2"%byte]
                  ++ replicate 75 x00) 100 1 25 1 25)) /\
  exists s1 s2 : bigcache.cacheShard,
    bigcache.evictOldest CacheSpec.exampleCache (uint64 6) s1 = Some s2 /\
    bigcache.pushEntry (uint64 6) 1 "B" ["2"%byte] s2
    = Some (bigcache.mkShard {[1 := 1]}
              (queue.mkQueue
                 (x00 :: le_encode 4 20
                    ++ bigcache.wrapEntry 6 1 "B" ["2"%byte]
                    ++ replicate 75 x00) 100 1 25 1 25)).
Proof.
  assert (H : bigcache.setShard CacheSpec.exampleCache 6 1 "B" ["2"%byte]
                (bigcache.mkShard {[1 := 1]}
                   (queue.mkQueue
                      (x00 :: le_encode 4 20
                         ++ bigcache.wrapEntry 0 1 "A" ["1"%byte]
                         ++ replicate 75 x00) 100 1 25 1 25))
              = Some (bigcache.mkShard {[1 := 1]}
                        (queue.mkQueue
                           (x00 :: le_encode 4 20
                              ++ bigcache.wrapEntry 6 1 "B" ["2"%byte]
                              ++ replicate 75 x00) 100 1 25 1 25)))
    by (vm_compute; reflexivity).
  split; [exact H|].
  destruct (Set_eviction_attempt _ _ _ _ _ _ _ H)
    as (s1 & s2 & _ & _ & _ & He & Hp & _).
  exists s1, s2. split; [exact He|exact Hp].
Defined.

(** ** Segments of the array *)

Section Segments.

Import queue QueueSpec.

Lemma lookup_segment (a : list byte) (i n : Z) (k : nat) :
  0 <= i -> Z.of_nat k < n ->
  segment a i n !! k = a !! (Z.to_nat i + k)%nat.
Proof.
  intros Hi Hk. unfold segment.
  rewrite lookup_take_lt by lia. apply lookup_drop.
Qed.

Lemma length_segment (a : list byte) (i n : Z) :
  0 <= i -> 0 <= n -> i + n <= len a ->
  length (segment a i n) = Z.to_nat n.
Proof.
  unfold segment, len. intros. rewrite length_take, length_drop. lia.
Qed.

Lemma segment_agree (a a' : list byte) (i n : Z) :
  0 <= i -> 0 <= n -> i + n <= len a -> i + n <= len a' ->
  agree a a' i (i + n) -> segment a i n = segment a' i n.
Proof.
  intros Hi Hn Ha Ha' Hag. apply list_eq. intros k.
  destruct (decide (Z.of_nat k < n)) as [Hk|Hk].
  - rewrite !lookup_segment by done. apply Hag. lia.
  - rewrite !(proj2 (lookup_ge_None _ _)); [done| |];
      rewrite length_segment by done; lia.
Qed.

Lemma segment_app (a : list byte) (i n m : Z) :
  0 <= i -> 0 <= n -> 0 <= m ->
  segment a i (n + m) = segment a i n ++ segment a (i + n) m.
Proof.
  intros Hi Hn Hm. unfold segment.
  rewrite Z2Nat.inj_add, <- take_take_drop by done.
  by rewrite drop_drop, <- Z2Nat.inj_add.
Qed.

Lemma agree_weaken (a a' : list byte) (lo hi lo' hi' : Z) :
  agree a a' lo hi -> lo <= lo' -> hi' <= hi -> agree a a' lo' hi'.
Proof. intros H ? ? k Hk. apply H. lia. Qed.

Lemma agree_trans (a b c : list byte) (lo hi : Z) :
  agree a b lo hi -> agree b c lo hi -> agree a c lo hi.
Proof. intros H1 H2 k Hk. by rewrite H1, H2. Qed.

Lemma agree_refl (a : list byte) (lo hi : Z) : agree a a lo hi.
Proof. by intros k Hk. Qed.

Lemma slice_segment (s : list byte) (lo hi : Z) :
  0 <= lo -> lo <= hi -> hi <= len s ->
  slice s lo hi = Some (segment s lo (hi - lo)).
Proof.
  intros H1 H2 H3. unfold slice, segment.
  destruct (0 <=? lo) eqn:E1; [|lia].
  destruct (lo <=? hi) eqn:E2; [|lia].
  destruct (hi <=? len s) eqn:E3; [|lia]. done.
Qed.

Lemma slice_Some (s : list byte) (lo hi : Z) (r : list byte) :
  slice s lo hi = Some r ->
  0 <= lo /\ lo <= hi /\ hi <= len s /\ r = segment s lo (hi - lo).
Proof.
  unfold slice, segment.
  destruct (0 <=? lo) eqn:E1; [|done].
  destruct (lo <=? hi) eqn:E2; [|done].
  destruct (hi <=? len s) eqn:E3; [|done]. cbn [andb].
  intros [= <-]. split_and!; [lia|lia|lia|done].
Qed.

Lemma slice_whole (s : list byte) : slice s 0 (len s) = Some s.
Proof.
  rewrite slice_segment by (unfold len; lia). f_equal.
  unfold segment, len. rewrite Z.sub_0_r, Nat2Z.id. cbn [Z.to_nat drop].
  by rewrite take_ge.
Qed.

(** [copy] into the array: what changes and what does not. *)
Lemma copy_at_spec (dst : list byte) (off : Z) (src a : list byte) (n : Z) :
  copy_at dst off src = Some (a, n) ->
  0 <= off <= len dst /\
  n = Z.min (len dst - off) (len src) /\
  len a = len dst /\
  agree dst a 0 off /\
  agree dst a (off + n) (len dst) /\
  segment a off n = take (Z.to_nat n) src.
Proof.
  intros H. apply copy_at_Some in H as (Hoff & Hn & ->).
  pose proof (len_nonneg src) as Hs. unfold len in *.
  assert (Hl1 : length (take (Z.to_nat off) dst) = Z.to_nat off)
    by (rewrite length_take; lia).
  assert (Hl2 : length (take (Z.to_nat n) src) = Z.to_nat n)
    by (rewrite length_take; lia).
  split_and!; try lia.
  - rewrite !length_app, Hl1, Hl2, length_drop. lia.
  - intros k Hk. rewrite lookup_app_l by lia.
    by rewrite lookup_take_lt by lia.
  - intros k Hk. rewrite lookup_app_r by lia.
    rewrite lookup_app_r by lia. rewrite lookup_drop. f_equal. lia.
  - unfold segment. rewrite drop_app_length' by done.
    by rewrite take_app_length' by done.
Qed.

End Segments.

(** ** Chains of entries *)

Section Chains.

Import queue QueueSpec.

Lemma entry_at_agree (a a' : list byte) (i : Z) (b : list byte) :
  entry_at a i b -> agree a a' i (i + headerEntrySize + len b) ->
  len a <= len a' -> entry_at a' i b.
Proof.
  unfold entry_at, headerEntrySize. intros (Hi & Hb & Hl & Hs) Hag Hlen.
  pose proof (len_nonneg b).
  split_and!; try lia. rewrite <- Hs. symmetry.
  apply segment_agree; try lia.
  eapply agree_weaken; [exact Hag|lia|lia].
Qed.

Lemma chain_le (a : list byte) (es : list (Z * list byte)) (i j : Z) :
  chain a i es j -> i <= j.
Proof.
  revert i. induction es as [|[h b] es IH]; intros i; cbn [chain].
  - lia.
  - intros (_ & _ & Hc). apply IH in Hc. pose proof (len_nonneg b).
    unfold headerEntrySize in *. lia.
Qed.

Lemma chain_nonempty (a : list byte) (es : list (Z * list byte)) (i j : Z) :
  chain a i es j -> es <> [] -> 0 <= i /\ i < j /\ j <= len a.
Proof.
  revert i. induction es as [|[h b] es IH]; intros i; cbn [chain]; [done|].
  intros (_ & He & Hc) _. pose proof (len_nonneg b).
  destruct He as (Hi & Hb & _). unfold headerEntrySize in *.
  destruct es as [|e es].
  - cbn [chain] in Hc. lia.
  - apply IH in Hc; [|done]. lia.
Qed.

Lemma chain_empty (a : list byte) (es : list (Z * list byte)) (i : Z) :
  chain a i es i -> es = [].
Proof.
  intros H. destruct es as [|e es]; [done|].
  apply chain_nonempty in H; [lia|done].
Qed.

Lemma chain_agree (a a' : list byte) (es : list (Z * list byte)) (i j : Z) :
  chain a i es j -> agree a a' i j -> len a <= len a' -> chain a' i es j.
Proof.
  revert i. induction es as [|[h b] es IH]; intros i; cbn [chain]; [done|].
  intros (Hh & He & Hc) Hag Hlen. pose proof (chain_le _ _ _ _ Hc).
  pose proof (len_nonneg b). unfold headerEntrySize in *.
  split_and!; [done| |].
  - eapply entry_at_agree; [done| |done].
    eapply agree_weaken; [exact Hag|lia|done].
  - apply IH; [done| |done]. eapply agree_weaken; [exact Hag|lia|lia].
Qed.

Lemma chain_app (a : list byte) (xs ys : list (Z * list byte)) (i j k : Z) :
  chain a i xs j -> chain a j ys k -> chain a i (xs ++ ys) k.
Proof.
  revert i. induction xs as [|[h b] xs IH]; intros i; cbn [chain app].
  - by intros ->.
  - intros (Hh & He & Hc) Hy. split_and!; [done|done|]. by apply IH.
Qed.

Lemma chain_app_inv (a : list byte) (xs ys : list (Z * list byte)) (i k : Z) :
  chain a i (xs ++ ys) k -> exists j, chain a i xs j /\ chain a j ys k.
Proof.
  revert i. induction xs as [|[h b] xs IH]; intros i; cbn [chain app].
  - intros H. by exists i.
  - intros (Hh & He & Hc). apply IH in Hc as (j & H1 & H2).
    exists j. by split_and!.
Qed.

Lemma chain_elem (a : list byte) (es : list (Z * list byte)) (i j h : Z)
    (b : list byte) :
  chain a i es j -> (h, b) ∈ es ->
  entry_at a h b /\ i <= h /\ h + headerEntrySize + len b <= j.
Proof.
  revert i. induction es as [|[h' b'] es IH]; intros i; cbn [chain].
  - intros _ H. by apply elem_of_nil in H.
  - intros (Hh & He & Hc) Hin. pose proof (chain_le _ _ _ _ Hc).
    pose proof (len_nonneg b'). unfold headerEntrySize in *.
    apply elem_of_cons in Hin as [[= -> ->]|Hin].
    + subst. split_and!; [done|lia|lia].
    + destruct (IH _ Hc Hin) as (? & ? & ?). split_and!; [done|lia|lia].
Qed.

Lemma entry_at_split (a : list byte) (i : Z) (b : list byte) :
  entry_at a i b ->
  segment a i headerEntrySize = le_encode 4 (uint32 (len b)) /\
  segment a (i + headerEntrySize) (len b) = b.
Proof.
  unfold entry_at, headerEntrySize. intros (Hi & Hb & Hl & Hs).
  pose proof (len_nonneg b).
  rewrite segment_app in Hs by lia.
  apply app_inj_1 in Hs; [done|].
  rewrite length_le_encode, length_segment by lia. done.
Qed.

Lemma peek_entry (q : BytesQueue) (i : Z) (b : list byte) :
  entry_at (array q) i b -> peek q i = Some (b, len b).
Proof.
  intros He. destruct (entry_at_split _ _ _ He) as [Hh Hd].
  destruct He as (Hi & Hb & Hl & _). pose proof (len_nonneg b).
  unfold peek, headerEntrySize in *.
  rewrite slice_segment by lia.
  replace (i + 4 - i) with 4 by lia. rewrite Hh.
  cbn [mbind option_bind].
  rewrite le_decode_encode. change (256 ^ Z.of_nat 4) with (2 ^ 32).
  unfold uint32. rewrite Z.mod_mod by lia. rewrite Z.mod_small by lia.
  rewrite slice_segment by lia.
  replace (i + 4 + len b - (i + 4)) with (len b) by lia. by rewrite Hd.
Qed.

Lemma Get_entry (q : BytesQueue) (i : Z) (b : list byte) :
  0 < i -> entry_at (array q) i b -> Get q i = Some (Val b).
Proof.
  intros Hi He. unfold Get. destruct (i <=? 0) eqn:E; [lia|].
  by rewrite (peek_entry _ _ _ He).
Qed.

End Chains.

(** ** What [copy], [push] and [allocateAdditionalMemory] do to the array *)

Section Writes.

Import queue QueueSpec.

Lemma segment_eq_agree (a a' : list byte) (i n : Z) :
  0 <= i -> segment a i n = segment a' i n -> agree a a' i (i + n).
Proof.
  intros Hi Hs k Hk.
  pose proof (lookup_segment a i n (k - Z.to_nat i) Hi) as H1.
  pose proof (lookup_segment a' i n (k - Z.to_nat i) Hi) as H2.
  replace (Z.to_nat i + (k - Z.to_nat i))%nat with k in * by lia.
  rewrite <- H1, <- H2 by lia. by rewrite Hs.
Qed.

Lemma copy_spec (q : BytesQueue) (data : list byte) (l : Z)
    (q' : BytesQueue) :
  copy q data l = Some q' -> l = len data ->
  0 <= tail q <= len (array q) /\
  tail q' - tail q = Z.min (len (array q) - tail q) (len data) /\
  len (array q') = len (array q) /\
  agree (array q) (array q') 0 (tail q) /\
  agree (array q) (array q') (tail q') (len (array q)) /\
  segment (array q') (tail q) (tail q' - tail q)
  = take (Z.to_nat (tail q' - tail q)) data /\
  head q' = head q /\ rightMargin q' = rightMargin q /\
  count q' = count q /\ capacity q' = capacity q.
Proof.
  unfold copy. intros H ->. rewrite slice_whole in H.
  cbn [mbind option_bind] in H. bind_inv H an E. destruct an as [a n].
  injection H as <-. cbn [set_tail set_array tail array head rightMargin
                            count capacity].
  apply copy_at_spec in E as (? & ? & ? & ? & ? & ?).
  replace (tail q + n - tail q) with n by lia.
  split_and!; try done; lia.
Qed.

(** A [push] that moves the tail by the whole entry wrote the whole entry. *)
Lemma push_full (q : BytesQueue) (d : list byte) (q' : BytesQueue) :
  push q d (len d) = Some q' ->
  tail q' - tail q = headerEntrySize + len d ->
  len (array q) <= 2 ^ 32 ->
  tail q + headerEntrySize + len d <= len (array q) /\
  len (array q') = len (array q) /\
  agree (array q) (array q') 0 (tail q) /\
  agree (array q) (array q') (tail q') (len (array q)) /\
  entry_at (array q') (tail q) d /\
  head q' = head q /\ capacity q' = capacity q /\
  count q' = count q + 1 /\
  rightMargin q'
  = (if tail q' >? head q then tail q' else rightMargin q).
Proof.
  unfold push. intros H Ht Hcap.
  bind_inv H q1 E1. bind_inv H q2 E2. injection H as <-.
  apply copy_spec in E1
    as (Ht0 & Hn1 & Hl1 & Ha1 & Hb1 & Hs1 & Hh1 & Hr1 & Hc1 & Hk1);
    [|by unfold len; rewrite length_le_encode].
  apply copy_spec in E2
    as (Ht1 & Hn2 & Hl2 & Ha2 & Hb2 & Hs2 & Hh2 & Hr2 & Hc2 & Hk2);
    [|done].
  assert (Hlh : len (le_encode 4 (uint32 (len d))) = 4)
    by (unfold len; by rewrite length_le_encode).
  rewrite Hlh in Hn1. pose proof (len_nonneg d) as Hd.
  unfold headerEntrySize in *.
  assert (Ht' : tail (set_count
                        (if tail q2 >? head q2
                         then set_rightMargin q2 (tail q2) else q2)
                        (count (if tail q2 >? head q2
                                then set_rightMargin q2 (tail q2) else q2)
                         + 1)) = tail q2) by (by destruct (tail q2 >? head q2)).
  rewrite Ht' in *. clear Ht'.
  assert (Hn14 : tail q1 - tail q = 4) by lia.
  assert (Hn2d : tail q2 - tail q1 = len d) by lia.
  assert (Hfit : tail q + 4 + len d <= len (array q)) by lia.
  rewrite Hn14 in Hs1. rewrite Hn2d in Hs2.
  assert (Harr : array (set_count
                        (if tail q2 >? head q2
                         then set_rightMargin q2 (tail q2) else q2)
                        (count (if tail q2 >? head q2
                                then set_rightMargin q2 (tail q2) else q2)
                         + 1)) = array q2) by (by destruct (tail q2 >? head q2)).
  rewrite Harr. clear Harr.
  split_and!.
  - done.
  - lia.
  - intros k Hk. rewrite Ha1 by lia. apply Ha2. lia.
  - intros k Hk. rewrite Hb1 by lia. apply Hb2. lia.
  - unfold entry_at, headerEntrySize. split_and!; try lia.
    rewrite segment_app by lia.
    replace (tail q + 4) with (tail q1) by lia. rewrite Hs2.
    unfold len. rewrite Nat2Z.id, take_ge by done. f_equal.
    rewrite <- (segment_agree (array q1)); try lia.
    + rewrite Hs1. apply take_ge. rewrite length_le_encode. lia.
    + eapply agree_weaken; [exact Ha2|lia|lia].
  - destruct (tail q2 >? head q2); cbn; congruence.
  - destruct (tail q2 >? head q2); cbn; congruence.
  - destruct (tail q2 >? head q2); cbn; lia.
  - rewrite <- Hh1, <- Hh2, <- Hr1, <- Hr2.
    by destruct (tail q2 >? head q2).
Qed.

Lemma copy_fits (q : BytesQueue) (data : list byte) :
  0 <= tail q -> tail q + len data <= len (array q) ->
  exists q', copy q data (len data) = Some q' /\
             tail q' = tail q + len data.
Proof.
  intros Ht Hfit. pose proof (len_nonneg data) as Hd.
  unfold copy. rewrite slice_whole. cbn [mbind option_bind].
  unfold copy_at.
  destruct (0 <=? tail q) eqn:E1; [|lia].
  destruct (tail q <=? len (array q)) eqn:E2; [|lia].
  cbn [andb mbind option_bind]. eexists. split; [reflexivity|].
  cbn [set_tail tail]. lia.
Qed.

(** With room for the whole entry, [push] succeeds and moves the tail by
    it. *)
Lemma push_fits (q : BytesQueue) (d : list byte) :
  0 <= tail q -> tail q + headerEntrySize + len d <= len (array q) ->
  exists q', push q d (len d) = Some q' /\
             tail q' - tail q = headerEntrySize + len d.
Proof.
  intros Ht Hfit. pose proof (len_nonneg d) as Hd.
  assert (Hlh : len (le_encode 4 (uint32 (len d))) = headerEntrySize)
    by (unfold len; by rewrite length_le_encode).
  unfold push.
  destruct (copy_fits q (le_encode 4 (uint32 (len d)))) as (q1 & E1 & Ht1);
    [done|lia|].
  rewrite Hlh in E1. rewrite E1. cbn [mbind option_bind].
  apply copy_spec in E1 as (_ & _ & Hl1 & _); [|done].
  rewrite Hlh in Ht1. unfold headerEntrySize in *.
  destruct (copy_fits q1 d) as (q2 & E2 & Ht2); [lia|lia|].
  rewrite E2. cbn [mbind option_bind]. eexists. split; [reflexivity|].
  destruct (_ >? _); cbn; lia.
Qed.

End Writes.

(** ** Growth *)

Section Growth.

Import queue QueueSpec.

Lemma make_Some (n : Z) (a : list byte) :
  make n = Some a ->
  0 <= n /\ a = replicate (Z.to_nat n) x00 /\ len a = n.
Proof.
  unfold make. destruct (n <? 0) eqn:E; [done|]. intros [= <-].
  split_and!; [lia|done|]. unfold len. rewrite length_replicate. lia.
Qed.

(** The first part of [allocateAdditionalMemory]: a larger array with the
    bytes up to the right margin. *)
Lemma allocate_copy (q : BytesQueue) (m : Z) (q' : BytesQueue) :
  allocateAdditionalMemory q m = Some q' ->
  len (array q) = capacity q ->
  exists a : list byte,
    len a = (if capacity q <? m then capacity q + m else capacity q) * 2 /\
    capacity q <= len a /\
    agree (array q) a leftMarginIndex (rightMargin q) /\
    (leftMarginIndex <> rightMargin q ->
     rightMargin q <= capacity q /\ agree (array q) a 0 (rightMargin q)) /\
    let q2 := mkQueue a (len a) (head q) (tail q) (count q) (rightMargin q) in
    if (negb (leftMarginIndex =? rightMargin q)) && (tail q <? head q) then
      exists blob q3,
        make (head q - tail q - headerEntrySize) = Some blob /\
        push q2 blob (head q - tail q - headerEntrySize) = Some q3 /\
        q' = set_tail (set_head q3 leftMarginIndex) (rightMargin q3)
    else q' = q2.
Proof.
  unfold allocateAdditionalMemory. intros H Hlen.
  pose proof (len_nonneg (array q)) as Hcap0. rewrite Hlen in Hcap0.
  bind_inv H newArray En. apply make_Some in En as (Hc2 & -> & Hln).
  cbn [rightMargin array tail head set_array] in H.
  set (cap2 := (if capacity q <? m then capacity q + m else capacity q) * 2)
    in *.
  assert (Hge : capacity q <= cap2).
  { unfold cap2. destruct (capacity q <? m) eqn:E; lia. }
  destruct (leftMarginIndex =? rightMargin q) eqn:E0; cbn [negb andb] in *.
  - injection H as <-. exists (replicate (Z.to_nat cap2) x00).
    rewrite Hln. split_and!; try done.
    + intros k Hk. lia.
    + lia.
  - bind_inv H src Es. bind_inv H an Ec. destruct an as [a n].
    apply slice_Some in Es as (_ & Hr0 & Hr & ->).
    rewrite Z.sub_0_r in Ec.
    apply copy_at_spec in Ec as (_ & Hn & Hla & _ & _ & Hseg).
    rewrite Z.sub_0_r, Hln in Hn.
    assert (Hls : len (segment (array q) 0 (rightMargin q)) = rightMargin q).
    { unfold len. rewrite length_segment by lia. lia. }
    rewrite Hls in Hn. rewrite Z.min_r in Hn by lia. subst n.
    rewrite take_ge in Hseg by (unfold len in Hls; lia).
    assert (Hag : agree (array q) a 0 (rightMargin q)).
    { intros k Hk.
      apply (segment_eq_agree _ _ 0 (rightMargin q)); [lia|done|lia]. }
    cbn [set_array array capacity head tail count rightMargin] in H.
    rewrite Hln in Hla. exists a. rewrite Hla. split_and!; try done.
    + eapply agree_weaken; [exact Hag|unfold leftMarginIndex; lia|lia].
    + intros _. split; [lia|done].
    + destruct (tail q <? head q) eqn:E1; [|by injection H as <-].
      bind_inv H blob Eb. bind_inv H q3 E3. injection H as <-.
      exists blob, q3. done.
Qed.

Lemma allocate_linear (q : BytesQueue) (m : Z) (q' : BytesQueue) :
  allocateAdditionalMemory q m = Some q' ->
  head q <= tail q -> len (array q) = capacity q ->
  head q' = head q /\ tail q' = tail q /\ count q' = count q /\
  rightMargin q' = rightMargin q /\
  len (array q') = capacity q' /\ capacity q <= capacity q' /\
  agree (array q) (array q') leftMarginIndex (rightMargin q).
Proof.
  intros H Hht Hlen.
  destruct (allocate_copy _ _ _ H Hlen) as (a & Hla & Hge & Hag & _ & Hq).
  cbn zeta in Hq. destruct (tail q <? head q) eqn:E; [lia|].
  rewrite andb_false_r in Hq. subst q'. cbn. by split_and!.
Qed.

Lemma allocate_wrapped (q : BytesQueue) (m : Z) (q' : BytesQueue) :
  allocateAdditionalMemory q m = Some q' ->
  leftMarginIndex <= tail q ->
  tail q + minimumEmptyBlobSize <= head q ->
  head q <= rightMargin q ->
  len (array q) = capacity q ->
  capacity q' <= 2 ^ 32 ->
  head q' = leftMarginIndex /\ tail q' = rightMargin q /\
  rightMargin q' = rightMargin q /\ count q' = count q + 1 /\
  len (array q') = capacity q' /\ capacity q <= capacity q' /\
  rightMargin q <= capacity q /\
  agree (array q) (array q') 0 (tail q) /\
  agree (array q) (array q') (head q) (rightMargin q) /\
  entry_at (array q') (tail q) (fillerOf q).2.
Proof.
  unfold leftMarginIndex, minimumEmptyBlobSize, headerEntrySize.
  intros H Ht Hgap Hhr Hlen Hcap.
  destruct (allocate_copy _ _ _ H Hlen) as (a & Hla & Hge & _ & Hag & Hq).
  cbn zeta in Hq. unfold leftMarginIndex, headerEntrySize in *.
  destruct (1 =? rightMargin q) eqn:E0; [lia|].
  destruct (tail q <? head q) eqn:E1; [|lia]. cbn [negb andb] in Hq.
  destruct Hq as (blob & q3 & Eb & E3 & ->).
  destruct Hag as [Hrc Hag]; [lia|].
  apply make_Some in Eb as (Hb0 & Hb & Hlb).
  rewrite <- Hlb in E3.
  set (q2 := mkQueue a (len a) (head q) (tail q) (count q) (rightMargin q))
    in *.
  destruct (push_fits q2 blob) as (q3' & E3' & Ht3);
    [cbn; lia|cbn; unfold headerEntrySize; lia|].
  rewrite E3 in E3'. injection E3' as <-.
  assert (Hc3 : capacity q3 = len a).
  { apply push_fields in E3 as (_ & Hc & _). by rewrite Hc. }
  cbn [capacity set_tail set_head] in Hcap.
  destruct (push_full _ _ _ E3 Ht3)
    as (_ & Hl3 & Ha3 & Hb3 & He3 & Hh3 & Hk3 & Hn3 & Hr3);
    [cbn; lia|].
  cbn [tail head array capacity count rightMargin q2] in *.
  unfold headerEntrySize in *.
  assert (Ht3' : tail q3 = head q) by lia.
  rewrite Ht3' in *.
  destruct (head q >? head q) eqn:E2; [lia|].
  cbn [set_tail set_head head tail rightMargin count array capacity].
  split_and!; try lia; try done.
  - eapply agree_trans; [eapply agree_weaken; [exact Hag|lia|lia]|done].
  - eapply agree_trans; [eapply agree_weaken; [exact Hag|lia|lia]|].
    eapply agree_weaken; [exact Hb3|lia|lia].
  - unfold fillerOf. cbn [snd]. unfold headerEntrySize. by rewrite <- Hb.
Qed.

End Growth.

(** ** The queue against its list of entries *)

Section Refinement.

Import queue QueueSpec.

Lemma inFull_true (d : list byte) (i : Z) (q' : BytesQueue) :
  inFull d i q' = true ->
  tail q' - i = headerEntrySize + len d /\ capacity q' <= 2 ^ 32.
Proof. unfold inFull. intros H. apply andb_true_iff in H. lia. Qed.

Lemma filter_all {A} (f : A -> bool) (l : list A) :
  (forall x, x ∈ l -> f x = true) -> List.filter f l = l.
Proof.
  induction l as [|x l IH]; intros H; cbn [List.filter]; [done|].
  rewrite (H x) by apply list_elem_of_here.
  f_equal. apply IH. intros y Hy. apply H. by apply list_elem_of_further.
Qed.

Lemma filter_none {A} (f : A -> bool) (l : list A) :
  (forall x, x ∈ l -> f x = false) -> List.filter f l = [].
Proof.
  induction l as [|x l IH]; intros H; cbn [List.filter]; [done|].
  rewrite (H x) by apply list_elem_of_here.
  apply IH. intros y Hy. apply H. by apply list_elem_of_further.
Qed.

Lemma chain_singleton (a : list byte) (i : Z) (b : list byte) :
  entry_at a i b -> chain a i [(i, b)] (i + headerEntrySize + len b).
Proof. intros H. cbn [chain]. by split_and!. Qed.

Lemma represents_elem (q : BytesQueue) (es : list (Z * list byte)) (h : Z)
    (b : list byte) :
  represents q es -> (h, b) ∈ es -> 0 < h /\ entry_at (array q) h b.
Proof.
  unfold leftMarginIndex.
  intros (Hlen & Hh & Hc & [(Hr & Hch & _)|(es1 & es2 & -> & _ & _ & _ & H1 & H2)])
    Hin.
  - destruct (chain_elem _ _ _ _ _ _ Hch Hin) as (? & ? & ?).
    unfold leftMarginIndex in *. split; [lia|done].
  - apply elem_of_app in Hin as [Hin|Hin].
    + destruct (chain_elem _ _ _ _ _ _ H1 Hin) as (? & ? & ?).
      unfold leftMarginIndex in *. split; [lia|done].
    + destruct (chain_elem _ _ _ _ _ _ H2 Hin) as (? & ? & ?).
      unfold leftMarginIndex in *. split; [lia|done].
Qed.

(** Appending to a linear queue. *)
Lemma push_linear_append (q q' : BytesQueue) (es : list (Z * list byte))
    (d : list byte) :
  len (array q) = capacity q -> capacity q <= 2 ^ 32 ->
  leftMarginIndex <= head q -> count q = len es -> linear q es ->
  push q d (len d) = Some q' ->
  tail q' - tail q = headerEntrySize + len d ->
  represents q' (es ++ [(tail q, d)]).
Proof.
  intros Hlen Hcap Hh Hc (Hr & Hch & Hnil) Hp Hfull.
  destruct (push_full _ _ _ Hp Hfull)
    as (Hfit & Hl' & Ha & Hb & He & Hh' & Hk' & Hn' & Hr'); [lia|].
  pose proof (chain_le _ _ _ _ Hch) as Hle. pose proof (len_nonneg d).
  unfold leftMarginIndex, headerEntrySize in *.
  destruct (tail q' >? head q) eqn:E; [|lia].
  unfold represents, leftMarginIndex. split_and!; try lia.
  - unfold len in *. rewrite length_app. cbn [length]. lia.
  - left. split_and!; [done| |by destruct es].
    rewrite Hh'. replace (tail q') with (tail q + headerEntrySize + len d)
      by (unfold headerEntrySize; lia).
    apply chain_app with (tail q); [|by apply chain_singleton].
    eapply chain_agree; [exact Hch| |lia].
    eapply agree_weaken; [exact Ha|lia|lia].
Qed.

(** Restarting at the left margin of a linear queue. *)
Lemma push_wrap (q q' : BytesQueue) (es : list (Z * list byte))
    (d : list byte) :
  len (array q) = capacity q -> capacity q <= 2 ^ 32 ->
  leftMarginIndex <= head q -> count q = len es -> linear q es ->
  head q - leftMarginIndex - minimumEmptyBlobSize
  >= len d + headerEntrySize ->
  push (set_tail q leftMarginIndex) d (len d) = Some q' ->
  tail q' - leftMarginIndex = headerEntrySize + len d ->
  represents q' (es ++ [(leftMarginIndex, d)]).
Proof.
  intros Hlen Hcap Hh Hc (Hr & Hch & Hnil) Hroom Hp Hfull.
  destruct (push_full _ _ _ Hp Hfull)
    as (Hfit & Hl' & Ha & Hb & He & Hh' & Hk' & Hn' & Hr'); [cbn; lia|].
  pose proof (len_nonneg d).
  cbn [set_tail tail head array capacity count rightMargin] in *.
  unfold leftMarginIndex, minimumEmptyBlobSize, headerEntrySize in *.
  assert (Hes : es <> []) by (intros ->; specialize (Hnil eq_refl); lia).
  destruct (chain_nonempty _ _ _ _ Hch Hes) as (_ & Hlt & Hta).
  destruct (tail q' >? head q) eqn:E; [lia|].
  unfold represents, leftMarginIndex. split_and!; try lia.
  - unfold len in *. rewrite length_app. cbn [length]. lia.
  - right. exists es, [(1, d)]. split_and!; try done.
    + unfold minimumEmptyBlobSize, headerEntrySize. lia.
    + rewrite Hh', Hr', Hr. eapply chain_agree; [exact Hch| |lia].
      eapply agree_weaken; [exact Hb|lia|lia].
    + replace (tail q') with (1 + headerEntrySize + len d)
        by (unfold headerEntrySize; lia).
      by apply chain_singleton.
Qed.

(** Appending behind the tail of a wrapped queue. *)
Lemma push_wrapped_append (q q' : BytesQueue) (es : list (Z * list byte))
    (d : list byte) :
  len (array q) = capacity q -> capacity q <= 2 ^ 32 ->
  leftMarginIndex <= head q -> count q = len es -> wrappedAround q es ->
  head q - tail q - minimumEmptyBlobSize >= len d + headerEntrySize ->
  push q d (len d) = Some q' ->
  tail q' - tail q = headerEntrySize + len d ->
  represents q' (es ++ [(tail q, d)]).
Proof.
  intros Hlen Hcap Hh Hc (es1 & es2 & -> & Hn1 & Hn2 & Hgap & H1 & H2)
    Hroom Hp Hfull.
  destruct (push_full _ _ _ Hp Hfull)
    as (Hfit & Hl' & Ha & Hb & He & Hh' & Hk' & Hn' & Hr'); [lia|].
  pose proof (len_nonneg d).
  unfold leftMarginIndex, minimumEmptyBlobSize, headerEntrySize in *.
  destruct (chain_nonempty _ _ _ _ H1 Hn1) as (_ & Hlt1 & Hra).
  destruct (chain_nonempty _ _ _ _ H2 Hn2) as (_ & Hlt2 & _).
  destruct (tail q' >? head q) eqn:E; [lia|].
  unfold represents, leftMarginIndex. split_and!; try lia.
  - unfold len in *. rewrite !length_app in *. cbn [length]. lia.
  - right. exists es1, (es2 ++ [(tail q, d)]). split_and!.
    + by rewrite app_assoc.
    + done.
    + by destruct es2.
    + unfold minimumEmptyBlobSize, headerEntrySize. lia.
    + rewrite Hh', Hr'. eapply chain_agree; [exact H1| |lia].
      eapply agree_weaken; [exact Hb|lia|lia].
    + replace (tail q') with (tail q + headerEntrySize + len d)
        by (unfold headerEntrySize; lia).
      apply chain_app with (tail q); [|by apply chain_singleton].
      eapply chain_agree; [exact H2| |lia].
      eapply agree_weaken; [exact Ha|unfold leftMarginIndex; lia|lia].
Qed.

(** Growth of a wrapped queue: the entries left of the head, the filler,
    the entries from the head on, in one line. *)
Lemma allocate_wrapped_linear (q q1 : BytesQueue) (m : Z)
    (es : list (Z * list byte)) :
  len (array q) = capacity q -> count q = len es -> wrappedAround q es ->
  allocateAdditionalMemory q m = Some q1 -> capacity q1 <= 2 ^ 32 ->
  len (array q1) = capacity q1 /\ head q1 = leftMarginIndex /\
  count q1
  = len (List.filter (fun e => e.1 <? head q) es ++ [fillerOf q]
           ++ List.filter (fun e => head q <=? e.1) es) /\
  linear q1 (List.filter (fun e => e.1 <? head q) es ++ [fillerOf q]
               ++ List.filter (fun e => head q <=? e.1) es).
Proof.
  intros Hlen Hc (es1 & es2 & -> & Hn1 & Hn2 & Hgap & H1 & H2) Ha Hcap.
  pose proof (chain_le _ _ _ _ H1) as Hle1.
  pose proof (chain_le _ _ _ _ H2) as Hle2.
  destruct (allocate_wrapped _ _ _ Ha)
    as (Hh1 & Ht1 & Hr1 & Hc1 & Hl1 & Hge & Hrc & Hag1 & Hag2 & Hf);
    [done|done|done|done|done|].
  assert (G1 : forall h b, (h, b) ∈ es1 -> head q <= h).
  { intros h b Hin. by destruct (chain_elem _ _ _ _ _ _ H1 Hin) as (_ & ? & _). }
  assert (G2 : forall h b, (h, b) ∈ es2 -> h < head q).
  { intros h b Hin. destruct (chain_elem _ _ _ _ _ _ H2 Hin) as (_ & _ & ?).
    pose proof (len_nonneg b).
    unfold minimumEmptyBlobSize, headerEntrySize in *. lia. }
  assert (F1 : List.filter (fun e : Z * list byte => e.1 <? head q)
                 (es1 ++ es2) = es2).
  { rewrite List.filter_app, filter_none, filter_all; [done| |].
    - intros [h b] Hin. apply Z.ltb_lt. by eapply G2.
    - intros [h b] Hin. apply Z.ltb_ge. by eapply G1. }
  assert (F2 : List.filter (fun e : Z * list byte => head q <=? e.1)
                 (es1 ++ es2) = es1).
  { rewrite List.filter_app, filter_all, filter_none; [by rewrite app_nil_r| |].
    - intros [h b] Hin. apply Z.leb_gt. by eapply G2.
    - intros [h b] Hin. apply Z.leb_le. by eapply G1. }
  rewrite F1, F2.
  unfold leftMarginIndex, minimumEmptyBlobSize, headerEntrySize in *.
  split_and!; [done|done| |].
  - unfold len in *. rewrite !length_app in *. cbn [length]. lia.
  - split_and!; [congruence| |by destruct es2].
    rewrite Hh1, Ht1. apply chain_app with (tail q).
    { eapply chain_agree; [exact H2| |lia].
      eapply agree_weaken; [exact Hag1|unfold leftMarginIndex; lia|lia]. }
    apply chain_app with (head q).
    { unfold fillerOf in *. cbn [snd] in Hf.
      pose proof (chain_singleton _ _ _ Hf) as Hs.
      replace (tail q + headerEntrySize
               + len (replicate (Z.to_nat (head q - tail q - headerEntrySize))
                        x00)) with (head q) in Hs; [done|].
      unfold len, headerEntrySize. rewrite length_replicate. lia. }
    eapply chain_agree; [exact H1|done|lia].
Qed.

(** [Push] keeps the representation, with the entries in the order of
    [orderAfterPush]. *)
Lemma Push_represents (q : BytesQueue) (es : list (Z * list byte))
    (d : list byte) (i : Z) (q' : BytesQueue) :
  represents q es -> Push q d = Some (i, q') -> inFull d i q' = true ->
  represents q' (orderAfterPush q es i d).
Proof.
  intros (Hlen & Hh & Hc & Hgeo) H Hin.
  apply inFull_true in Hin as [Hfull Hcap].
  unfold Push in H. bind_inv H q1 E1. bind_inv H q2 E2.
  injection H as <- <-.
  pose proof (push_fields _ _ _ _ E2) as (_ & Hcap1 & _).
  pose proof (len_nonneg (array q)) as Hcap0. pose proof (len_nonneg d).
  unfold orderAfterPush, growsWrapped, availableSpaceAfterTail,
    availableSpaceBeforeHead in *.
  destruct Hgeo as [Hlin|Hwr].
  - pose proof Hlin as (Hr & Hch & Hnil).
    pose proof (chain_le _ _ _ _ Hch) as Hle.
    destruct (tail q >=? head q) eqn:Eg; [|lia].
    destruct (tail q <? head q) eqn:El; [lia|]. rewrite andb_false_r.
    destruct (capacity q - tail q <? len d + headerEntrySize) eqn:Ea.
    + destruct (head q - leftMarginIndex - minimumEmptyBlobSize
                >=? len d + headerEntrySize) eqn:Eb.
      * injection E1 as <-. cbn [set_tail capacity tail] in *.
        eapply push_wrap; try done; lia.
      * destruct (allocate_linear _ _ _ E1)
          as (Hh1 & Ht1 & Hc1 & Hr1 & Hl1 & Hge & Hag); [lia|done|].
        eapply push_linear_append; try done; try lia.
        split_and!; [congruence| |by rewrite Hh1].
        rewrite Hh1, Ht1. eapply chain_agree; [exact Hch| |lia].
        eapply agree_weaken; [exact Hag|lia|lia].
    + injection E1 as <-. eapply push_linear_append; try done; lia.
  - pose proof Hwr as (es1 & es2 & -> & Hn1 & Hn2 & Hgap & H1 & H2).
    unfold minimumEmptyBlobSize, headerEntrySize in Hgap.
    destruct (tail q >=? head q) eqn:Eg; [lia|].
    destruct (tail q <? head q) eqn:El; [|lia]. rewrite andb_true_r.
    destruct (head q - tail q - minimumEmptyBlobSize
              <? len d + headerEntrySize) eqn:Ea.
    + destruct (head q - tail q - minimumEmptyBlobSize
                >=? len d + headerEntrySize) eqn:Eb; [lia|].
      cbn [negb andb].
      destruct (allocate_wrapped_linear _ _ _ _ Hlen Hc Hwr E1)
        as (Hl1 & Hh1 & Hc1 & Hlin1); [lia|].
      match type of Hlin1 with
      | linear _ ?L =>
          replace (represents q2) with (represents q2) by done;
          assert (Hp : represents q2 (L ++ [(tail q1, d)]))
      end.
      { eapply push_linear_append; try done; lia. }
      by rewrite <- !app_assoc in Hp.
    + injection E1 as <-. cbn [negb andb].
      eapply push_wrapped_append; try done; lia.
Qed.

End Refinement.

(** ** Pop, Clear and whole runs against the list of entries *)

Section PopOrder.

Import queue QueueSpec.

Lemma NewBytesQueue_represents (n : Z) (q : BytesQueue) :
  NewBytesQueue n = Some q -> represents q [].
Proof.
  unfold NewBytesQueue. intros H. bind_inv H a E. injection H as <-.
  apply make_Some in E as (_ & _ & Hl).
  unfold represents, linear. cbn. split_and!; try done.
  left. by split_and!.
Qed.

Lemma Clear_represents (q : BytesQueue) (es : list (Z * list byte)) :
  represents q es -> represents (Clear q) [].
Proof.
  intros (Hlen & _). unfold represents, linear, Clear. cbn.
  split_and!; try done. left. by split_and!.
Qed.

Lemma Pop_empty (q : BytesQueue) :
  represents q [] -> Pop q = Some (Error errEmptyQueue, q).
Proof.
  intros (_ & _ & Hc & _). unfold Pop. cbn in Hc. by rewrite Hc.
Qed.

(** [Pop] returns the oldest entry and leaves the others, array and capacity
    untouched. *)
Lemma Pop_represents (q : BytesQueue) (h : Z) (b : list byte)
    (es : list (Z * list byte)) :
  represents q ((h, b) :: es) ->
  exists q', Pop q = Some (Val b, q') /\ represents q' es /\
             h = head q /\ array q' = array q /\ capacity q' = capacity q.
Proof.
  intros (Hlen & Hh & Hc & Hgeo). unfold Pop.
  assert (Hc0 : count q = 1 + len es).
  { rewrite Hc. unfold len. cbn [length]. lia. }
  pose proof (len_nonneg es) as Hes.
  destruct (count q =? 0) eqn:E0; [lia|].
  assert (He : h = head q /\ entry_at (array q) (head q) b).
  { destruct Hgeo as [(_ & Hch & _)|(es1 & es2 & Heq & Hn1 & _ & _ & H1 & _)].
    - cbn [chain] in Hch. by destruct Hch as (-> & ? & _).
    - destruct es1 as [|[h1 b1] es1]; [done|]. injection Heq as <- <- _.
      cbn [chain] in H1. by destruct H1 as (-> & ? & _). }
  destruct He as [-> He]. rewrite (peek_entry _ _ _ He).
  cbn [mbind option_bind]. eexists. split; [reflexivity|].
  cbn [set_count set_head head tail rightMargin count array capacity].
  pose proof (len_nonneg b) as Hb.
  unfold represents, linear, wrappedAround, leftMarginIndex,
    minimumEmptyBlobSize, headerEntrySize in *.
  destruct Hgeo as [(Hr & Hch & _)|(es1 & es2 & Heq & Hn1 & Hn2 & Hgap & H1 & H2)].
  - cbn [chain] in Hch. destruct Hch as (_ & _ & Hch).
    unfold headerEntrySize in Hch.
    replace (head q + (4 + len b)) with (head q + 4 + len b) by lia.
    destruct es as [|e es].
    + cbn [chain] in Hch.
      destruct (head q + 4 + len b =? rightMargin q) eqn:E1; [|lia].
      cbn [set_head tail rightMargin].
      destruct (tail q =? rightMargin q) eqn:E2; [|lia].
      cbn [set_tail set_rightMargin set_head set_count head tail rightMargin
             count array capacity].
      split_and!; try done; try lia. left. by split_and!.
    + destruct (chain_nonempty _ _ _ _ Hch) as (_ & Hlt & _); [done|].
      destruct (head q + 4 + len b =? rightMargin q) eqn:E1; [lia|].
      cbn [set_tail set_rightMargin set_head set_count head tail rightMargin
             count array capacity].
      split_and!; try done; try lia. left. by split_and!.
  - destruct es1 as [|[h1 b1] es1]; [done|].
    injection Heq as Eh1 Eb1 Ees. subst h1 b1 es.
    cbn [chain] in H1. destruct H1 as (_ & _ & H1).
    unfold headerEntrySize in H1.
    replace (head q + (4 + len b)) with (head q + 4 + len b) by lia.
    destruct (chain_nonempty _ _ _ _ H2 Hn2) as (_ & Hlt2 & _).
    destruct es1 as [|e es1].
    + cbn [chain] in H1. cbn [app] in *.
      destruct (head q + 4 + len b =? rightMargin q) eqn:E1; [|lia].
      cbn [set_head tail rightMargin].
      destruct (tail q =? rightMargin q) eqn:E2; [lia|].
      cbn [set_tail set_rightMargin set_head set_count head tail rightMargin
             count array capacity].
      split_and!; try done; try lia.
      left. split_and!; [done|done|]. intros ->. done.
    + destruct (chain_nonempty _ _ _ _ H1) as (_ & Hlt & _); [done|].
      destruct (head q + 4 + len b =? rightMargin q) eqn:E1; [lia|].
      cbn [set_tail set_rightMargin set_head set_count head tail rightMargin
             count array capacity].
      split_and!; try done; try lia.
      right. exists (e :: es1), es2. split_and!; try done. lia.
Qed.

(** Repeated [Pop] returns the blobs of the entries, oldest first. *)
Lemma drain_represents (q : BytesQueue) (es : list (Z * list byte)) :
  represents q es -> drain (S (length es)) q = Some (es.*2).
Proof.
  revert q. induction es as [|[h b] es IH]; intros q Hq.
  - cbn [drain length]. by rewrite (Pop_empty _ Hq).
  - destruct (Pop_represents _ _ _ _ Hq) as (q' & Hp & Hq' & _).
    change (drain (S (length ((h, b) :: es))) q)
      with ('(r, q') ← Pop q;
            match r with
            | Error _ => Some []
            | Val data => rest ← drain (S (length es)) q'; Some (data :: rest)
            end).
    rewrite Hp. cbn [mbind option_bind]. by rewrite (IH _ Hq').
Qed.

Lemma runInFull_represents (calls : list call) (q : BytesQueue)
    (es : list (Z * list byte)) (q' : BytesQueue)
    (es' : list (Z * list byte)) :
  represents q es -> runInFull q es calls = Some (q', es') ->
  represents q' es'.
Proof.
  revert q es. induction calls as [|[d| |] calls IH]; intros q es Hq H;
    cbn [runInFull] in H.
  - by injection H as <- <-.
  - bind_inv H r E. destruct r as [i q1].
    destruct (inFull d i q1) eqn:Ef; [|done].
    eapply IH; [|exact H]. by eapply Push_represents.
  - bind_inv H r E. destruct r as [r q1].
    eapply IH; [|exact H].
    destruct es as [|[h b] es].
    + rewrite (Pop_empty _ Hq) in E. by injection E as <- <-.
    + destruct (Pop_represents _ _ _ _ Hq) as (q2 & Hp & Hq2 & _).
      rewrite Hp in E. by injection E as <- <-.
  - eapply IH; [|exact H]. by eapply Clear_represents.
Qed.

End PopOrder.

(** ** Runs of the queue in which every push is stored in full *)

Section FullRuns.

Import queue QueueSpec.

Lemma fullRun_represents (n : Z) (q0 : BytesQueue) (calls : list call)
    (q : BytesQueue) (es : list (Z * list byte)) :
  NewBytesQueue n = Some q0 -> runInFull q0 [] calls = Some (q, es) ->
  represents q es.
Proof.
  intros H0 H. eapply runInFull_represents; [|exact H].
  by eapply NewBytesQueue_represents.
Qed.

Lemma orderAfterPush_elem (q : BytesQueue) (es : list (Z * list byte))
    (i : Z) (d : list byte) (e : Z * list byte) :
  e ∈ es -> e ∈ orderAfterPush q es i d.
Proof.
  intros He. unfold orderAfterPush. destruct (growsWrapped q d).
  - destruct (e.1 <? head q) eqn:E.
    + apply elem_of_app. left. apply list_elem_of_In, List.filter_In.
      split; [by apply list_elem_of_In|done].
    + apply elem_of_app. right. apply elem_of_app. right.
      apply elem_of_app. left. apply list_elem_of_In, List.filter_In.
      split; [by apply list_elem_of_In|]. apply Z.leb_le.
      apply Z.ltb_ge in E. done.
  - apply elem_of_app. by left.
Qed.

Lemma orderAfterPush_last (q : BytesQueue) (es : list (Z * list byte))
    (i : Z) (d : list byte) :
  (i, d) ∈ orderAfterPush q es i d.
Proof.
  unfold orderAfterPush. destruct (growsWrapped q d);
    rewrite ?app_assoc; apply elem_of_app; right; apply list_elem_of_here.
Qed.

Lemma represents_gap (q : BytesQueue) (es : list (Z * list byte)) :
  represents q es -> tail q < head q ->
  minimumEmptyBlobSize <= head q - tail q /\ head q < rightMargin q /\
  rightMargin q <= capacity q /\ leftMarginIndex < tail q.
Proof.
  intros (Hlen & Hh & Hc & [(Hr & Hch & _)|(es1 & es2 & _ & Hn1 & Hn2 & Hgap & H1 & H2)])
    Hw.
  - apply chain_le in Hch. lia.
  - destruct (chain_nonempty _ _ _ _ H1 Hn1) as (_ & ? & ?).
    destruct (chain_nonempty _ _ _ _ H2 Hn2) as (_ & ? & _). lia.
Qed.

Lemma represents_linear_head (q : BytesQueue) (es : list (Z * list byte)) :
  represents q es -> head q = leftMarginIndex ->
  head q <= tail q /\ linear q es.
Proof.
  intros (Hlen & Hh & Hc & [Hl|(es1 & es2 & _ & _ & _ & Hgap & _ & H2)]) H1.
  - split; [|done]. destruct Hl as (_ & Hch & _). by apply chain_le in Hch.
  - apply chain_le in H2. unfold minimumEmptyBlobSize, headerEntrySize in *.
    lia.
Qed.

Lemma Push_head_linear (q : BytesQueue) (d : list byte) (i : Z)
    (q' : BytesQueue) :
  len (array q) = capacity q -> head q <= tail q ->
  Push q d = Some (i, q') -> head q' = head q.
Proof.
  intros Hlen Hle H. unfold Push in H. bind_inv H q1 E1. bind_inv H q2 E2.
  injection H as <- <-. apply push_fields in E2 as (-> & _).
  destruct (_ <? _); [|by injection E1 as <-].
  destruct (_ >=? _); [by injection E1 as <-|].
  by destruct (allocate_linear _ _ _ E1) as (-> & _).
Qed.

Lemma pushes_in_order (ds : list (list byte)) (q : BytesQueue)
    (es : list (Z * list byte)) (q' : BytesQueue)
    (es' : list (Z * list byte)) :
  represents q es -> head q = leftMarginIndex ->
  runInFull q es (CallPush <$> ds) = Some (q', es') ->
  es'.*2 = es.*2 ++ ds.
Proof.
  revert q es. induction ds as [|d ds IH]; intros q es Hq Hh H;
    cbn [fmap list_fmap runInFull] in H.
  - injection H as <- <-. by rewrite app_nil_r.
  - bind_inv H r E. destruct r as [i q1].
    destruct (inFull d i q1) eqn:Ef; [|done].
    destruct (represents_linear_head _ _ Hq Hh) as [Hle _].
    pose proof Hq as (Hlen & _).
    assert (Hg : growsWrapped q d = false).
    { unfold growsWrapped. destruct (tail q <? head q) eqn:El; [lia|].
      apply andb_false_r. }
    pose proof (Push_represents _ _ _ _ _ Hq E Ef) as Hq1.
    unfold orderAfterPush in *. rewrite Hg in *.
    assert (Hh1 : head q1 = leftMarginIndex)
      by (by rewrite (Push_head_linear _ _ _ _ Hlen Hle E)).
    rewrite (IH _ _ Hq1 Hh1 H).
    rewrite fmap_app. cbn. by rewrite <- app_assoc.
Qed.

End FullRuns.

(** X1.  After any run of [Push], [Pop] and [Clear] calls from a new queue in
    which every [Push] stored its entry in full, the queue holds exactly the
    tracked entries: [Len] is their number and repeated [Pop] returns their
    blobs, oldest first, in the order that [orderAfterPush] describes. *)
Theorem pop_order_of_full_runs (n : Z) (q0 : queue.BytesQueue)
    (calls : list QueueSpec.call) (q : queue.BytesQueue)
    (es : list (Z * list byte)) :
  queue.NewBytesQueue n = Some q0 ->
  QueueSpec.runInFull q0 [] calls = Some (q, es) ->
  queue.Len q = len es /\
  QueueSpec.drain (S (length es)) q = Some (es.*2).
Proof.
  intros H0 H. pose proof (fullRun_represents _ _ _ _ _ H0 H) as Hq.
  split; [|by apply drain_represents]. by destruct Hq as (_ & _ & ? & _).
Qed.

(** X2.  In such a run every index returned by an earlier [Push] whose entry
    has not been popped stays readable: [Get] returns the bytes that were
    pushed, also after later pushes that wrapped or grew the array, and the
    index of a new [Push] reads back the new bytes. *)
Theorem handles_stable_in_full_runs (n : Z) (q0 : queue.BytesQueue)
    (calls : list QueueSpec.call) (q : queue.BytesQueue)
    (es : list (Z * list byte)) (d : list byte) (i : Z)
    (q' : queue.BytesQueue) :
  queue.NewBytesQueue n = Some q0 ->
  QueueSpec.runInFull q0 [] calls = Some (q, es) ->
  queue.Push q d = Some (i, q') ->
  QueueSpec.inFull d i q' = true ->
  queue.Get q' i = Some (Val d) /\
  forall (h : Z) (b : list byte),
    (h, b) ∈ es ->
    queue.Get q h = Some (Val b) /\ queue.Get q' h = Some (Val b).
Proof.
  intros H0 H Hp Hf. pose proof (fullRun_represents _ _ _ _ _ H0 H) as Hq.
  pose proof (Push_represents _ _ _ _ _ Hq Hp Hf) as Hq'.
  split.
  - destruct (represents_elem _ _ i d Hq') as [Hi He];
      [apply orderAfterPush_last|]. by apply Get_entry.
  - intros h b Hin. split.
    + destruct (represents_elem _ _ h b Hq Hin) as [Hi He].
      by apply Get_entry.
    + destruct (represents_elem _ _ h b Hq') as [Hi He];
        [by apply orderAfterPush_elem|]. by apply Get_entry.
Qed.

(** X3.  In such a run a wrapped queue (tail left of head) always keeps a gap
    of at least [minimumEmptyBlobSize] = 36 bytes between tail and head, and
    the head lies left of the right margin, inside the array. *)
Theorem wrapped_gap_in_full_runs (n : Z) (q0 : queue.BytesQueue)
    (calls : list QueueSpec.call) (q : queue.BytesQueue)
    (es : list (Z * list byte)) :
  queue.NewBytesQueue n = Some q0 ->
  QueueSpec.runInFull q0 [] calls = Some (q, es) ->
  QueueSpec.wrapped q ->
  queue.minimumEmptyBlobSize <= queue.head q - queue.tail q /\
  queue.head q < queue.rightMargin q /\
  queue.rightMargin q <= queue.capacity q.
Proof.
  intros H0 H Hw. pose proof (fullRun_represents _ _ _ _ _ H0 H) as Hq.
  destruct (represents_gap _ _ Hq Hw) as (? & ? & ? & _). done.
Qed.

(** X4.  Pushes alone never wrap: when a new queue receives only [Push]
    calls, each stored in full, repeated [Pop] returns exactly the pushed
    blobs in push order, without any filler. *)
Theorem pushes_pop_in_push_order (n : Z) (q0 : queue.BytesQueue)
    (ds : list (list byte)) (q : queue.BytesQueue)
    (es : list (Z * list byte)) :
  queue.NewBytesQueue n = Some q0 ->
  QueueSpec.runInFull q0 [] (QueueSpec.CallPush <$> ds) = Some (q, es) ->
  QueueSpec.drain (S (length ds)) q = Some ds.
Proof.
  intros H0 H. pose proof (fullRun_represents _ _ _ _ _ H0 H) as Hq.
  pose proof (NewBytesQueue_represents _ _ H0) as Hq0.
  assert (Hh : queue.head q0 = queue.leftMarginIndex).
  { unfold queue.NewBytesQueue in H0. bind_inv H0 a E.
    by injection H0 as <-. }
  pose proof (pushes_in_order _ _ _ _ _ Hq0 Hh H) as Heq. cbn in Heq.
  rewrite <- Heq, length_fmap. by apply drain_represents.
Qed.

(** ** Facts about every reachable queue, cut entries included *)

Section AllRuns.

Import queue QueueSpec.

Lemma push_len (q : BytesQueue) (d : list byte) (l : Z) (q' : BytesQueue) :
  push q d l = Some q' -> len (array q') = len (array q).
Proof.
  unfold push. intros H. bind_inv H q1 E1. bind_inv H q2 E2.
  injection H as <-.
  unfold copy in E1, E2.
  bind_inv E1 s1 Es1. bind_inv E1 an1 Ec1. destruct an1 as [a1 n1].
  injection E1 as <-.
  bind_inv E2 s2 Es2. bind_inv E2 an2 Ec2. destruct an2 as [a2 n2].
  injection E2 as <-. cbn [set_tail set_array array tail] in *.
  apply copy_at_spec in Ec1 as (_ & _ & H1 & _).
  apply copy_at_spec in Ec2 as (_ & _ & H2 & _).
  destruct (_ >? _); cbn; lia.
Qed.

Lemma allocate_capacity (q : BytesQueue) (m : Z) (q' : BytesQueue) :
  len (array q) = capacity q -> allocateAdditionalMemory q m = Some q' ->
  len (array q') = capacity q' /\ capacity q <= capacity q' /\
  capacity q'
  = (if capacity q <? m then capacity q + m else capacity q) * 2.
Proof.
  intros Hlen H.
  destruct (allocate_copy _ _ _ H Hlen) as (a & Hla & Hge & _ & _ & Hq).
  cbn zeta in Hq.
  destruct (negb (leftMarginIndex =? rightMargin q) && (tail q <? head q)).
  - destruct Hq as (blob & q3 & _ & E3 & ->).
    pose proof (push_len _ _ _ _ E3) as Hl3.
    apply push_fields in E3 as (_ & Hc3 & _). cbn in *.
    rewrite Hl3, Hc3. lia.
  - subst q'. cbn. lia.
Qed.

Lemma Push_capacity (q : BytesQueue) (d : list byte) (i : Z)
    (q' : BytesQueue) :
  len (array q) = capacity q -> Push q d = Some (i, q') ->
  len (array q') = capacity q' /\ capacity q <= capacity q'.
Proof.
  intros Hlen H. unfold Push in H. bind_inv H q1 E1. bind_inv H q2 E2.
  injection H as <- <-.
  pose proof (push_len _ _ _ _ E2) as Hl2.
  apply push_fields in E2 as (_ & Hc2 & _). rewrite Hl2, Hc2.
  destruct (_ <? _); [|by injection E1 as <-].
  destruct (_ >=? _); [by injection E1 as <-|].
  destruct (allocate_capacity _ _ _ Hlen E1) as (? & ? & _). done.
Qed.

Lemma Pop_capacity (q : BytesQueue) (r : res queueError (list byte))
    (q' : BytesQueue) :
  Pop q = Some (r, q') -> array q' = array q /\ capacity q' = capacity q.
Proof.
  unfold Pop. intros H. destruct (count q =? 0); [by injection H as <- <-|].
  bind_inv H ds E. destruct ds as [d sz]. injection H as <- <-.
  repeat case_match; done.
Qed.

Lemma reachable_capacity (q : BytesQueue) :
  reachable q -> len (array q) = capacity q.
Proof.
  induction 1 as [n q H|q d i q' _ IH H|q r q' _ IH H|q _ IH].
  - unfold NewBytesQueue in H. bind_inv H a E. injection H as <-.
    by apply make_Some in E as (_ & _ & ?).
  - by destruct (Push_capacity _ _ _ _ IH H).
  - destruct (Pop_capacity _ _ _ H) as [-> ->]. done.
  - done.
Qed.

Lemma Push_count (q : BytesQueue) (d : list byte) (i : Z) (q' : BytesQueue) :
  Push q d = Some (i, q') ->
  count q' = count q + 1 \/ count q' = count q + 2.
Proof.
  intros H. unfold Push in H. bind_inv H q1 E1. bind_inv H q2 E2.
  injection H as <- <-. apply push_fields in E2 as (_ & _ & _ & -> & _).
  destruct (_ <? _); [|injection E1 as <-; by left].
  destruct (_ >=? _); [injection E1 as <-; by left|].
  unfold allocateAdditionalMemory in E1.
  bind_inv E1 a Ea. cbn [rightMargin array tail head] in E1.
  destruct (negb _); [|injection E1 as <-; by left].
  bind_inv E1 src Es. bind_inv E1 an Ec. destruct an as [a' n'].
  cbn [set_array rightMargin array tail head] in E1.
  destruct (tail q <? head q); [|injection E1 as <-; by left].
  bind_inv E1 blob Eb. bind_inv E1 q3 E3. injection E1 as <-.
  apply push_fields in E3 as (_ & _ & _ & Hc & _). cbn in *. right. lia.
Qed.

End AllRuns.

(** X5.  In every reachable queue state the array has exactly [capacity]
    bytes, and no operation shrinks it: [Push] leaves the capacity or raises
    it, [Pop] and [Clear] leave array and capacity as they are. *)
Theorem capacity_never_shrinks (q : queue.BytesQueue) :
  QueueSpec.reachable q ->
  len (queue.array q) = queue.Capacity q /\
  (forall (d : list byte) (i : Z) (q' : queue.BytesQueue),
     queue.Push q d = Some (i, q') ->
     queue.Capacity q <= queue.Capacity q') /\
  (forall (r : res queue.queueError (list byte)) (q' : queue.BytesQueue),
     queue.Pop q = Some (r, q') ->
     queue.array q' = queue.array q /\ queue.Capacity q' = queue.Capacity q) /\
  queue.array (queue.Clear q) = queue.array q /\
  queue.Capacity (queue.Clear q) = queue.Capacity q.
Proof.
  intros Hr. pose proof (reachable_capacity _ Hr) as Hlen.
  unfold queue.Capacity. split_and!; try done.
  - intros d i q' H. by destruct (Push_capacity _ _ _ _ Hlen H).
  - intros r q' H. by apply Pop_capacity in H.
Qed.

(** X6.  [Peek] and [Pop] agree: on a queue with count 0 both return the
    empty-queue error and [Pop] leaves the queue as it is; when [Peek]
    returns a blob, [Pop] returns the same blob and lowers [Len] by one. *)
Theorem Peek_agrees_with_Pop (q : queue.BytesQueue) :
  (queue.Len q = 0 ->
   queue.Peek q = Some (Error queue.errEmptyQueue) /\
   queue.Pop q = Some (Error queue.errEmptyQueue, q)) /\
  (forall e : queue.queueError,
     queue.Peek q = Some (Error e) -> queue.Len q = 0) /\
  (forall b : list byte,
     queue.Peek q = Some (Val b) ->
     exists q' : queue.BytesQueue,
       queue.Pop q = Some (Val b, q') /\ queue.Len q' = queue.Len q - 1).
Proof.
  split_and!.
  - unfold queue.Len, queue.Peek, queue.Pop. intros ->. done.
  - intros e. apply Peek_Error.
  - intros b H. destruct (Peek_Pop _ _ H) as (q' & ? & ? & _). eauto.
Qed.

Lemma filter_split_length {A} (f g : A -> bool) (l : list A) :
  (forall x, g x = negb (f x)) ->
  (length (List.filter f l) + length (List.filter g l))%nat = length l.
Proof.
  intros Hfg. induction l as [|x l IH]; cbn [List.filter length]; [done|].
  rewrite Hfg. destruct (f x); cbn [negb length]; lia.
Qed.

(** X7.  [Len] counts fillers too: in a run from a new queue in which every
    [Push] stored its entry in full, a [Push] raises [Len] by one, and by two
    exactly when it grows the array of a wrapped queue. *)
Theorem Push_raises_Len (n : Z) (q0 : queue.BytesQueue)
    (calls : list QueueSpec.call) (q : queue.BytesQueue)
    (es : list (Z * list byte)) (d : list byte) (i : Z)
    (q' : queue.BytesQueue) :
  queue.NewBytesQueue n = Some q0 ->
  QueueSpec.runInFull q0 [] calls = Some (q, es) ->
  queue.Push q d = Some (i, q') ->
  QueueSpec.inFull d i q' = true ->
  queue.Len q' = queue.Len q + (if QueueSpec.growsWrapped q d then 2 else 1).
Proof.
  intros H0 H Hp Hf. pose proof (fullRun_represents _ _ _ _ _ H0 H) as Hq.
  pose proof (Push_represents _ _ _ _ _ Hq Hp Hf) as Hq'.
  destruct Hq as (_ & _ & Hc & _). destruct Hq' as (_ & _ & Hc' & _).
  unfold queue.Len. rewrite Hc, Hc'. unfold QueueSpec.orderAfterPush, len.
  destruct (QueueSpec.growsWrapped q d).
  - rewrite !length_app. cbn [length].
    pose proof (filter_split_length
                  (fun e : Z * list byte => e.1 <? queue.head q)
                  (fun e : Z * list byte => queue.head q <=? e.1) es) as Hs.
    rewrite <- Hs; [lia|]. intros x. cbn beta.
    destruct (x.1 <? queue.head q) eqn:E1;
      destruct (queue.head q <=? x.1) eqn:E2; cbn [negb]; lia.
  - rewrite length_app. cbn [length]. lia.
Qed.

(** ** Shards of reachable caches *)

Section Shards.

Import queue bigcache CacheSpec.

Lemma resetPrevious_ok (s s1 : cacheShard) (h : Z) :
  shard_ok s -> resetPrevious s h = Some s1 -> shard_ok s1.
Proof.
  unfold resetPrevious, shard_ok, QueueSpec.margins_ok. intros Hs H.
  destruct (negb _); [|by injection H as <-].
  bind_inv H r Er. destruct r as [prev|e]; [|by injection H as <-].
  bind_inv H q Eq0. injection H as <-. cbn [hashmap entries].
  unfold resetInPlace in Eq0. bind_inv Eq0 an Ec. destruct an as [a n].
  injection Eq0 as <-. cbn.
  apply copy_at_spec in Ec as (_ & _ & Hl & _). by rewrite Hl.
Qed.

Lemma evictOldest_ok (c : BigCache) (ts : Z) (s s' : cacheShard) :
  shard_ok s -> evictOldest c ts s = Some s' -> shard_ok s'.
Proof.
  unfold evictOldest, shard_ok. intros [Hl Hm] H.
  bind_inv H p Ep. destruct p as [oldest|e]; [|by injection H as <-].
  unfold onEvict in H. destruct (_ >? _); [|by injection H as <-].
  unfold evict in H. bind_inv H rq Er. destruct rq as [r q].
  injection H as <-. cbn [entries].
  destruct (Pop_capacity _ _ _ Er) as [-> ->].
  split; [done|]. by eapply Pop_margins.
Qed.

Lemma pushEntry_ok (ts h : Z) (key : string) (entry : list byte)
    (s s' : cacheShard) :
  shard_ok s -> pushEntry ts h key entry s = Some s' -> shard_ok s'.
Proof.
  unfold pushEntry, shard_ok. intros [Hl Hm] H.
  bind_inv H iq E. destruct iq as [i q]. injection H as <-. cbn [entries].
  split.
  - by destruct (Push_capacity _ _ _ _ Hl E).
  - by destruct (Push_margins _ _ _ _ Hm E).
Qed.

Lemma setShard_ok (c : BigCache) (now h : Z) (key : string)
    (entry : list byte) (s s' : cacheShard) :
  shard_ok s -> setShard c now h key entry s = Some s' -> shard_ok s'.
Proof.
  unfold setShard. intros Hs H. bind_inv H s1 E1. bind_inv H s2 E2.
  eapply pushEntry_ok; [|exact H].
  eapply evictOldest_ok; [|exact E2]. by eapply resetPrevious_ok.
Qed.

Lemma reachable_shard_ok (c : BigCache) :
  reachable c -> Forall shard_ok (shards c).
Proof.
  induction 1 as [cfg c Hv H|c now key entry c' _ IH H|c _ IH].
  - apply newBigCache_Val in H as (_ & _ & _ & _ & Hf); [|done].
    eapply Forall_impl; [exact Hf|]. intros s (_ & n & Hn).
    unfold queue.NewBytesQueue in Hn. bind_inv Hn a Ea.
    apply make_Some in Ea as (_ & _ & Hl).
    injection Hn as Hq. unfold shard_ok. rewrite <- Hq. by split.
  - unfold Set_ in H. bind_inv H s Es. bind_inv H s' Es'.
    injection H as <-. cbn [shards]. apply Forall_insert; [done|].
    eapply setShard_ok; [|exact Es'].
    eapply Forall_lookup_1; [exact IH|exact Es].
  - unfold Clear. cbn [shards]. apply Forall_fmap.
    eapply Forall_impl; [exact IH|]. intros s [Hl Hm]. by split.
Qed.

Lemma Set_fields (c : BigCache) (now : Z) (key : string) (entry : list byte)
    (c' : BigCache) :
  Set_ c now key entry = Some c' ->
  exists s s' : cacheShard,
    getShard c (Sum64 c key) = Some s /\
    setShard c now (Sum64 c key) key entry s = Some s' /\
    c' = mkCache (<[shardIndex c (Sum64 c key) := s']> (shards c))
           (lifeWindow c) (hash c) (config c) (shardMask c) (shardSize c).
Proof.
  unfold Set_. intros H. bind_inv H s Es. bind_inv H s' Es'.
  injection H as <-. by exists s, s'.
Qed.

End Shards.

(** X8.  On every cache reachable from the constructor by [Set] and [Clear],
    the shard index [hash & shardMask] of any key is within the shard table:
    shard selection never panics. *)
Theorem shard_selection_in_range (c : bigcache.BigCache) :
  CacheSpec.reachable c ->
  forall key : string,
    exists shard : bigcache.cacheShard,
      bigcache.getShard c (bigcache.Sum64 c key) = Some shard.
Proof.
  intros Hr key. apply reachable_shards_ok in Hr.
  by destruct (shards_ok_getShard c (bigcache.Sum64 c key) Hr) as [s Hs];
    exists s.
Qed.

(** X9.  [Set] changes one shard only, the one selected by the key's hash:
    the other shards, the number of shards, hasher, life window and shard
    mask are unchanged, and [Get] of a key that selects another shard
    returns what it returned before. *)
Theorem Set_touches_one_shard (c : bigcache.BigCache) (now : Z)
    (key : string) (entry : list byte) (c' : bigcache.BigCache) :
  bigcache.Set_ c now key entry = Some c' ->
  length (bigcache.shards c') = length (bigcache.shards c) /\
  bigcache.hash c' = bigcache.hash c /\
  bigcache.lifeWindow c' = bigcache.lifeWindow c /\
  bigcache.shardMask c' = bigcache.shardMask c /\
  (forall j : nat,
     j <> bigcache.shardIndex c (bigcache.Sum64 c key) ->
     bigcache.shards c' !! j = bigcache.shards c !! j) /\
  (forall other : string,
     bigcache.shardIndex c (bigcache.Sum64 c other)
     <> bigcache.shardIndex c (bigcache.Sum64 c key) ->
     bigcache.Get c' other = bigcache.Get c other).
Proof.
  intros H. apply Set_fields in H as (s & s' & Hs & Hs' & ->). cbn.
  split_and!; try done.
  - by rewrite length_insert.
  - intros j Hj. by rewrite list_lookup_insert_ne.
  - intros other Ho. unfold bigcache.Get, bigcache.getShard, bigcache.Sum64,
      bigcache.shardIndex in *. cbn.
    by rewrite list_lookup_insert_ne.
Qed.

(** ** Framing of entries *)

Section Framing.

Import bigcache.

Lemma drop_16_wrapEntry (ts h : Z) (key : string) (v : list byte) :
  drop 16 (wrapEntry ts h key v)
  = le_encode 2 (uint16 (len (String.list_byte_of_string key)))
      ++ String.list_byte_of_string key ++ v.
Proof.
  unfold wrapEntry. rewrite app_assoc.
  apply drop_app_length'. by rewrite length_app, !length_le_encode.
Qed.

Lemma drop_18_wrapEntry (ts h : Z) (key : string) (v : list byte) :
  drop 18 (wrapEntry ts h key v) = String.list_byte_of_string key ++ v.
Proof.
  change 18%nat with (16 + 2)%nat. rewrite <- drop_drop, drop_16_wrapEntry.
  apply drop_app_length'. by rewrite length_le_encode.
Qed.

Lemma readKeyLength_wrapEntry (ts h : Z) (key : string) (v : list byte) :
  len (String.list_byte_of_string key) < 2 ^ 16 ->
  readKeyLength (wrapEntry ts h key v)
  = length (String.list_byte_of_string key).
Proof.
  intros Hk. unfold readKeyLength. rewrite drop_16_wrapEntry.
  rewrite take_app_length' by (by rewrite length_le_encode).
  rewrite le_decode_encode. change (256 ^ Z.of_nat 2) with (2 ^ 16).
  unfold uint16. rewrite Z.mod_mod by lia.
  pose proof (len_nonneg (String.list_byte_of_string key)).
  rewrite Z.mod_small by lia. unfold len. lia.
Qed.

Lemma readKeyFromEntry_wrapEntry (ts h : Z) (key : string) (v : list byte) :
  len (String.list_byte_of_string key) < 2 ^ 16 ->
  readKeyFromEntry (wrapEntry ts h key v) = key.
Proof.
  intros Hk. unfold readKeyFromEntry.
  rewrite readKeyLength_wrapEntry, drop_18_wrapEntry by done.
  rewrite take_app_length. apply String.string_of_list_byte_of_string.
Qed.

Lemma readEntry_wrapEntry (ts h : Z) (key : string) (v : list byte) :
  len (String.list_byte_of_string key) < 2 ^ 16 ->
  readEntry (wrapEntry ts h key v) = v.
Proof.
  intros Hk. unfold readEntry. rewrite readKeyLength_wrapEntry by done.
  rewrite <- drop_drop, drop_18_wrapEntry. apply drop_app_length.
Qed.

Lemma readHashFromEntry_wrapEntry (ts h : Z) (key : string) (v : list byte) :
  readHashFromEntry (wrapEntry ts h key v) = uint64 h.
Proof.
  unfold readHashFromEntry, wrapEntry.
  rewrite drop_app_length' by (by rewrite length_le_encode).
  rewrite take_app_length' by (by rewrite length_le_encode).
  rewrite le_decode_encode. change (256 ^ Z.of_nat 8) with (2 ^ 64).
  unfold uint64. by rewrite Z.mod_mod by lia.
Qed.

Lemma readTimestampFromEntry_wrapEntry (ts h : Z) (key : string)
    (v : list byte) :
  readTimestampFromEntry (wrapEntry ts h key v) = uint64 ts.
Proof.
  unfold readTimestampFromEntry, wrapEntry.
  rewrite take_app_length' by (by rewrite length_le_encode).
  rewrite le_decode_encode. change (256 ^ Z.of_nat 8) with (2 ^ 64).
  unfold uint64. by rewrite Z.mod_mod by lia.
Qed.

End Framing.

(** ** Set followed by Get *)

Section SetGet.

Import queue bigcache CacheSpec.

Lemma Push_inFull_entry (q : BytesQueue) (d : list byte) (i : Z)
    (q' : BytesQueue) :
  len (array q) = capacity q -> Push q d = Some (i, q') ->
  QueueSpec.inFull d i q' = true -> QueueSpec.entry_at (array q') i d.
Proof.
  intros Hlen H Hf. apply inFull_true in Hf as [Hfull Hcap].
  unfold Push in H. bind_inv H q1 E1. bind_inv H q2 E2.
  injection H as <- <-.
  assert (Hl1 : len (array q1) = capacity q1).
  { destruct (_ <? _); [|by injection E1 as <-].
    destruct (_ >=? _); [by injection E1 as <-|].
    by destruct (allocate_capacity _ _ _ Hlen E1). }
  pose proof (push_fields _ _ _ _ E2) as (_ & Hc & _).
  by destruct (push_full _ _ _ E2 Hfull) as (_ & _ & _ & _ & He & _); [lia|].
Qed.

Lemma pushEntry_stored (ts h : Z) (key : string) (entry : list byte)
    (s s' : cacheShard) (i : Z) (q : BytesQueue) :
  shard_ok s ->
  Push (entries s) (wrapEntry ts h key entry) = Some (i, q) ->
  QueueSpec.inFull (wrapEntry ts h key entry) i q = true ->
  pushEntry ts h key entry s = Some s' ->
  hashmap s' !! h = Some i /\ i <> 0 /\
  queue.Get (entries s') i = Some (Val (wrapEntry ts h key entry)).
Proof.
  intros [Hl Hm] Hp Hf H. unfold pushEntry in H. rewrite Hp in H.
  cbn [mbind option_bind] in H. injection H as <-. cbn [hashmap entries].
  pose proof (Push_inFull_entry _ _ _ _ Hl Hp Hf) as He.
  destruct (Push_margins _ _ _ _ Hm Hp) as [Hi _].
  destruct (Push_capacity _ _ _ _ Hl Hp) as [Hl' _].
  apply inFull_true in Hf as [_ Hcap].
  pose proof He as (_ & Hb & _).
  pose proof (len_nonneg (wrapEntry ts h key entry)).
  unfold leftMarginIndex, headerEntrySize in *.
  assert (Hu : uint32 i = i) by (unfold uint32; apply Z.mod_small; lia).
  rewrite Hu, lookup_insert_eq. split_and!; [done|lia|].
  apply Get_entry; [lia|done].
Qed.

Lemma Set_storedBlob (c : BigCache) (now : Z) (key : string)
    (entry : list byte) (c' : BigCache) :
  reachable c -> Set_ c now key entry = Some c' ->
  setInFull c now key entry = true ->
  storedBlob c' key = Some (wrapEntry (uint64 now) (Sum64 c key) key entry).
Proof.
  intros Hr H Hf. pose proof (reachable_shard_ok _ Hr) as Hok.
  apply Set_fields in H as (s & s' & Hs & Hs' & ->).
  unfold setInFull in Hf. rewrite Hs in Hf. cbn [mbind option_bind] in Hf.
  unfold setShard in Hs'. bind_inv Hs' s1 E1. bind_inv Hs' s2 E2.
  rewrite E1 in Hf. cbn [mbind option_bind] in Hf. rewrite E2 in Hf.
  cbn [mbind option_bind] in Hf.
  destruct (Push (entries s2) _) as [[i q]|] eqn:Ep; [|done].
  cbn [mbind option_bind] in Hf.
  assert (Hs2 : shard_ok s2).
  { eapply evictOldest_ok; [|exact E2]. eapply resetPrevious_ok; [|exact E1].
    eapply Forall_lookup_1; [exact Hok|exact Hs]. }
  destruct (pushEntry_stored _ _ _ _ _ _ _ _ Hs2 Ep Hf Hs')
    as (Hm & Hi & Hg).
  unfold storedBlob, getShard, Sum64, shardIndex in *.
  cbn [shards hash shardMask].
  rewrite list_lookup_insert_eq by (by eapply lookup_lt_Some).
  cbn [mbind option_bind]. rewrite Hm. cbn [default from_option].
  unfold id.
  destruct (i =? 0) eqn:E0; [lia|]. by rewrite Hg.
Qed.

End SetGet.

(** X10.  On a reachable cache, when [Set] stores the wrapped entry in full,
    a [Get] of the same key right after it finds the blob that was just
    pushed, and, for a key of fewer than 2^16 bytes, returns the value that
    was set. *)
Theorem Set_then_Get (c : bigcache.BigCache) (now : Z) (key : string)
    (entry : list byte) (c' : bigcache.BigCache) :
  CacheSpec.reachable c ->
  bigcache.Set_ c now key entry = Some c' ->
  CacheSpec.setInFull c now key entry = true ->
  len (String.list_byte_of_string key) < 2 ^ 16 ->
  CacheSpec.storedBlob c' key
  = Some (bigcache.wrapEntry (uint64 now) (bigcache.Sum64 c key) key entry) /\
  bigcache.Get c' key = Some (Val entry).
Proof.
  intros Hr H Hf Hk. pose proof (Set_storedBlob _ _ _ _ _ Hr H Hf) as Hb.
  split; [done|]. rewrite (Get_storedBlob _ _ _ Hb).
  rewrite readKeyFromEntry_wrapEntry, readEntry_wrapEntry by done.
  by rewrite String.eqb_refl.
Qed.

(** ** Construction, continued *)

Section Construction2.

Import queue bigcache CacheSpec.

Lemma Size_empty_maps (c : BigCache) :
  Forall (fun s => hashmap s = ∅) (shards c) -> Size c = 0.
Proof.
  unfold Size. intros H.
  assert (Hf : forall (l : list cacheShard) (n : Z),
             Forall (fun s => hashmap s = ∅) l ->
             foldl (fun count shard =>
                      count + Z.of_nat (size (hashmap shard))) n l = n).
  { induction l as [|s l IH]; intros n Hl; cbn; [done|].
    apply Forall_cons in Hl as [Hs Hl]. rewrite Hs, map_size_empty, IH by done.
    lia. }
  by rewrite Hf.
Qed.

Lemma Get_empty_map (c : BigCache) (key : string) (s : cacheShard) :
  getShard c (Sum64 c key) = Some s -> hashmap s = ∅ ->
  Get c key = Some (Error (notFound key)).
Proof.
  intros Hs He. unfold Get. rewrite Hs. cbn [mbind option_bind].
  by rewrite He, lookup_empty.
Qed.

Lemma quot_small (a b : Z) : 0 <= a -> 0 < b -> 0 <= Z.quot a b <= a.
Proof.
  intros Ha Hb. rewrite Z.quot_div_nonneg by lia. split.
  - apply Z.div_pos; lia.
  - apply Z.div_le_upper_bound; nia.
Qed.

End Construction2.

(** X11.  The constructor returns the configuration error for every shard
    count of type [int] that is not a power of two, apart from 0 and the
    least [int]: for all positive non-powers of two and all negative counts
    above -2^63. *)
Theorem newBigCache_rejects_non_power (cfg : bigcache.Config) :
  CacheSpec.int_range (bigcache.Shards cfg) ->
  bigcache.Shards cfg <> 0 ->
  bigcache.Shards cfg <> - 2 ^ 63 ->
  ~ (exists k : Z, 0 <= k /\ bigcache.Shards cfg = 2 ^ k) ->
  bigcache.newBigCache cfg
  = Some (Error (bigcache.InvalidConfig "Shards number must be power of two")).
Proof.
  intros Hr H0 Hm Hk. apply newBigCache_rejects. unfold CacheSpec.int_range in Hr.
  destruct (Z.lt_ge_cases (bigcache.Shards cfg) 0) as [Hneg|Hpos].
  - apply isPowerOfTwo_negative. lia.
  - destruct (bigcache.isPowerOfTwo (bigcache.Shards cfg)) eqn:E; [|done].
    apply isPowerOfTwo_positive in E; [done|lia].
Qed.

(** X12.  For a power of two of shards, non-negative sizes and an arena size
    within [int], the constructor returns a cache with that many shards, each
    with an empty map and a new queue of
    [max(MaxEntriesInWindow/Shards, 10) * MaxEntrySize] bytes, and the shard
    mask [Shards - 1]; its [Size] is 0 and [Get] of any key reports
    not-found. *)
Theorem newBigCache_builds_shards (cfg : bigcache.Config) (k : Z) :
  0 <= k < 63 -> bigcache.Shards cfg = 2 ^ k ->
  0 <= bigcache.MaxEntriesInWindow cfg < 2 ^ 63 ->
  0 <= bigcache.MaxEntrySize cfg ->
  bigcache.max (Z.quot (bigcache.MaxEntriesInWindow cfg) (bigcache.Shards cfg))
    bigcache.minimumEntriesInShard * bigcache.MaxEntrySize cfg < 2 ^ 63 ->
  bigcache.MaxEntrySize cfg + bigcache.headersSizeInBytes < 2 ^ 63 ->
  exists c : bigcache.BigCache,
    bigcache.NewBigCache cfg = Some (Val c) /\
    bigcache.shardSize c
    = bigcache.max
        (Z.quot (bigcache.MaxEntriesInWindow cfg) (bigcache.Shards cfg))
        bigcache.minimumEntriesInShard /\
    bigcache.shards c
    = replicate (Z.to_nat (bigcache.Shards cfg))
        (bigcache.mkShard ∅
           (queue.mkQueue
              (replicate
                 (Z.to_nat (bigcache.shardSize c * bigcache.MaxEntrySize cfg))
                 x00)
              (bigcache.shardSize c * bigcache.MaxEntrySize cfg)
              queue.leftMarginIndex queue.leftMarginIndex 0
              queue.leftMarginIndex)) /\
    bigcache.shardMask c = bigcache.Shards cfg - 1 /\
    bigcache.Size c = 0 /\
    forall key : string,
      bigcache.Get c key = Some (Error (bigcache.notFound key)).
Proof.
  intros Hk HS Hmew Hmes Hsz Hbuf.
  assert (Hpow : 1 <= 2 ^ k < 2 ^ 63).
  { split; [pose proof (Z.pow_pos_nonneg 2 k); lia|].
    apply Z.pow_lt_mono_r; lia. }
  set (size := bigcache.max
                 (Z.quot (bigcache.MaxEntriesInWindow cfg)
                    (bigcache.Shards cfg)) bigcache.minimumEntriesInShard)
    in *.
  assert (Hq : 0 <= Z.quot (bigcache.MaxEntriesInWindow cfg)
                      (bigcache.Shards cfg)
               <= bigcache.MaxEntriesInWindow cfg)
    by (apply quot_small; lia).
  assert (Hsize : 10 <= size).
  { unfold size, bigcache.max, bigcache.minimumEntriesInShard.
    destruct (_ >? _) eqn:E; lia. }
  unfold bigcache.NewBigCache, bigcache.newBigCache.
  assert (Hp : bigcache.isPowerOfTwo (bigcache.Shards cfg) = true).
  { apply isPowerOfTwo_positive; [lia|]. exists k. split; [lia|done]. }
  rewrite Hp. cbn [negb].
  destruct (bigcache.Shards cfg <? 0) eqn:E0; [lia|].
  cbn [mbind option_bind]. unfold bigcache.int_div.
  destruct (bigcache.Shards cfg =? 0) eqn:E1; [lia|].
  cbn [mbind option_bind].
  rewrite (int64_id (Z.quot _ _)) by (unfold CacheSpec.int_range; lia).
  fold size.
  destruct (0 <? bigcache.Shards cfg) eqn:E2; [|lia].
  unfold bigcache.newShard, queue.NewBytesQueue.
  rewrite (int64_id (size * _)) by (unfold CacheSpec.int_range; nia).
  rewrite (int64_id (_ + bigcache.headersSizeInBytes))
    by (unfold CacheSpec.int_range, bigcache.headersSizeInBytes,
          bigcache.timestampSizeInBytes, bigcache.hashSizeInBytes,
          bigcache.keySizeInBytes in *; lia).
  unfold make.
  destruct (size * bigcache.MaxEntrySize cfg <? 0) eqn:E3; [nia|].
  destruct (bigcache.MaxEntrySize cfg + bigcache.headersSizeInBytes <? 0)
    eqn:E4.
  { unfold bigcache.headersSizeInBytes, bigcache.timestampSizeInBytes,
      bigcache.hashSizeInBytes, bigcache.keySizeInBytes in *. lia. }
  cbn [mbind option_bind]. eexists. split; [reflexivity|].
  cbn [bigcache.shardSize bigcache.shards bigcache.shardMask].
  assert (Hempty : Forall (fun s => bigcache.hashmap s = ∅)
                     (replicate (Z.to_nat (bigcache.Shards cfg))
                        (bigcache.mkShard ∅
                           (queue.mkQueue
                              (replicate
                                 (Z.to_nat (size * bigcache.MaxEntrySize cfg))
                                 x00)
                              (size * bigcache.MaxEntrySize cfg)
                              queue.leftMarginIndex queue.leftMarginIndex 0
                              queue.leftMarginIndex))))
    by (by apply Forall_replicate).
  split_and!; try done.
  - unfold uint64. apply Z.mod_small. lia.
  - by apply Size_empty_maps.
  - intros key.
    match goal with
    | |- bigcache.Get ?c key = _ => set (c0 := c)
    end.
    assert (Hok : CacheSpec.shards_ok c0).
    { split; cbn.
      - exists k. split; [lia|]. rewrite Z.ones_equiv. unfold uint64.
        rewrite Z.mod_small by lia. lia.
      - rewrite length_replicate. unfold uint64.
        rewrite Z.mod_small by lia. f_equal. lia. }
    destruct (shards_ok_getShard c0 (bigcache.Sum64 c0 key) Hok) as [s Hs].
    eapply Get_empty_map; [exact Hs|].
    unfold bigcache.getShard in Hs. apply list_elem_of_lookup_2 in Hs.
    eapply Forall_forall in Hempty; [exact Hempty|exact Hs].
Qed.

(** ** Eviction and the map *)

Section EvictionMap.

Import queue bigcache CacheSpec.

Lemma le_decode_range (bs : list byte) :
  0 <= le_decode bs < 256 ^ Z.of_nat (length bs).
Proof.
  induction bs as [|b bs IH]; cbn [le_decode length]; [lia|].
  rewrite Nat2Z.inj_succ, Z.pow_succ_r by lia.
  assert (Hb : 0 <= byte_to_Z b < 256).
  { unfold byte_to_Z. pose proof (Byte.to_N_bounded b). lia. }
  lia.
Qed.

Lemma readTimestampFromEntry_range (data : list byte) :
  0 <= readTimestampFromEntry data < 2 ^ 64.
Proof.
  unfold readTimestampFromEntry.
  pose proof (le_decode_range (take 8 data)) as H.
  assert (Hl : (length (take 8 data) <= 8)%nat)
    by (rewrite length_take; lia).
  assert (Hp : 256 ^ Z.of_nat (length (take 8 data)) <= 256 ^ 8)
    by (apply Z.pow_le_mono_r; lia).
  change (256 ^ 8) with (2 ^ 64) in Hp. lia.
Qed.

Lemma evictOldest_maps (c : BigCache) (ts : Z) (s s' : cacheShard) :
  evictOldest c ts s = Some s' ->
  hashmap s' = hashmap s \/
  exists h : Z, hashmap s' = delete h (hashmap s).
Proof.
  unfold evictOldest. intros H.
  bind_inv H p Ep. destruct p as [oldest|e]; [|injection H as <-; by left].
  unfold onEvict in H. destruct (_ >? _); [|injection H as <-; by left].
  unfold evict in H. bind_inv H rq Er. destruct rq as [r q].
  injection H as <-. right. by eexists.
Qed.

End EvictionMap.

(** X13.  One eviction attempt with a clock that is not behind the oldest
    entry: an empty queue is left alone; an oldest entry whose age
    [now - timestamp] is at most the life window is kept, a life window of
    exactly that age included; an older one is popped, which lowers [Len] by
    one, and the map entry under its hash field is deleted. *)
Theorem evictOldest_by_age (c : bigcache.BigCache) (now : Z)
    (s : bigcache.cacheShard) :
  0 <= now < 2 ^ 64 ->
  (queue.Len (bigcache.entries s) = 0 ->
   bigcache.evictOldest c now s = Some s) /\
  (forall oldest : list byte,
     queue.Peek (bigcache.entries s) = Some (Val oldest) ->
     bigcache.readTimestampFromEntry oldest <= now ->
     (now - bigcache.readTimestampFromEntry oldest <= bigcache.lifeWindow c ->
      bigcache.evictOldest c now s = Some s) /\
     (bigcache.lifeWindow c < now - bigcache.readTimestampFromEntry oldest ->
      exists q' : queue.BytesQueue,
        queue.Pop (bigcache.entries s) = Some (Val oldest, q') /\
        queue.Len q' = queue.Len (bigcache.entries s) - 1 /\
        bigcache.evictOldest c now s
        = Some (bigcache.mkShard
                  (delete (bigcache.readHashFromEntry oldest)
                     (bigcache.hashmap s)) q'))).
Proof.
  intros Hnow. split.
  - intros H0. unfold bigcache.evictOldest, queue.Peek, queue.Len in *.
    by rewrite H0.
  - intros oldest Hp Hts.
    pose proof (readTimestampFromEntry_range oldest) as Hr.
    assert (Hu : uint64 (now - bigcache.readTimestampFromEntry oldest)
                 = now - bigcache.readTimestampFromEntry oldest)
      by (unfold uint64; apply Z.mod_small; lia).
    unfold bigcache.evictOldest, bigcache.onEvict. rewrite Hp.
    cbn [mbind option_bind]. rewrite Hu. split.
    + intros Hle. destruct (_ >? _) eqn:E; [lia|done].
    + intros Hgt. destruct (_ >? _) eqn:E; [|lia].
      destruct (Peek_Pop _ _ Hp) as (q' & Hpop & Hlen & _).
      exists q'. unfold bigcache.evict. rewrite Hpop. by split_and!.
Qed.

(** X14.  What [Set] does to the map of the key's shard: afterwards the
    key's hash is in the map, no other hash was added, and at most one hash
    was removed. *)
Theorem Set_map_effect (c : bigcache.BigCache) (now : Z) (key : string)
    (entry : list byte) (c' : bigcache.BigCache) :
  bigcache.Set_ c now key entry = Some c' ->
  exists s s' : bigcache.cacheShard,
    bigcache.getShard c (bigcache.Sum64 c key) = Some s /\
    bigcache.getShard c' (bigcache.Sum64 c' key) = Some s' /\
    bigcache.Sum64 c key ∈ dom (bigcache.hashmap s') /\
    dom (bigcache.hashmap s')
    ⊆ {[bigcache.Sum64 c key]} ∪ dom (bigcache.hashmap s) /\
    (size (bigcache.hashmap s') <= size (bigcache.hashmap s) + 1)%nat /\
    (size (bigcache.hashmap s) <= size (bigcache.hashmap s') + 1)%nat.
Proof.
  intros H. apply Set_fields in H as (s & s' & Hs & Hs' & ->).
  exists s, s'. split; [done|]. split.
  { unfold bigcache.getShard, bigcache.Sum64, bigcache.shardIndex in *. cbn.
    rewrite list_lookup_insert_eq; [done|by eapply lookup_lt_Some]. }
  unfold bigcache.setShard in Hs'. bind_inv Hs' s1 E1. bind_inv Hs' s2 E2.
  destruct (resetPrevious_frame _ _ _ E1) as (Hm1 & _).
  unfold bigcache.pushEntry in Hs'. bind_inv Hs' iq Ep. destruct iq as [i q].
  injection Hs' as <-. cbn [bigcache.hashmap].
  set (h := bigcache.Sum64 c key).
  assert (Hsz : forall (m : gmap Z Z) (x : Z),
             (size (delete x m) <= size m <= size (delete x m) + 1)%nat).
  { intros m x. rewrite map_size_delete.
    destruct (m !! x); unfold id; lia. }
  assert (Hin : forall (m : gmap Z Z) (x v : Z),
             (size m <= size (<[x:=v]> m) <= size m + 1)%nat).
  { intros m x v. rewrite map_size_insert.
    destruct (m !! x); unfold id; lia. }
  pose proof (Hin (bigcache.hashmap s2) h (uint32 i)) as Hi2.
  split; [rewrite dom_insert_L; set_solver|].
  destruct (evictOldest_maps _ _ _ _ E2) as [Hm2|[x Hm2]];
    rewrite Hm2, Hm1 in *.
  - split_and!; [rewrite dom_insert_L; set_solver|lia|lia].
  - pose proof (Hsz (bigcache.hashmap s) x).
    split_and!; [rewrite dom_insert_L, dom_delete_L; set_solver|lia|].
    (* at most one removed: the deleted key may be the inserted one *)
    destruct (decide (x = h)) as [->|Hne].
    + rewrite insert_delete_eq. pose proof (Hin (bigcache.hashmap s) h (uint32 i)).
      lia.
    + lia.
Qed.

(** ** Iteration *)

Section Iteration.

Import queue bigcache CacheSpec.

Lemma getKeyAndValue_Val (shard : cacheShard) (h : Z) (k : string)
    (v : list byte) :
  getKeyAndValue shard h = Some (Val (k, v)) <-> yields shard h k v.
Proof.
  unfold getKeyAndValue, yields. split.
  - intros H. destruct (hashmap shard !! h) as [i|] eqn:Em; cbn in H; [|done].
    destruct (i =? 0) eqn:E0; [done|].
    bind_inv H r Er. destruct r as [blob|e]; [|done].
    injection H as <- <-. exists i, blob. split_and!; try done. lia.
  - intros (i & blob & Hm & Hi & Hg & -> & ->). rewrite Hm. cbn.
    destruct (i =? 0) eqn:E0; [lia|]. by rewrite Hg.
Qed.

Lemma iterateKeys_calls (shard : cacheShard) (keys : list Z)
    (calls : list (string * list byte)) :
  iterateKeys shard keys = Some calls ->
  (length calls <= length keys)%nat /\
  forall (k : string) (v : list byte),
    (k, v) ∈ calls <-> exists h, h ∈ keys /\ yields shard h k v.
Proof.
  revert calls. induction keys as [|h keys IH]; intros calls H;
    cbn [iterateKeys] in H.
  - injection H as <-. split; [done|]. intros k v. split.
    + intros Hin. by apply elem_of_nil in Hin.
    + intros (h & Hin & _). by apply elem_of_nil in Hin.
  - bind_inv H r Er. bind_inv H rest Erest. injection H as <-.
    destruct (IH _ Erest) as [Hlen Hiff]. split.
    + destruct r; cbn [length]; lia.
    + intros k v. destruct r as [[k0 v0]|e].
      * rewrite elem_of_cons, Hiff. split.
        -- intros [[= -> ->]|(h' & Hin & Hy)].
           ++ exists h. split; [apply list_elem_of_here|].
              by apply getKeyAndValue_Val.
           ++ exists h'. split; [by apply list_elem_of_further|done].
        -- intros (h' & Hin & Hy). apply elem_of_cons in Hin as [->|Hin].
           ++ left. apply getKeyAndValue_Val in Hy. congruence.
           ++ right. by exists h'.
      * rewrite Hiff. split.
        -- intros (h' & Hin & Hy). exists h'.
           split; [by apply list_elem_of_further|done].
        -- intros (h' & Hin & Hy). apply elem_of_cons in Hin as [->|Hin].
           ++ apply getKeyAndValue_Val in Hy. congruence.
           ++ by exists h'.
Qed.

Lemma elem_of_map_keys (m : gmap Z Z) (h : Z) :
  h ∈ (map_to_list m).*1 <-> is_Some (m !! h).
Proof.
  rewrite list_elem_of_fmap. split.
  - intros ([h' i] & -> & Hin). apply elem_of_map_to_list in Hin. by exists i.
  - intros [i Hi]. exists (h, i). split; [done|].
    by apply elem_of_map_to_list.
Qed.

Lemma Iterate_calls (c : BigCache) (calls : list (string * list byte)) :
  Iterate c = Some calls ->
  (length calls <= sum_list ((fun s => size (hashmap s)) <$> shards c))%nat /\
  forall (k : string) (v : list byte),
    (k, v) ∈ calls <->
    exists (shard : cacheShard) (h : Z),
      shard ∈ shards c /\ yields shard h k v.
Proof.
  unfold Iterate. intros H. bind_inv H css E. injection H as <-.
  apply mapM_Some_1 in E. induction E as [|s cs ss css Hs _ IH].
  - split; [done|]. intros k v. split.
    + intros Hin. by apply elem_of_nil in Hin.
    + intros (s & h & Hin & _). by apply elem_of_nil in Hin.
  - destruct IH as [Hlen Hiff].
    destruct (iterateKeys_calls _ _ _ Hs) as [Hl1 Hi1].
    rewrite length_fmap, length_map_to_list in Hl1.
    cbn [concat fmap list_fmap sum_list sum_list_with]. split.
    + rewrite length_app. unfold sum_list, id in *. lia.
    + intros k v. rewrite elem_of_app, Hi1, Hiff. split.
      * intros [(h & Hin & Hy)|(s' & h & Hin & Hy)].
        -- exists s, h. split; [apply list_elem_of_here|done].
        -- exists s', h. split; [by apply list_elem_of_further|done].
      * intros (s' & h & Hin & Hy). apply elem_of_cons in Hin as [->|Hin].
        -- left. exists h. split; [|done]. apply elem_of_map_keys.
           destruct Hy as (i & _ & Hm & _). by exists i.
        -- right. by exists s', h.
Qed.

Lemma Iterate_Clear (c : BigCache) : Iterate (Clear c) = Some [].
Proof.
  unfold Iterate, Clear. cbn [shards].
  assert (H : mapM (fun shard : cacheShard =>
                      iterateKeys shard (map_to_list (hashmap shard)).*1)
                (clearShard <$> shards c)
              = Some (replicate (length (shards c)) [])).
  { induction (shards c) as [|s l IH]; [done|].
    cbn [fmap list_fmap mapM length replicate].
    cbn [clearShard hashmap]. rewrite map_to_list_empty.
    cbn [fmap list_fmap iterateKeys mbind option_bind].
    rewrite IH. reflexivity. }
  rewrite H. cbn [mbind option_bind]. f_equal. clear H.
  induction (length (shards c)) as [|n IH]; [done|].
  cbn [replicate concat app]. exact IH.
Qed.

End Iteration.

(** X15.  [Iterate], when it returns, has called [accept] exactly for the map
    entries of all shards that hold a non-zero index, with the key and the
    value read from the blob at that index; entries with index 0 are skipped,
    and there are at most as many calls as the maps have keys. *)
Theorem Iterate_visits_map_entries (c : bigcache.BigCache)
    (calls : list (string * list byte)) :
  bigcache.Iterate c = Some calls ->
  (length calls
   <= sum_list ((fun s => size (bigcache.hashmap s)) <$> bigcache.shards c))%nat
  /\
  forall (k : string) (v : list byte),
    (k, v) ∈ calls <->
    exists (shard : bigcache.cacheShard) (h : Z),
      shard ∈ bigcache.shards c /\ CacheSpec.yields shard h k v.
Proof. apply Iterate_calls. Qed.

(** X16.  After [Clear], [Iterate] makes no call of [accept]. *)
Theorem Iterate_after_Clear (c : bigcache.BigCache) :
  bigcache.Iterate (bigcache.Clear c) = Some [].
Proof. apply Iterate_Clear. Qed.

(** ** Resetting a hash field in place *)

Section ResetInPlace.

Import queue QueueSpec bigcache CacheSpec.

Lemma length_resetKeyFromEntry (b : list byte) :
  length (resetKeyFromEntry b) = length b.
Proof.
  unfold resetKeyFromEntry.
  rewrite !length_app, !length_take, length_drop, length_replicate. lia.
Qed.

Lemma len_resetKeyFromEntry (b : list byte) :
  len (resetKeyFromEntry b) = len b.
Proof. unfold len. by rewrite length_resetKeyFromEntry. Qed.

Lemma le_decode_zeros (n : nat) : le_decode (replicate n x00) = 0.
Proof. induction n as [|n IH]; cbn [replicate le_decode]; [done|]. by rewrite IH. Qed.

Lemma readHashFromEntry_reset (b : list byte) :
  readHashFromEntry (resetKeyFromEntry b) = 0.
Proof.
  unfold readHashFromEntry, resetKeyFromEntry. rewrite take_replicate.
  destruct (decide (8 <= length b)%nat) as [H8|H8].
  - rewrite drop_app_length' by (rewrite length_take; lia).
    destruct (decide (16 <= length b)%nat) as [H16|H16].
    + replace (Nat.min (length b - 8) 8) with 8%nat by lia.
      rewrite take_app_length' by (by rewrite length_replicate).
      apply le_decode_zeros.
    + rewrite (drop_ge b 16) by lia. rewrite app_nil_r.
      rewrite take_replicate. apply le_decode_zeros.
  - rewrite drop_ge; [done|].
    rewrite !length_app, length_take, length_replicate, length_drop. lia.
Qed.

Lemma entry_at_inj (a : list byte) (i : Z) (b b' : list byte) :
  entry_at a i b -> entry_at a i b' -> b = b'.
Proof.
  intros H H'. destruct (entry_at_split _ _ _ H) as [Hh Hd].
  destruct (entry_at_split _ _ _ H') as [Hh' Hd'].
  destruct H as (_ & _ & Hl & _). destruct H' as (_ & _ & Hl' & _).
  pose proof (len_nonneg b). pose proof (len_nonneg b').
  assert (Hlen : len b = len b').
  { rewrite Hh in Hh'. apply (f_equal le_decode) in Hh'.
    rewrite !le_decode_encode in Hh'.
    change (256 ^ Z.of_nat 4) with (2 ^ 32) in Hh'. unfold uint32 in Hh'.
    rewrite !Z.mod_mod in Hh' by lia. rewrite !Z.mod_small in Hh' by lia.
    done. }
  rewrite <- Hd, <- Hd'. by rewrite Hlen.
Qed.

Lemma represents_unique (q : BytesQueue) (es : list (Z * list byte))
    (h : Z) (b b' : list byte) :
  represents q es -> (h, b) ∈ es -> (h, b') ∈ es -> b = b'.
Proof.
  intros Hq H H'. destruct (represents_elem _ _ _ _ Hq H) as [_ He].
  destruct (represents_elem _ _ _ _ Hq H') as [_ He'].
  by eapply entry_at_inj.
Qed.

Lemma represents_head_fresh (q : BytesQueue) (h0 : Z) (b0 : list byte)
    (rest : list (Z * list byte)) (j : Z) (c : list byte) :
  represents q ((h0, b0) :: rest) -> (j, c) ∈ rest -> j <> h0.
Proof.
  intros (_ & _ & _ & [(_ & Hch & _)|(es1 & es2 & Heq & Hn1 & _ & Hgap & H1 & H2)])
    Hin.
  - cbn [chain] in Hch. destruct Hch as (-> & He & Hch).
    destruct (chain_elem _ _ _ _ _ _ Hch Hin) as (_ & ? & _).
    pose proof (len_nonneg b0). unfold headerEntrySize in *. lia.
  - destruct es1 as [|[h1 b1] es1]; [done|].
    injection Heq as -> -> ->. cbn [chain] in H1.
    destruct H1 as (-> & He & H1). apply elem_of_app in Hin as [Hin|Hin].
    + destruct (chain_elem _ _ _ _ _ _ H1 Hin) as (_ & ? & _).
      pose proof (len_nonneg b1). unfold headerEntrySize in *. lia.
    + destruct (chain_elem _ _ _ _ _ _ H2 Hin) as (_ & _ & ?).
      pose proof (len_nonneg c).
      unfold minimumEmptyBlobSize, headerEntrySize in *. lia.
Qed.

Lemma resetAt_other (i : Z) (es : list (Z * list byte)) :
  (forall h b, (h, b) ∈ es -> h <> i) -> resetAt i es = es.
Proof.
  intros H. unfold resetAt. induction es as [|[h b] es IH]; [done|].
  cbn [fmap list_fmap fst snd].
  destruct (h =? i) eqn:E.
  - exfalso. apply (H h b); [apply list_elem_of_here|lia].
  - f_equal. apply IH. intros h' b' Hin. apply (H h' b').
    by apply list_elem_of_further.
Qed.

Lemma chain_reset (a a' : list byte) (es : list (Z * list byte))
    (s e i : Z) (b : list byte) :
  chain a s es e -> entry_at a i b -> len a' = len a ->
  agree a a' 0 (i + headerEntrySize) ->
  agree a a' (i + headerEntrySize + len b) (len a) ->
  entry_at a' i (resetKeyFromEntry b) ->
  i + headerEntrySize + len b <= s \/ e <= i \/ (i, b) ∈ es ->
  chain a' s (resetAt i es) e.
Proof.
  intros Hch Hi Hlen Hag1 Hag2 Hi' Hpos.
  pose proof (len_nonneg b) as Hb.
  destruct Hpos as [Hleft|[Hright|Hin]].
  - destruct es as [|e0 es]; [done|].
    destruct (chain_nonempty _ _ _ _ Hch) as (Hs0 & Hse & Hea); [done|].
    rewrite resetAt_other.
    + eapply chain_agree; [exact Hch| |lia].
      eapply agree_weaken; [exact Hag2|lia|lia].
    + intros h c Hc. destruct (chain_elem _ _ _ _ _ _ Hch Hc) as (_ & ? & _).
      unfold headerEntrySize in *. lia.
  - destruct es as [|e0 es]; [done|].
    destruct (chain_nonempty _ _ _ _ Hch) as (Hs0 & Hse & Hea); [done|].
    rewrite resetAt_other.
    + eapply chain_agree; [exact Hch| |lia].
      eapply agree_weaken; [exact Hag1|lia|unfold headerEntrySize; lia].
    + intros h c Hc. destruct (chain_elem _ _ _ _ _ _ Hch Hc) as (_ & _ & ?).
      pose proof (len_nonneg c). unfold headerEntrySize in *. lia.
  - revert s Hch Hin. induction es as [|[h b0] es IH]; intros s Hch Hin.
    + by apply elem_of_nil in Hin.
    + cbn [chain] in Hch. destruct Hch as (-> & He & Hch).
      pose proof (chain_le _ _ _ _ Hch) as Hle.
      pose proof (len_nonneg b0) as Hb0.
      unfold resetAt. cbn [fmap list_fmap fst snd].
      fold (resetAt i es).
      apply elem_of_cons in Hin as [[= -> ->]|Hin].
      * rewrite Z.eqb_refl. cbn [chain]. split_and!; [done|done|].
        rewrite len_resetKeyFromEntry.
        destruct es as [|e0 es]; [done|].
        destruct (chain_nonempty _ _ _ _ Hch) as (_ & _ & ?); [done|].
        rewrite resetAt_other.
        -- eapply chain_agree; [exact Hch| |lia].
           eapply agree_weaken; [exact Hag2|lia|lia].
        -- intros h c Hc.
           destruct (chain_elem _ _ _ _ _ _ Hch Hc) as (_ & ? & _).
           unfold headerEntrySize in *. lia.
      * destruct (chain_elem _ _ _ _ _ _ Hch Hin) as (_ & Hge & _).
        unfold headerEntrySize in *.
        destruct (s =? i) eqn:E; [lia|]. cbn [chain].
        split_and!; [done| |by apply IH].
        pose proof He as (Hs0 & _).
        eapply entry_at_agree; [exact He| |lia].
        eapply agree_weaken; [exact Hag1|lia|unfold headerEntrySize; lia].
Qed.

Lemma resetInPlace_entry (q : BytesQueue) (i : Z) (b : list byte) :
  entry_at (array q) i b ->
  exists a' : list byte,
    resetInPlace q i b = Some (set_array q a') /\
    len a' = len (array q) /\
    agree (array q) a' 0 (i + headerEntrySize) /\
    agree (array q) a' (i + headerEntrySize + len b) (len (array q)) /\
    entry_at a' i (resetKeyFromEntry b).
Proof.
  intros He. pose proof He as (Hi0 & Hfit & Hlt & Hseg).
  pose proof (len_nonneg b) as Hb.
  destruct (entry_at_split _ _ _ He) as [Hhd _].
  unfold resetInPlace.
  destruct (copy_at (array q) (i + headerEntrySize) (resetKeyFromEntry b))
    as [[a' n]|] eqn:Hc.
  - destruct (copy_at_spec _ _ _ _ _ Hc) as (Hoff & Hn & Hlen & Hag1 & Hag2 & Hs).
    rewrite len_resetKeyFromEntry in Hn.
    assert (n = len b) as -> by (unfold headerEntrySize in *; lia).
    exists a'. cbn [mbind option_bind]. split_and!; try done.
    unfold entry_at. rewrite len_resetKeyFromEntry.
    split_and!; [done|lia|done|].
    rewrite segment_app by (unfold headerEntrySize; lia).
    rewrite Hs.
    rewrite take_ge by (rewrite length_resetKeyFromEntry; unfold len; lia).
    f_equal.
    rewrite <- Hhd. symmetry. apply segment_agree; try (unfold headerEntrySize in *; lia).
    eapply agree_weaken; [exact Hag1|lia|lia].
  - exfalso. unfold copy_at in Hc.
    destruct ((0 <=? i + headerEntrySize) && (i + headerEntrySize <=? len (array q)))
      eqn:E; [done|].
    apply andb_false_iff in E as [E|E]; unfold headerEntrySize in *; lia.
Qed.

Lemma length_resetAt (i : Z) (es : list (Z * list byte)) :
  length (resetAt i es) = length es.
Proof. unfold resetAt. by rewrite length_fmap. Qed.

Lemma resetAt_app (i : Z) (xs ys : list (Z * list byte)) :
  resetAt i (xs ++ ys) = resetAt i xs ++ resetAt i ys.
Proof. unfold resetAt. by rewrite fmap_app. Qed.

Lemma resetAt_nil (i : Z) (es : list (Z * list byte)) :
  resetAt i es = [] <-> es = [].
Proof. unfold resetAt. by destruct es. Qed.

(** Resetting the hash field of a stored entry leaves the queue holding the
    same entries, that one with its hash field zeroed. *)
Lemma represents_reset (q : BytesQueue) (es : list (Z * list byte)) (i : Z)
    (b : list byte) (a' : list byte) :
  represents q es -> (i, b) ∈ es ->
  len a' = len (array q) ->
  agree (array q) a' 0 (i + headerEntrySize) ->
  agree (array q) a' (i + headerEntrySize + len b) (len (array q)) ->
  entry_at a' i (resetKeyFromEntry b) ->
  represents (set_array q a') (resetAt i es).
Proof.
  intros Hq Hin Hlen Hag1 Hag2 He'.
  destruct (represents_elem _ _ _ _ Hq Hin) as [Hi He].
  destruct Hq as (Hcap & Hh & Hc & Hgeo).
  unfold represents. cbn [array capacity head count set_array].
  split_and!; [lia|done|unfold len in *; by rewrite length_resetAt|].
  destruct Hgeo as [(Hr & Hch & Hnil)|(es1 & es2 & -> & Hn1 & Hn2 & Hgap & H1 & H2)].
  - left. unfold linear. cbn [array head tail rightMargin set_array].
    split_and!; [done| |by intros ?%resetAt_nil; apply Hnil].
    eapply chain_reset; eauto.
  - right. exists (resetAt i es1), (resetAt i es2).
    cbn [array head tail rightMargin set_array].
    split_and!; [apply resetAt_app|by intros ?%resetAt_nil
                |by intros ?%resetAt_nil|done| |].
    + eapply chain_reset; [exact H1|exact He|done|done|done|done|].
      apply elem_of_app in Hin as [Hin|Hin]; [by right; right|].
      left. destruct (chain_elem _ _ _ _ _ _ H2 Hin) as (_ & _ & ?).
      unfold minimumEmptyBlobSize, headerEntrySize in *. lia.
    + eapply chain_reset; [exact H2|exact He|done|done|done|done|].
      apply elem_of_app in Hin as [Hin|Hin]; [|by right; right].
      right; left. destruct (chain_elem _ _ _ _ _ _ H1 Hin) as (_ & ? & _).
      unfold minimumEmptyBlobSize, headerEntrySize in *. lia.
Qed.

End ResetInPlace.

(** ** The map and the queue of a shard along in-full runs *)

Section ShardInvariant.

Import queue QueueSpec bigcache CacheSpec.

Lemma Peek_represents (q : BytesQueue) (es : list (Z * list byte)) :
  represents q es ->
  Peek q = Some (match es with
                 | [] => Error errEmptyQueue
                 | (_, b) :: _ => Val b
                 end).
Proof.
  intros Hq. pose proof Hq as (_ & _ & Hc & _). unfold Peek.
  destruct es as [|[h b] es].
  - cbn in Hc. rewrite Hc. done.
  - destruct (Pop_represents _ _ _ _ Hq) as (q' & _ & _ & -> & _).
    destruct (represents_elem _ _ _ _ Hq (list_elem_of_here _ _)) as [_ He].
    destruct (count q =? 0) eqn:E.
    + unfold len in Hc. cbn [length] in Hc. lia.
    + rewrite (peek_entry _ _ _ He). done.
Qed.

Lemma readHashFromEntry_zeros (n : nat) :
  readHashFromEntry (replicate n x00) = 0.
Proof.
  unfold readHashFromEntry. rewrite drop_replicate, take_replicate.
  apply le_decode_zeros.
Qed.

Lemma orderAfterPush_inv (q : BytesQueue) (es : list (Z * list byte))
    (i : Z) (d : list byte) (e : Z * list byte) :
  e ∈ orderAfterPush q es i d -> e ∈ es \/ e = fillerOf q \/ e = (i, d).
Proof.
  unfold orderAfterPush. destruct (growsWrapped q d).
  - rewrite !elem_of_app, !list_elem_of_singleton, !list_elem_of_In,
      !filter_In. tauto.
  - rewrite elem_of_app, list_elem_of_singleton. tauto.
Qed.

Lemma resetAt_elem (i : Z) (es : list (Z * list byte)) (j : Z)
    (c : list byte) :
  (j, c) ∈ resetAt i es ->
  exists c0 : list byte,
    (j, c0) ∈ es /\
    (if j =? i then c = resetKeyFromEntry c0 else c = c0).
Proof.
  unfold resetAt. intros ((j0 & c0) & Heq & Hin)%list_elem_of_fmap.
  cbn [fst snd] in Heq. destruct (j0 =? i) eqn:E.
  - injection Heq as -> ->. exists c0. by rewrite E.
  - injection Heq as -> ->. exists c0. by rewrite E.
Qed.

Lemma resetAt_elem_other (i : Z) (es : list (Z * list byte)) (j : Z)
    (c : list byte) :
  (j, c) ∈ es -> j <> i -> (j, c) ∈ resetAt i es.
Proof.
  intros Hin Hne. unfold resetAt. apply list_elem_of_fmap.
  exists (j, c). cbn [fst snd]. destruct (j =? i) eqn:E; [lia|done].
Qed.

(** First step of [Set] on a shard that satisfies the invariant. *)
Lemma resetPrevious_inv (s : cacheShard) (es : list (Z * list byte))
    (h : Z) :
  shard_inv s es ->
  exists (s1 : cacheShard) (es1 : list (Z * list byte)),
    resetPrevious s h = Some s1 /\ shard_inv_at h s1 es1 /\
    hashmap s1 = hashmap s /\
    es1 = match hashmap s !! h with
          | Some i => resetAt i es
          | None => es
          end.
Proof.
  intros (Hq & H2 & H3). unfold resetPrevious.
  destruct (hashmap s !! h) as [i|] eqn:Hm.
  - destruct (H2 _ _ Hm) as (b & Hin & Hb).
    destruct (represents_elem _ _ _ _ Hq Hin) as [Hi He].
    cbn [default from_option]. unfold id.
    destruct (i =? 0) eqn:E0; [lia|]. cbn [negb].
    rewrite (Get_entry _ _ _ Hi He). cbn [mbind option_bind].
    destruct (resetInPlace_entry _ _ _ He)
      as (a' & -> & Hlen & Hag1 & Hag2 & He').
    cbn [mbind option_bind].
    eexists _, _. split; [done|]. split; [|done].
    pose proof (represents_reset _ _ _ _ _ Hq Hin Hlen Hag1 Hag2 He') as Hq'.
    unfold shard_inv_at. cbn [entries hashmap]. split_and!; [done| |].
    + intros h' j Hne Hj. destruct (H2 _ _ Hj) as (c & Hc & Hhc).
      exists c. split; [|done]. apply resetAt_elem_other; [done|].
      intros ->. rewrite (represents_unique _ _ _ _ _ Hq Hc Hin) in Hhc.
      congruence.
    + intros j c Hc Hnz. apply resetAt_elem in Hc as (c0 & Hc0 & Hcase).
      destruct (j =? i) eqn:E.
      * subst c. by rewrite readHashFromEntry_reset in Hnz.
      * subst c. pose proof (H3 _ _ Hc0 Hnz) as Hl. split; [|done].
        intros Heq. rewrite Heq, Hm in Hl. injection Hl as ->. lia.
  - cbn [default from_option negb]. rewrite Z.eqb_refl. cbn [negb].
    eexists _, _. split; [done|]. split; [|done].
    split_and!; [done|by intros h' j _; apply H2|].
    intros j c Hc Hnz. pose proof (H3 _ _ Hc Hnz) as Hl. split; [|done].
    intros Heq. by rewrite Heq, Hm in Hl.
Qed.

(** Second step: the eviction attempt. *)
Lemma evictOldest_inv (c : BigCache) (ts h : Z) (s : cacheShard)
    (es : list (Z * list byte)) :
  shard_inv_at h s es ->
  exists (s2 : cacheShard) (es2 : list (Z * list byte)),
    evictOldest c ts s = Some s2 /\ shard_inv_at h s2 es2 /\
    (es2 = es /\ s2 = s \/
     exists (i0 : Z) (b0 : list byte),
       es = (i0, b0) :: es2 /\
       (uint64 (ts - readTimestampFromEntry b0) >? lifeWindow c) = true /\
       hashmap s2 = delete (readHashFromEntry b0) (hashmap s)).
Proof.
  intros (Hq & H2 & H3). unfold evictOldest.
  rewrite (Peek_represents _ _ Hq). cbn [mbind option_bind].
  destruct es as [|[i0 b0] es].
  - exists s, []. split_and!; [done|done|by left].
  - unfold onEvict.
    destruct (uint64 (ts - readTimestampFromEntry b0) >? lifeWindow c)
      eqn:Eexp.
    + destruct (Pop_represents _ _ _ _ Hq) as (q' & Hp & Hq' & _).
      unfold evict. rewrite Hp. cbn [mbind option_bind].
      eexists _, es. split; [done|]. split; [|right; by eexists _, _].
      unfold shard_inv_at. cbn [entries hashmap]. split_and!; [done| |].
      * intros h' j Hne Hj. apply lookup_delete_Some in Hj as [Hd Hj].
        destruct (H2 _ _ Hne Hj) as (b & Hb & Hhb). exists b. split; [|done].
        apply elem_of_cons in Hb as [[= -> ->]|Hb]; [done|done].
      * intros j b Hb Hnz.
        destruct (H3 j b) as [Hne Hl]; [by apply list_elem_of_further|done|].
        split; [done|]. rewrite lookup_delete_ne; [done|].
        intros Heq.
        destruct (H3 i0 b0) as [_ Hl0];
          [apply list_elem_of_here|by rewrite Heq|].
        rewrite Heq, Hl in Hl0. injection Hl0 as ->.
        by eapply represents_head_fresh.
    + exists s, ((i0, b0) :: es). split_and!; [done|done|by left].
Qed.

(** Third step: the push and the map update. *)
Lemma pushEntry_inv (ts h : Z) (key : string) (entry : list byte)
    (s : cacheShard) (es : list (Z * list byte)) (i : Z) (q : BytesQueue) :
  0 <= h < 2 ^ 64 -> shard_inv_at h s es ->
  Push (entries s) (wrapEntry ts h key entry) = Some (i, q) ->
  inFull (wrapEntry ts h key entry) i q = true ->
  pushEntry ts h key entry s = Some (mkShard (<[h := i]> (hashmap s)) q) /\
  shard_inv (mkShard (<[h := i]> (hashmap s)) q)
    (orderAfterPush (entries s) es i (wrapEntry ts h key entry)).
Proof.
  intros Hh (Hq & H2 & H3) Hp Hf.
  pose proof (Push_represents _ _ _ _ _ Hq Hp Hf) as Hq'.
  destruct (represents_elem _ _ _ _ Hq' (orderAfterPush_last _ _ _ _))
    as [Hi (_ & Hfit & _)].
  destruct (inFull_true _ _ _ Hf) as [_ Hcap].
  pose proof Hq' as (Hlen & _).
  pose proof (len_nonneg (wrapEntry ts h key entry)) as Hw.
  assert (Hu : uint32 i = i).
  { unfold uint32. apply Z.mod_small. unfold headerEntrySize in *. lia. }
  split.
  - unfold pushEntry. rewrite Hp. cbn [mbind option_bind]. by rewrite Hu.
  - unfold shard_inv. cbn [entries hashmap]. split_and!; [done| |].
    + intros h' j Hj. destruct (decide (h' = h)) as [->|Hne].
      * rewrite lookup_insert_eq in Hj. injection Hj as <-.
        eexists. split; [apply orderAfterPush_last|].
        rewrite readHashFromEntry_wrapEntry. unfold uint64.
        by apply Z.mod_small.
      * rewrite lookup_insert_ne in Hj by done.
        destruct (H2 _ _ Hne Hj) as (b & Hb & Hhb). exists b.
        split; [by apply orderAfterPush_elem|done].
    + intros j b Hb Hnz.
      apply orderAfterPush_inv in Hb as [Hb|[Hb|Hb]].
      * destruct (H3 _ _ Hb Hnz) as [Hne Hl].
        by rewrite lookup_insert_ne.
      * unfold fillerOf in Hb. injection Hb as -> ->.
        by rewrite readHashFromEntry_zeros in Hnz.
      * injection Hb as -> ->. rewrite readHashFromEntry_wrapEntry.
        unfold uint64. rewrite Z.mod_small by done.
        by rewrite lookup_insert_eq.
Qed.

Lemma Sum64_range (c : BigCache) (key : string) :
  0 <= Sum64 c key < 2 ^ 64.
Proof. unfold Sum64, uint64. apply Z.mod_pos_bound. lia. Qed.

(** The three steps of a [Set] that stores its entry in full, on a shard
    that satisfies the invariant. *)
Lemma Set_steps (c : BigCache) (now : Z) (key : string) (entry : list byte)
    (s : cacheShard) (es : list (Z * list byte)) :
  getShard c (Sum64 c key) = Some s -> shard_inv s es ->
  setInFull c now key entry = true ->
  exists (s1 : cacheShard) (es1 : list (Z * list byte)) (s2 : cacheShard)
    (es2 : list (Z * list byte)) (i : Z) (q : BytesQueue),
    resetPrevious s (Sum64 c key) = Some s1 /\
    shard_inv_at (Sum64 c key) s1 es1 /\
    hashmap s1 = hashmap s /\
    es1 = match hashmap s !! Sum64 c key with
          | Some j => resetAt j es
          | None => es
          end /\
    evictOldest c (uint64 now) s1 = Some s2 /\
    shard_inv_at (Sum64 c key) s2 es2 /\
    (es2 = es1 /\ s2 = s1 \/
     exists (i0 : Z) (b0 : list byte),
       es1 = (i0, b0) :: es2 /\
       (uint64 (uint64 now - readTimestampFromEntry b0) >? lifeWindow c)
       = true /\
       hashmap s2 = delete (readHashFromEntry b0) (hashmap s1)) /\
    Push (entries s2)
      (wrapEntry (uint64 now) (Sum64 c key) key entry) = Some (i, q) /\
    inFull (wrapEntry (uint64 now) (Sum64 c key) key entry) i q = true /\
    setShard c now (Sum64 c key) key entry s
    = Some (mkShard (<[Sum64 c key := i]> (hashmap s2)) q) /\
    shard_inv (mkShard (<[Sum64 c key := i]> (hashmap s2)) q)
      (orderAfterPush (entries s2) es2 i
         (wrapEntry (uint64 now) (Sum64 c key) key entry)).
Proof.
  intros Hs Hinv Hf.
  destruct (resetPrevious_inv _ _ (Sum64 c key) Hinv)
    as (s1 & es1 & E1 & Hinv1 & Hm1 & Hes1).
  destruct (evictOldest_inv c (uint64 now) _ _ _ Hinv1)
    as (s2 & es2 & E2 & Hinv2 & Hes2).
  unfold setInFull in Hf. rewrite Hs in Hf. cbn [mbind option_bind] in Hf.
  rewrite E1 in Hf. cbn [mbind option_bind] in Hf. rewrite E2 in Hf.
  cbn [mbind option_bind] in Hf.
  destruct (Push (entries s2) _) as [[i q]|] eqn:Ep; [|done].
  cbn [mbind option_bind] in Hf.
  destruct (pushEntry_inv _ _ _ _ _ _ _ _ (Sum64_range c key) Hinv2 Ep Hf)
    as [Hpe Hinv'].
  exists s1, es1, s2, es2, i, q. split_and!; try done.
  unfold setShard. rewrite E1. cbn [mbind option_bind]. rewrite E2.
  cbn [mbind option_bind]. done.
Qed.

(** Every shard of a cache reached by in-full [Set]s and [Clear]s satisfies
    the invariant for some list of entries. *)
Lemma reachableInFull_inv (c : BigCache) :
  reachableInFull c ->
  Forall (fun s => exists es, shard_inv s es) (shards c).
Proof.
  induction 1 as [cfg c Hv H|c now key entry c' _ IH H Hf|c _ IH].
  - apply newBigCache_Val in H as (_ & _ & _ & _ & HF); [|done].
    eapply Forall_impl; [exact HF|]. intros s (Hm & n & Hn).
    exists []. split_and!.
    + by eapply NewBytesQueue_represents.
    + intros h i Hl. by rewrite Hm in Hl.
    + intros i b Hb. by apply elem_of_nil in Hb.
  - apply Set_fields in H as (s & s' & Hs & Hs' & ->). cbn [shards].
    apply Forall_insert; [done|].
    destruct (Forall_lookup_1 _ _ _ _ IH Hs) as [es Hinv].
    destruct (Set_steps _ _ _ _ _ _ Hs Hinv Hf)
      as (s1 & es1 & s2 & es2 & i & q & _ & _ & _ & _ & _ & _ & _ & _ & _
          & Hset & Hinv').
    rewrite Hset in Hs'. injection Hs' as <-. eauto.
  - unfold Clear. cbn [shards]. apply Forall_fmap.
    eapply Forall_impl; [exact IH|]. intros s [es (Hq & _)].
    exists []. unfold clearShard. split_and!; cbn [entries hashmap compose].
    + by eapply Clear_represents.
    + intros h i Hl. done.
    + intros i b Hb. by apply elem_of_nil in Hb.
Qed.

Lemma reachableInFull_reachable (c : BigCache) :
  reachableInFull c -> reachable c.
Proof.
  induction 1 as [cfg c Hv H|c now key entry c' _ IH H Hf|c _ IH].
  - by eapply reachable_new.
  - by eapply reachable_Set.
  - by apply reachable_Clear.
Qed.

End ShardInvariant.

(** ** Consequences of the shard invariant *)

Section InvariantUse.

Import queue QueueSpec bigcache CacheSpec.

Lemma shard_inv_lookup (s : cacheShard) (es : list (Z * list byte))
    (h i : Z) :
  shard_inv s es -> hashmap s !! h = Some i ->
  0 < i /\
  exists b : list byte,
    (i, b) ∈ es /\ readHashFromEntry b = h /\
    queue.Get (entries s) i = Some (Val b).
Proof.
  intros (Hq & H2 & _) Hl. destruct (H2 _ _ Hl) as (b & Hb & Hh).
  destruct (represents_elem _ _ _ _ Hq Hb) as [Hi He].
  split; [done|]. exists b. split_and!; [done|done|by apply Get_entry].
Qed.

Lemma shard_inv_injective (s : cacheShard) (es : list (Z * list byte))
    (h h' i : Z) :
  shard_inv s es -> hashmap s !! h = Some i -> hashmap s !! h' = Some i ->
  h = h'.
Proof.
  intros Hinv Hl Hl'. pose proof Hinv as (Hq & H2 & _).
  destruct (H2 _ _ Hl) as (b & Hb & <-).
  destruct (H2 _ _ Hl') as (b' & Hb' & <-).
  by rewrite (represents_unique _ _ _ _ _ Hq Hb Hb').
Qed.

Lemma size_list_to_set_le (l : list Z) :
  (size (list_to_set l : gset Z) <= length l)%nat.
Proof.
  induction l as [|x l IH]; [by rewrite list_to_set_nil, size_empty|].
  rewrite list_to_set_cons. cbn [length].
  destruct (decide (x ∈ (list_to_set l : gset Z))) as [Hin|Hni].
  - transitivity (size (list_to_set l : gset Z)); [|lia].
    apply subseteq_size. intros y [->%elem_of_singleton|Hy]%elem_of_union;
      done.
  - rewrite size_union.
    + rewrite size_singleton. lia.
    + intros y ->%elem_of_singleton Hy. done.
Qed.

Lemma shard_inv_size (s : cacheShard) (es : list (Z * list byte)) :
  shard_inv s es -> Z.of_nat (size (hashmap s)) <= Len (entries s).
Proof.
  intros ((_ & _ & Hc & _) & H2 & _). unfold Len. rewrite Hc. unfold len.
  apply inj_le. rewrite <- (size_dom (D := gset Z)).
  rewrite <- (length_fmap (fun e : Z * list byte => readHashFromEntry e.2) es).
  etransitivity; [|apply size_list_to_set_le].
  apply subseteq_size. intros h [i Hi]%elem_of_dom.
  destruct (H2 _ _ Hi) as (b & Hb & Hh).
  apply elem_of_list_to_set, list_elem_of_fmap. by exists (i, b).
Qed.

Lemma readTimestampFromEntry_reset (b : list byte) :
  readTimestampFromEntry (resetKeyFromEntry b) = readTimestampFromEntry b.
Proof.
  unfold readTimestampFromEntry, resetKeyFromEntry. f_equal.
  destruct (decide (8 <= length b)%nat) as [H8|H8].
  - rewrite take_app_length'; [done|]. rewrite length_take. lia.
  - rewrite (take_ge b 8) by lia. rewrite (drop_ge b 16) by lia.
    replace (length b - 8)%nat with 0%nat by lia.
    cbn [take]. rewrite !app_nil_r. apply take_ge. lia.
Qed.

(** A [Set] that stores its entry in full leaves the map entry and the blob
    of another hash in the same shard as they were, unless that blob is the
    oldest and expired. *)
Lemma Set_steps_keep (c : BigCache) (now : Z) (key : string)
    (entry : list byte) (s s' : cacheShard) (es : list (Z * list byte))
    (ho i : Z) (blob : list byte) :
  getShard c (Sum64 c key) = Some s -> shard_inv s es ->
  setInFull c now key entry = true ->
  setShard c now (Sum64 c key) key entry s = Some s' ->
  ho <> Sum64 c key ->
  hashmap s !! ho = Some i ->
  queue.Get (entries s) i = Some (Val blob) ->
  (forall oldest : list byte,
     Peek (entries s) = Some (Val oldest) ->
     uint64 (uint64 now - readTimestampFromEntry oldest) <= lifeWindow c \/
     (readHashFromEntry oldest <> ho /\ ho <> 0)) ->
  hashmap s' !! ho = Some i /\
  queue.Get (entries s') i = Some (Val blob).
Proof.
  intros Hs Hinv Hf Hs' Hne Hl Hg Hold.
  destruct (shard_inv_lookup _ _ _ _ Hinv Hl) as (Hi & b & Hb & Hhb & Hg').
  assert (blob = b) as -> by congruence. clear Hg'.
  destruct (Set_steps _ _ _ _ _ _ Hs Hinv Hf)
    as (s1 & es1 & s2 & es2 & i' & q & _ & Hinv1 & Hm1 & Hes1 & _ & Hinv2
        & Hev & _ & _ & Hset & Hinv').
  rewrite Hset in Hs'. injection Hs' as <-.
  (* after the reset *)
  assert (Hb1 : (i, b) ∈ es1).
  { subst es1. destruct (hashmap s !! Sum64 c key) as [j|] eqn:Hj; [|done].
    apply resetAt_elem_other; [done|]. intros Heq. rewrite <- Heq in Hj.
    apply Hne. exact (shard_inv_injective _ _ _ _ _ Hinv Hl Hj). }
  (* after the eviction attempt *)
  assert (Hb2 : (i, b) ∈ es2 /\ hashmap s2 !! ho = Some i).
  { destruct Hev as [[-> ->]|(i0 & b0 & Hes & Hexp & Hm2)].
    - by rewrite Hm1.
    - assert (Hh0 : readHashFromEntry b0 <> ho).
      { pose proof Hinv as (Hq & _).
        pose proof (Peek_represents _ _ Hq) as Hpk.
        assert (exists o rest, es = (i0, o) :: rest /\
                  (b0 = o \/ b0 = resetKeyFromEntry o)) as (o & rest & -> & Ho).
        { rewrite Hes in Hes1.
          destruct (hashmap s !! Sum64 c key) as [j|].
          - destruct es as [|[i1 o] rest]; [done|].
            unfold resetAt in Hes1. cbn [fmap list_fmap fst snd] in Hes1.
            destruct (i1 =? j); injection Hes1 as -> -> _; eauto.
          - subst es. eauto. }
        destruct (Hold _ Hpk) as [Hfresh|[Hho Hnz]].
        - exfalso. apply Z.gtb_lt in Hexp.
          destruct Ho as [->| ->];
            [|rewrite readTimestampFromEntry_reset in Hexp]; lia.
        - destruct Ho as [->| ->]; [done|].
          rewrite readHashFromEntry_reset. congruence. }
      rewrite Hm2, lookup_delete_ne, Hm1 by done. split; [|done].
      rewrite Hes in Hb1. apply elem_of_cons in Hb1 as [[= -> ->]|Hb1];
        [done|done]. }
  destruct Hb2 as [Hb2 Hl2]. cbn [hashmap entries].
  split; [by rewrite lookup_insert_ne|].
  pose proof Hinv' as (Hq' & _). cbn [entries] in Hq'.
  destruct (represents_elem _ _ _ _ Hq' (orderAfterPush_elem _ _ _ _ _ Hb2))
    as [_ He].
  by apply Get_entry.
Qed.

Lemma iterateKeys_all (shard : cacheShard) (keys : list Z) :
  (forall h, h ∈ keys ->
     exists kv, getKeyAndValue shard h = Some (Val kv)) ->
  exists calls : list (string * list byte),
    iterateKeys shard keys = Some calls /\ length calls = length keys.
Proof.
  induction keys as [|h keys IH]; intros H; [by exists []|].
  destruct (H h) as [kv Hkv]; [apply list_elem_of_here|].
  destruct IH as (calls & Hc & Hlen).
  { intros h' Hh'. apply H. by apply list_elem_of_further. }
  exists (kv :: calls). cbn [iterateKeys]. rewrite Hkv, Hc.
  cbn [mbind option_bind length]. by rewrite Hlen.
Qed.

Lemma shard_inv_getKeyAndValue (s : cacheShard) (es : list (Z * list byte))
    (h i : Z) :
  shard_inv s es -> hashmap s !! h = Some i ->
  exists kv, getKeyAndValue s h = Some (Val kv).
Proof.
  intros Hinv Hl.
  destruct (shard_inv_lookup _ _ _ _ Hinv Hl) as (Hi & b & _ & _ & Hg).
  unfold getKeyAndValue. rewrite Hl. cbn [default from_option]. unfold id.
  destruct (i =? 0) eqn:E; [lia|]. rewrite Hg. cbn [mbind option_bind].
  eauto.
Qed.

Lemma Iterate_all (ss : list cacheShard) :
  Forall (fun s => exists es, shard_inv s es) ss ->
  exists calls : list (list (string * list byte)),
    mapM (fun shard => iterateKeys shard (map_to_list (hashmap shard)).*1) ss
    = Some calls /\
    length (concat calls)
    = sum_list ((fun s => size (hashmap s)) <$> ss).
Proof.
  induction 1 as [|s ss [es Hinv] _ (calls & Hc & Hlen)]; [by exists []|].
  destruct (iterateKeys_all s (map_to_list (hashmap s)).*1)
    as (cs & Hcs & Hl).
  { intros h [i Hi]%elem_of_map_keys.
    by eapply shard_inv_getKeyAndValue. }
  exists (cs :: calls). cbn [mapM]. rewrite Hcs, Hc.
  cbn [mbind option_bind mret option_ret concat fmap list_fmap sum_list
       sum_list_with].
  split; [done|]. rewrite length_app, Hl, length_fmap.
  unfold sum_list in Hlen. rewrite Hlen. f_equal.
  unfold id. apply length_map_to_list.
Qed.

Lemma storedBlob_Some (c : BigCache) (key : string) (blob : list byte) :
  storedBlob c key = Some blob <->
  exists (s : cacheShard) (i : Z),
    getShard c (Sum64 c key) = Some s /\
    hashmap s !! Sum64 c key = Some i /\ i <> 0 /\
    queue.Get (entries s) i = Some (Val blob).
Proof.
  unfold storedBlob. split.
  - intros H. bind_inv H s Es. exists s.
    destruct (hashmap s !! Sum64 c key) as [i|] eqn:Hl;
      cbn [default from_option] in H; unfold id in H; [|done].
    exists i. destruct (i =? 0) eqn:E; [done|].
    bind_inv H r Er. destruct r as [b|e]; [|done]. injection H as ->.
    split_and!; [done|done|lia|done].
  - intros (s & i & -> & Hl & Hi & Hg). cbn [mbind option_bind].
    rewrite Hl. cbn [default from_option]. unfold id.
    destruct (i =? 0) eqn:E; [lia|]. by rewrite Hg.
Qed.

End InvariantUse.

(** X17.  On a cache reached from the constructor by [Clear] and by [Set]
    calls that store their entry in full, the map of a shard never holds
    more keys than its queue holds entries, and no two keys of the map share
    an index. *)
Theorem map_within_queue (c : bigcache.BigCache) (s : bigcache.cacheShard) :
  CacheSpec.reachableInFull c -> s ∈ bigcache.shards c ->
  Z.of_nat (size (bigcache.hashmap s)) <= queue.Len (bigcache.entries s) /\
  forall h h' i : Z,
    bigcache.hashmap s !! h = Some i -> bigcache.hashmap s !! h' = Some i ->
    h = h'.
Proof.
  intros Hr Hs. pose proof (reachableInFull_inv _ Hr) as HF.
  rewrite Forall_forall in HF. destruct (HF _ Hs) as [es Hinv]. split.
  - by eapply shard_inv_size.
  - intros h h' i. by eapply shard_inv_injective.
Qed.

(** X18.  On such a cache every map entry of a shard holds a positive index
    at which the queue reads, without error, a blob whose hash field is the
    key of the map entry. *)
Theorem map_entries_readable (c : bigcache.BigCache)
    (s : bigcache.cacheShard) (h i : Z) :
  CacheSpec.reachableInFull c -> s ∈ bigcache.shards c ->
  bigcache.hashmap s !! h = Some i ->
  0 < i /\
  exists blob : list byte,
    queue.Get (bigcache.entries s) i = Some (Val blob) /\
    bigcache.readHashFromEntry blob = h.
Proof.
  intros Hr Hs Hl. pose proof (reachableInFull_inv _ Hr) as HF.
  rewrite Forall_forall in HF. destruct (HF _ Hs) as [es Hinv].
  destruct (shard_inv_lookup _ _ _ _ Hinv Hl) as (Hi & b & _ & Hh & Hg).
  eauto.
Qed.

(** X19.  On such a cache [Get] never panics and never returns a queue
    error: it returns the not-found error for the key, or a value. *)
Theorem Get_total_in_full_runs (c : bigcache.BigCache) (key : string) :
  CacheSpec.reachableInFull c ->
  bigcache.Get c key = Some (Error (bigcache.notFound key)) \/
  exists v : list byte, bigcache.Get c key = Some (Val v).
Proof.
  intros Hr. pose proof (reachableInFull_inv _ Hr) as HF.
  pose proof (reachable_shards_ok _ (reachableInFull_reachable _ Hr)) as Hok.
  destruct (shards_ok_getShard c (bigcache.Sum64 c key) Hok) as [s Hs].
  destruct (Forall_lookup_1 _ _ _ _ HF Hs) as [es Hinv].
  unfold bigcache.Get. rewrite Hs. cbn [mbind option_bind].
  destruct (bigcache.hashmap s !! bigcache.Sum64 c key) as [i|] eqn:Hl.
  - destruct (shard_inv_lookup _ _ _ _ Hinv Hl) as (Hi & b & _ & _ & Hg).
    cbn [default from_option]. unfold id.
    destruct (i =? 0) eqn:E; [lia|]. rewrite Hg. cbn [mbind option_bind].
    destruct (negb _); eauto.
  - left. done.
Qed.

(** X20.  On such a cache [Iterate] never panics and skips no map entry: it
    calls [accept] once for every key of every shard's map. *)
Theorem Iterate_one_call_per_entry (c : bigcache.BigCache) :
  CacheSpec.reachableInFull c ->
  exists calls : list (string * list byte),
    bigcache.Iterate c = Some calls /\
    length calls
    = sum_list ((fun s => size (bigcache.hashmap s)) <$> bigcache.shards c).
Proof.
  intros Hr. pose proof (reachableInFull_inv _ Hr) as HF.
  destruct (Iterate_all _ HF) as (calls & Hc & Hlen).
  exists (concat calls). unfold bigcache.Iterate. rewrite Hc. done.
Qed.

(** X21.  On such a cache, a [Set] that stores its entry in full does not
    disturb a key with another hash: a value that [Get] returned for it
    before is returned after, provided the oldest entry of the shard is
    within the life window, or carries another hash than the key and the
    hash of the key is not zero. *)
Theorem Set_keeps_other_keys (c : bigcache.BigCache) (now : Z)
    (key : string) (entry : list byte) (c' : bigcache.BigCache)
    (other : string) (v : list byte) :
  CacheSpec.reachableInFull c ->
  bigcache.Set_ c now key entry = Some c' ->
  CacheSpec.setInFull c now key entry = true ->
  bigcache.Sum64 c other <> bigcache.Sum64 c key ->
  bigcache.Get c other = Some (Val v) ->
  (forall (s : bigcache.cacheShard) (oldest : list byte),
     bigcache.getShard c (bigcache.Sum64 c key) = Some s ->
     queue.Peek (bigcache.entries s) = Some (Val oldest) ->
     uint64 (uint64 now - bigcache.readTimestampFromEntry oldest)
     <= bigcache.lifeWindow c \/
     (bigcache.readHashFromEntry oldest <> bigcache.Sum64 c other /\
      bigcache.Sum64 c other <> 0)) ->
  bigcache.Get c' other = Some (Val v).
Proof.
  intros Hr HS Hf Hne HG Hold.
  pose proof (reachableInFull_inv _ Hr) as HF.
  apply Set_fields in HS as (s & s' & Hs & Hs' & ->).
  apply Get_Val_storedBlob in HG as (blob & Hb & Hk & ->).
  assert (Hb' : CacheSpec.storedBlob
                  (bigcache.mkCache
                     (<[bigcache.shardIndex c (bigcache.Sum64 c key) := s']>
                        (bigcache.shards c))
                     (bigcache.lifeWindow c) (bigcache.hash c)
                     (bigcache.config c) (bigcache.shardMask c)
                     (bigcache.shardSize c)) other = Some blob).
  { apply storedBlob_Some in Hb as (so & i & Hso & Hl & Hi & Hg).
    apply storedBlob_Some.
    unfold bigcache.getShard, bigcache.Sum64, bigcache.shardIndex in *.
    cbn [bigcache.shards bigcache.hash bigcache.shardMask].
    destruct (decide (Z.to_nat (Z.land (uint64 (bigcache.hash c other))
                                  (bigcache.shardMask c))
                      = Z.to_nat (Z.land (uint64 (bigcache.hash c key))
                                    (bigcache.shardMask c)))) as [Heq|Hd].
    - rewrite Heq in Hso |- *. rewrite Hs in Hso. injection Hso as <-.
      rewrite list_lookup_insert_eq by (by eapply lookup_lt_Some).
      destruct (Forall_lookup_1 _ _ _ _ HF Hs) as [es Hinv].
      destruct (Set_steps_keep c now key entry s s' es _ i blob
                  Hs Hinv Hf Hs' Hne Hl Hg (fun o => Hold s o Hs))
        as [Hl' Hg'].
      exists s', i. by split_and!.
    - rewrite list_lookup_insert_ne by done. exists so, i. by split_and!. }
  rewrite (Get_storedBlob _ _ _ Hb'). rewrite Hk.
  by rewrite String.eqb_refl.
Qed.


(** ** Calls that cannot panic *)

Section Totality.

Import queue QueueSpec bigcache CacheSpec.

Lemma len_le_encode (n : nat) (z : Z) : len (le_encode n z) = Z.of_nat n.
Proof. unfold len. by rewrite length_le_encode. Qed.

Lemma copy_total (q : BytesQueue) (data : list byte) :
  0 <= tail q <= len (array q) ->
  exists q' : BytesQueue,
    copy q data (len data) = Some q' /\
    tail q <= tail q' <= len (array q') /\
    len (array q') = len (array q).
Proof.
  intros Ht. unfold copy. rewrite slice_whole. cbn [mbind option_bind].
  unfold copy_at.
  destruct ((0 <=? tail q) && (tail q <=? len (array q))) eqn:E.
  - cbn [mbind option_bind]. eexists. split; [done|].
    cbn [tail array set_tail set_array]. pose proof (len_nonneg data).
    unfold len. rewrite !length_app, !length_take, length_drop.
    fold (len data). unfold len in *. lia.
  - apply andb_false_iff in E as [E|E]; lia.
Qed.

Lemma push_total (q : BytesQueue) (d : list byte) :
  0 <= tail q <= len (array q) ->
  exists q' : BytesQueue,
    push q d (len d) = Some q' /\
    tail q <= tail q' <= len (array q') /\
    len (array q') = len (array q).
Proof.
  intros Ht. unfold push.
  destruct (copy_total q (le_encode 4 (uint32 (len d)))) as (q1 & E1 & Ht1 & Hl1);
    [done|].
  rewrite len_le_encode in E1. change (Z.of_nat 4) with headerEntrySize in E1.
  rewrite E1. cbn [mbind option_bind].
  destruct (copy_total q1 d) as (q2 & E2 & Ht2 & Hl2); [lia|].
  rewrite E2. cbn [mbind option_bind]. eexists. split; [done|].
  destruct (tail q2 >? head q2);
    cbn [tail array set_count set_rightMargin]; lia.
Qed.

Lemma represents_margin (q : BytesQueue) (es : list (Z * list byte)) :
  represents q es -> leftMarginIndex <> rightMargin q ->
  leftMarginIndex <= rightMargin q <= len (array q).
Proof.
  unfold leftMarginIndex.
  intros (Hlen & Hh & Hc & [(Hr & Hch & Hnil)|(es1 & es2 & -> & Hn1 & Hn2 & Hgap & H1 & H2)]) Hne.
  - destruct es as [|e es].
    + cbn [chain] in Hch. unfold leftMarginIndex in *.
      specialize (Hnil eq_refl). lia.
    + destruct (chain_nonempty _ _ _ _ Hch) as (? & ? & ?); [done|].
      unfold leftMarginIndex in *. lia.
  - destruct (chain_nonempty _ _ _ _ H1 Hn1) as (? & ? & ?).
    unfold leftMarginIndex in *. lia.
Qed.

Lemma represents_tail (q : BytesQueue) (es : list (Z * list byte)) :
  represents q es -> es <> [] -> leftMarginIndex <= tail q <= len (array q).
Proof.
  unfold leftMarginIndex.
  intros (Hlen & Hh & Hc & [(Hr & Hch & Hnil)|(es1 & es2 & -> & Hn1 & Hn2 & Hgap & H1 & H2)]) Hne.
  - destruct (chain_nonempty _ _ _ _ Hch Hne) as (? & ? & ?).
    unfold leftMarginIndex in *. lia.
  - destruct (chain_nonempty _ _ _ _ H2 Hn2) as (? & ? & ?).
    unfold leftMarginIndex in *. lia.
Qed.

Lemma represents_empty (q : BytesQueue) :
  represents q [] ->
  head q = leftMarginIndex /\ tail q = leftMarginIndex /\
  rightMargin q = leftMarginIndex.
Proof.
  intros (Hlen & Hh & Hc & [(Hr & Hch & Hnil)|(es1 & es2 & Heq & Hn1 & _)]).
  - cbn [chain] in Hch. specialize (Hnil eq_refl). lia.
  - by destruct es1.
Qed.

Lemma copy_at_total (dst : list byte) (off : Z) (src : list byte) :
  0 <= off <= len dst ->
  exists (a : list byte) (n : Z),
    copy_at dst off src = Some (a, n) /\ len a = len dst.
Proof.
  intros Ho. destruct (copy_at dst off src) as [[a n]|] eqn:E.
  - exists a, n. split; [done|].
    by destruct (copy_at_spec _ _ _ _ _ E) as (_ & _ & ? & _).
  - unfold copy_at in E.
    destruct ((0 <=? off) && (off <=? len dst)) eqn:E'; [done|].
    apply andb_false_iff in E' as [E'|E']; lia.
Qed.

Lemma make_total (n : Z) :
  0 <= n -> make n = Some (replicate (Z.to_nat n) x00).
Proof. intros Hn. unfold make. destruct (n <? 0) eqn:E; [lia|done]. Qed.

Lemma len_replicate (n : Z) (b : byte) :
  0 <= n -> len (replicate (Z.to_nat n) b) = n.
Proof. intros Hn. unfold len. rewrite length_replicate. lia. Qed.

(** Growing the array of a queue that holds its entries cannot panic, and
    leaves the tail inside the new array. *)
Lemma allocate_total (q : BytesQueue) (es : list (Z * list byte)) (m : Z) :
  represents q es -> 0 <= m -> 1 <= capacity q \/ 1 <= m ->
  exists q' : BytesQueue,
    allocateAdditionalMemory q m = Some q' /\
    0 <= tail q' <= len (array q').
Proof.
  intros Hq Hm Hpos. pose proof Hq as (Hlen & Hh & Hc & Hgeo).
  pose proof (len_nonneg (array q)) as Hcap0.
  unfold allocateAdditionalMemory.
  set (cap2 := (if capacity q <? m then capacity q + m else capacity q) * 2).
  assert (Hcap2 : capacity q <= cap2 /\ 2 <= cap2).
  { subst cap2. destruct (capacity q <? m) eqn:E; lia. }
  rewrite make_total by lia. cbn [mbind option_bind rightMargin array].
  destruct (leftMarginIndex =? rightMargin q) eqn:Erm; cbn [negb].
  - eexists. split; [done|]. cbn [tail array].
    rewrite len_replicate by lia.
    destruct es as [|e es].
    + destruct (represents_empty _ Hq) as (_ & -> & _).
      unfold leftMarginIndex. lia.
    + destruct (represents_tail _ _ Hq) as [? ?]; [done|].
      unfold leftMarginIndex in *. lia.
  - destruct (represents_margin _ _ Hq) as [Hrm1 Hrm2]; [lia|].
    unfold leftMarginIndex in Hrm1.
    rewrite slice_segment by lia. cbn [mbind option_bind].
    destruct (copy_at_total (replicate (Z.to_nat cap2) x00) 0
                (segment (array q) 0 (rightMargin q - 0)))
      as (a & n & -> & Hla).
    { rewrite len_replicate by lia. lia. }
    rewrite len_replicate in Hla by lia.
    cbn [mbind option_bind tail head set_array].
    destruct (tail q <? head q) eqn:Ew.
    + destruct (represents_gap _ _ Hq) as (Hgap & Hhr & Hrc & Ht); [lia|].
      unfold minimumEmptyBlobSize, headerEntrySize, leftMarginIndex in *.
      rewrite make_total by lia. cbn [mbind option_bind].
      set (q2 := mkQueue a cap2 (head q) (tail q) (count q) (rightMargin q)).
      destruct (push_total q2 (replicate (Z.to_nat (head q - tail q - 4)) x00))
        as (q3 & E3 & Ht3 & Hl3).
      { subst q2. cbn [tail array]. lia. }
      rewrite len_replicate in E3 by lia.
      change (set_array _ a) with q2. rewrite E3.
      cbn [mbind option_bind]. eexists. split; [done|].
      cbn [tail array set_tail set_head].
      destruct (push_fields _ _ _ _ E3) as (_ & _ & _ & _ & [Hr|Hr]);
        rewrite Hr; subst q2; cbn [tail array rightMargin] in *; lia.
    + eexists. split; [done|]. cbn [tail array set_array].
      destruct es as [|e es].
      * destruct (represents_empty _ Hq) as (_ & _ & ?).
        apply Z.eqb_neq in Erm. done.
      * destruct (represents_tail _ _ Hq) as [? ?]; [done|].
        unfold leftMarginIndex in *. lia.
Qed.

(** [Push] on a queue that holds its entries cannot panic, unless the queue
    was created with capacity zero and the data is empty. *)
Lemma Push_total (q : BytesQueue) (es : list (Z * list byte))
    (d : list byte) :
  represents q es -> 1 <= capacity q \/ 1 <= len d ->
  exists (i : Z) (q' : BytesQueue), Push q d = Some (i, q').
Proof.
  intros Hq Hpos. pose proof Hq as (Hlen & Hh & Hc & Hgeo).
  pose proof (len_nonneg d) as Hd.
  unfold Push.
  assert (exists q1, (if availableSpaceAfterTail q <? len d + headerEntrySize
                      then
                        if availableSpaceBeforeHead q
                           >=? len d + headerEntrySize
                        then Some (set_tail q leftMarginIndex)
                        else allocateAdditionalMemory q (len d)
                      else Some q) = Some q1 /\
                     0 <= tail q1 <= len (array q1)) as (q1 & -> & Ht).
  { unfold availableSpaceAfterTail, availableSpaceBeforeHead.
    unfold minimumEmptyBlobSize, headerEntrySize, leftMarginIndex in *.
    destruct (tail q >=? head q) eqn:Eth.
    - destruct (capacity q - tail q <? len d + 4) eqn:E1.
      + destruct (head q - 1 - (32 + 4) >=? len d + 4) eqn:E2.
        * eexists. split; [done|]. cbn [tail array set_tail].
          destruct es as [|e es].
          -- destruct (represents_empty _ Hq) as (? & _).
             unfold leftMarginIndex in *. lia.
          -- destruct e as [i0 b0].
             destruct (represents_elem _ _ _ _ Hq (list_elem_of_here _ _))
               as [? (? & ? & _)].
             pose proof (len_nonneg b0). unfold headerEntrySize in *. lia.
        * by eapply allocate_total.
      + eexists. split; [done|]. lia.
    - destruct (head q - tail q - (32 + 4) <? len d + 4) eqn:E1.
      + destruct (head q - tail q - (32 + 4) >=? len d + 4) eqn:E2; [lia|].
        by eapply allocate_total.
      + eexists. split; [done|].
        destruct (represents_gap _ _ Hq) as (? & ? & ? & ?); [lia|].
        unfold leftMarginIndex in *. lia. }
  cbn [mbind option_bind].
  destruct (push_total q1 d Ht) as (q2 & -> & _). cbn [mbind option_bind].
  eauto.
Qed.

Lemma runInFull_capacity (calls : list call) (q : BytesQueue)
    (es : list (Z * list byte)) (q' : BytesQueue)
    (es' : list (Z * list byte)) :
  represents q es -> runInFull q es calls = Some (q', es') ->
  capacity q <= capacity q'.
Proof.
  revert q es. induction calls as [|[d| |] calls IH]; intros q es Hq H;
    cbn [runInFull] in H.
  - injection H as <- _. lia.
  - bind_inv H p Ep. destruct p as [i q1]. destruct (inFull d i q1) eqn:Ef;
      [|done].
    pose proof Hq as (Hlen & _).
    destruct (Push_capacity _ _ _ _ Hlen Ep) as [_ Hle].
    pose proof (Push_represents _ _ _ _ _ Hq Ep Ef) as Hq1.
    specialize (IH _ _ Hq1 H). lia.
  - bind_inv H p Ep. destruct p as [r q1].
    destruct (Pop_capacity _ _ _ Ep) as [_ Hcap].
    assert (Hq1 : represents q1 (drop 1 es)).
    { destruct es as [|[h b] es].
      - rewrite (Pop_empty _ Hq) in Ep. injection Ep as _ <-. done.
      - destruct (Pop_represents _ _ _ _ Hq) as (q2 & Hp & Hq2 & _).
        rewrite Hp in Ep. injection Ep as _ <-. done. }
    specialize (IH _ _ Hq1 H). lia.
  - specialize (IH _ _ (Clear_represents _ _ Hq) H).
    unfold Clear in IH. cbn [capacity] in IH. done.
Qed.

Lemma len_wrapEntry (ts h : Z) (key : string) (v : list byte) :
  headersSizeInBytes <= len (wrapEntry ts h key v).
Proof.
  unfold wrapEntry, len. rewrite !length_app, !length_le_encode.
  unfold headersSizeInBytes, timestampSizeInBytes, hashSizeInBytes,
    keySizeInBytes. lia.
Qed.

End Totality.

(** X22.  On a queue reached from [NewBytesQueue] by pushes that were stored
    in full, pops and clears, a further [Push] cannot panic, whatever the
    data, unless the queue was created with capacity zero and the data is
    empty.  (Running out of memory is not part of the model.) *)
Theorem Push_total_in_full_runs (n : Z) (q0 : queue.BytesQueue)
    (calls : list QueueSpec.call) (q : queue.BytesQueue)
    (es : list (Z * list byte)) (d : list byte) :
  queue.NewBytesQueue n = Some q0 ->
  QueueSpec.runInFull q0 [] calls = Some (q, es) ->
  1 <= n \/ 1 <= len d ->
  exists (i : Z) (q' : queue.BytesQueue), queue.Push q d = Some (i, q').
Proof.
  intros Hn Hrun Hpos.
  pose proof (NewBytesQueue_represents _ _ Hn) as Hq0.
  pose proof (runInFull_represents _ _ _ _ _ Hq0 Hrun) as Hq.
  pose proof (runInFull_capacity _ _ _ _ _ Hq0 Hrun) as Hcap.
  apply (Push_total q es d Hq).
  destruct Hpos as [Hpos|Hpos]; [left|by right].
  unfold queue.NewBytesQueue in Hn. bind_inv Hn a Ea. injection Hn as <-.
  cbn [queue.capacity] in Hcap. lia.
Qed.

(** X23.  On a cache reached from the constructor by [Clear] and by [Set]
    calls that stored their entry in full, a further [Set] cannot panic,
    whatever the time, the key and the value.  (Running out of memory is
    not part of the model.) *)
Theorem Set_total_in_full_runs (c : bigcache.BigCache) (now : Z)
    (key : string) (entry : list byte) :
  CacheSpec.reachableInFull c ->
  exists c' : bigcache.BigCache, bigcache.Set_ c now key entry = Some c'.
Proof.
  intros Hr. pose proof (reachableInFull_inv _ Hr) as HF.
  pose proof (reachable_shards_ok _ (reachableInFull_reachable _ Hr)) as Hok.
  destruct (shards_ok_getShard c (bigcache.Sum64 c key) Hok) as [s Hs].
  destruct (Forall_lookup_1 _ _ _ _ HF Hs) as [es Hinv].
  destruct (resetPrevious_inv _ _ (bigcache.Sum64 c key) Hinv)
    as (s1 & es1 & E1 & Hinv1 & _).
  destruct (evictOldest_inv c (uint64 now) _ _ _ Hinv1)
    as (s2 & es2 & E2 & (Hq2 & _) & _).
  destruct (Push_total _ _
              (bigcache.wrapEntry (uint64 now) (bigcache.Sum64 c key) key
                 entry) Hq2) as (i & q & Ep).
  { right. pose proof (len_wrapEntry (uint64 now) (bigcache.Sum64 c key) key
                         entry) as Hw.
    unfold bigcache.headersSizeInBytes, bigcache.timestampSizeInBytes,
      bigcache.hashSizeInBytes, bigcache.keySizeInBytes in Hw. lia. }
  unfold bigcache.Set_. rewrite Hs. cbn [mbind option_bind].
  unfold bigcache.setShard. rewrite E1. cbn [mbind option_bind].
  rewrite E2. cbn [mbind option_bind].
  unfold bigcache.pushEntry. rewrite Ep. cbn [mbind option_bind]. eauto.
Qed.


(** ** When a push is stored in full *)

Section InFullCriterion.

Import queue QueueSpec.

(** How far [push] moves the tail: as far as the array has room. *)
Lemma push_tail (q : BytesQueue) (d : list byte) (q' : BytesQueue) :
  push q d (len d) = Some q' ->
  tail q' - tail q
  = Z.min (len (array q) - tail q) (headerEntrySize + len d) /\
  capacity q' = capacity q.
Proof.
  intros H. pose proof (len_nonneg d) as Hd. unfold push in H.
  bind_inv H q1 E1. bind_inv H q2 E2. injection H as <-.
  apply copy_spec in E1
    as (Ht0 & Hn1 & Hl1 & _ & _ & _ & Hh1 & _ & _ & Hk1);
    [|by rewrite len_le_encode].
  apply copy_spec in E2
    as (Ht1 & Hn2 & Hl2 & _ & _ & _ & Hh2 & _ & _ & Hk2); [|done].
  rewrite len_le_encode in Hn1. unfold headerEntrySize.
  change (Z.of_nat 4) with 4 in Hn1.
  assert (Ht : tail (set_count
                       (if tail q2 >? head q2
                        then set_rightMargin q2 (tail q2) else q2)
                       (count (if tail q2 >? head q2
                               then set_rightMargin q2 (tail q2) else q2)
                        + 1)) = tail q2)
    by (destruct (tail q2 >? head q2); done).
  assert (Hc : capacity (set_count
                       (if tail q2 >? head q2
                        then set_rightMargin q2 (tail q2) else q2)
                       (count (if tail q2 >? head q2
                               then set_rightMargin q2 (tail q2) else q2)
                        + 1)) = capacity q2)
    by (destruct (tail q2 >? head q2); done).
  rewrite Ht, Hc. split; lia.
Qed.

End InFullCriterion.

(** X24.  On every reachable queue, [Push] stores header and data completely
    exactly when the entry fits between the returned index and the capacity
    the queue has after the push; otherwise the tail stops at the end of
    the array. *)
Theorem Push_in_full_iff_fits (q : queue.BytesQueue) (d : list byte) (i : Z)
    (q' : queue.BytesQueue) :
  QueueSpec.reachable q -> queue.Push q d = Some (i, q') ->
  (QueueSpec.storedInFull d i q' <->
   i + queue.headerEntrySize + len d <= queue.Capacity q') /\
  (~ QueueSpec.storedInFull d i q' -> queue.tail q' = queue.Capacity q').
Proof.
  intros Hr H. pose proof (reachable_capacity _ Hr) as Hlen.
  unfold queue.Push in H. bind_inv H q1 E1. bind_inv H q2 E2.
  injection H as <- <-.
  assert (Hl1 : len (queue.array q1) = queue.capacity q1).
  { destruct (_ <? _); [|by injection E1 as <-].
    destruct (_ >=? _); [by injection E1 as <-|].
    by destruct (allocate_capacity _ _ _ Hlen E1) as (? & _). }
  destruct (push_tail _ _ _ E2) as [Ht Hc].
  unfold QueueSpec.storedInFull, queue.Capacity.
  pose proof (len_nonneg d). unfold queue.headerEntrySize in *.
  split; [split|]; lia.
Qed.

(** ** Expiry of the oldest entry *)

Section Expiry.

Import queue QueueSpec bigcache CacheSpec.

(** On a shard that satisfies the invariant, [Set] for the hash [h] evicts
    an expired oldest entry that carries another hash, and removes that hash
    from the map. *)
Lemma setShard_evicts (c : BigCache) (now h : Z) (key : string)
    (entry : list byte) (s s' : cacheShard) (es : list (Z * list byte))
    (oldest : list byte) :
  shard_inv s es ->
  setShard c now h key entry s = Some s' ->
  Peek (entries s) = Some (Val oldest) ->
  readHashFromEntry oldest <> h ->
  lifeWindow c < uint64 (uint64 now - readTimestampFromEntry oldest) ->
  hashmap s' !! readHashFromEntry oldest = None.
Proof.
  intros Hinv Hs' Hpk Hne Hexp. pose proof Hinv as (Hq & H2 & _).
  rewrite (Peek_represents _ _ Hq) in Hpk.
  destruct es as [|[i0 o] rest]; [done|]. injection Hpk as ->.
  destruct (resetPrevious_inv _ _ h Hinv) as (s1 & es1 & E1 & Hinv1 & Hm1 & Hes1).
  assert (exists rest1, es1 = (i0, oldest) :: rest1) as [rest1 ->].
  { destruct (hashmap s !! h) as [j|] eqn:Hj; [|by eauto].
    destruct (H2 _ _ Hj) as (b & Hb & Hhb).
    unfold resetAt in Hes1. cbn [fmap list_fmap fst snd] in Hes1.
    destruct (i0 =? j) eqn:E; [|by eauto].
    exfalso. apply Hne. apply Z.eqb_eq in E. subst j.
    by rewrite (represents_unique _ _ _ _ _ Hq (list_elem_of_here _ _) Hb). }
  destruct Hinv1 as (Hq1 & _).
  destruct (Pop_represents _ _ _ _ Hq1) as (q' & Hp & _).
  unfold setShard in Hs'. rewrite E1 in Hs'. cbn [mbind option_bind] in Hs'.
  unfold evictOldest in Hs'. rewrite (Peek_represents _ _ Hq1) in Hs'.
  cbn [mbind option_bind] in Hs'. unfold onEvict in Hs'.
  destruct (uint64 (uint64 now - readTimestampFromEntry oldest)
            >? lifeWindow c) eqn:E; [|lia].
  unfold evict in Hs'. rewrite Hp in Hs'. cbn [mbind option_bind] in Hs'.
  unfold pushEntry in Hs'. cbn [entries hashmap] in Hs'.
  bind_inv Hs' p Ep. destruct p as [i q2]. injection Hs' as <-.
  cbn [hashmap]. rewrite lookup_insert_ne by done.
  apply lookup_delete_eq.
Qed.

End Expiry.

(** X25.  On a cache reached from the constructor by [Clear] and by [Set]
    calls that stored their entry in full, a [Set] removes a key whose entry
    is the oldest of the written shard and older than the life window: a
    [Get] of that key right after the [Set] reports not-found, when the key
    has another hash than the key that was set. *)
Theorem Set_drops_expired_oldest (c : bigcache.BigCache) (now : Z)
    (key : string) (entry : list byte) (c' : bigcache.BigCache)
    (other : string) (s : bigcache.cacheShard) (oldest : list byte) :
  CacheSpec.reachableInFull c ->
  bigcache.Set_ c now key entry = Some c' ->
  bigcache.getShard c (bigcache.Sum64 c key) = Some s ->
  bigcache.shardIndex c (bigcache.Sum64 c other)
  = bigcache.shardIndex c (bigcache.Sum64 c key) ->
  queue.Peek (bigcache.entries s) = Some (Val oldest) ->
  bigcache.readHashFromEntry oldest = bigcache.Sum64 c other ->
  bigcache.Sum64 c other <> bigcache.Sum64 c key ->
  bigcache.lifeWindow c
  < uint64 (uint64 now - bigcache.readTimestampFromEntry oldest) ->
  bigcache.Get c' other = Some (Error (bigcache.notFound other)).
Proof.
  intros Hr HS Hs Hidx Hpk Hho Hne Hexp.
  pose proof (reachableInFull_inv _ Hr) as HF.
  destruct (Forall_lookup_1 _ _ _ _ HF Hs) as [es Hinv].
  apply Set_fields in HS as (s0 & s' & Hs0 & Hs' & ->).
  rewrite Hs in Hs0. injection Hs0 as <-.
  assert (Hl : bigcache.hashmap s' !! bigcache.Sum64 c other = None).
  { rewrite <- Hho.
    eapply setShard_evicts; [exact Hinv|exact Hs'|exact Hpk|congruence|done]. }
  unfold bigcache.Get, bigcache.getShard, bigcache.Sum64, bigcache.shardIndex
    in *.
  cbn [bigcache.shards bigcache.hash bigcache.shardMask].
  rewrite Hidx. rewrite list_lookup_insert_eq by (by eapply lookup_lt_Some).
  cbn [mbind option_bind]. rewrite Hl. done.
Qed.

(** ** Which Set a map entry comes from *)

Section Origin.

Import queue QueueSpec bigcache CacheSpec.






End Origin.


(** ** The properties on the example states *)

Lemma exampleConfig_valid : CacheSpec.valid_config CacheSpec.exampleConfig.
Proof. repeat split; vm_compute; congruence. Qed.

Lemma exampleEmptyCache_new :
  bigcache.newBigCache CacheSpec.exampleConfig
  = Some (Val CacheSpec.exampleEmptyCache).
Proof. vm_compute; reflexivity. Qed.

Lemma exampleCache_Set :
  bigcache.Set_ CacheSpec.exampleEmptyCache 0 "A" ["1"%byte]
  = Some CacheSpec.exampleCache.
Proof. vm_compute; reflexivity. Qed.

Lemma exampleCache_reachable : CacheSpec.reachable CacheSpec.exampleCache.
Proof.
  eapply CacheSpec.reachable_Set; [|exact exampleCache_Set].
  eapply CacheSpec.reachable_new;
    [exact exampleConfig_valid|exact exampleEmptyCache_new].
Qed.

Lemma Push_index_positive_witness :
  QueueSpec.reachable (queue.mkQueue (replicate 10 x00) 10 1 1 0 1) /\
  queue.Push (queue.mkQueue (replicate 10 x00) 10 1 1 0 1) ["7"%byte]
  = Some (1, queue.mkQueue
               (x00 :: le_encode 4 1 ++ ["7"%byte] ++ replicate 4 x00)
               10 1 6 1 6) /\
  queue.leftMarginIndex <= 1 /\ 1 <> 0.
Proof.
  assert (Hr : QueueSpec.reachable
                 (queue.mkQueue (replicate 10 x00) 10 1 1 0 1)).
  { apply (QueueSpec.reachable_New 10). reflexivity. }
  assert (Hp : queue.Push (queue.mkQueue (replicate 10 x00) 10 1 1 0 1)
                 ["7"%byte]
               = Some (1, queue.mkQueue
                            (x00 :: le_encode 4 1 ++ ["7"%byte]
                               ++ replicate 4 x00) 10 1 6 1 6)).
  { vm_compute; reflexivity. }
  split; [exact Hr|]. split; [exact Hp|].
  exact (Push_index_positive _ _ _ _ Hr Hp).
Defined.

Lemma Clear_postcondition_witness :
  CacheSpec.reachable CacheSpec.exampleCache /\
  bigcache.Size (bigcache.Clear CacheSpec.exampleCache) = 0 /\
  bigcache.Get (bigcache.Clear CacheSpec.exampleCache) "A"
  = Some (Error (bigcache.notFound "A")).
Proof.
  split; [exact exampleCache_reachable|].
  destruct (Clear_postcondition CacheSpec.exampleCache exampleCache_reachable)
    as (Hs & Hg & _).
  split; [exact Hs|exact (Hg "A"%string)].
Defined.

(** ** The run properties on the example queue *)

Lemma exampleNewQueue_New :
  queue.NewBytesQueue 100 = Some QueueSpec.exampleNewQueue.
Proof. reflexivity. Qed.

Lemma exampleWrappedQueue_run :
  QueueSpec.runInFull QueueSpec.exampleNewQueue [] QueueSpec.exampleCalls
  = Some (QueueSpec.exampleWrappedQueue, QueueSpec.exampleWrappedEntries).
Proof. vm_compute; reflexivity. Qed.

Lemma exampleGrownQueue_Push :
  queue.Push QueueSpec.exampleWrappedQueue (replicate 40 "d"%byte)
  = Some (89, QueueSpec.exampleGrownQueue).
Proof. vm_compute; reflexivity. Qed.

Lemma pop_order_of_full_runs_witness :
  queue.NewBytesQueue 100 = Some QueueSpec.exampleNewQueue /\
  QueueSpec.runInFull QueueSpec.exampleNewQueue [] QueueSpec.exampleCalls
  = Some (QueueSpec.exampleWrappedQueue, QueueSpec.exampleWrappedEntries) /\
  queue.Len QueueSpec.exampleWrappedQueue = 2 /\
  QueueSpec.drain 3 QueueSpec.exampleWrappedQueue
  = Some [replicate 10 "b"%byte; replicate 30 "c"%byte].
Proof.
  split; [exact exampleNewQueue_New|]. split; [exact exampleWrappedQueue_run|].
  exact (pop_order_of_full_runs _ _ _ _ _ exampleNewQueue_New
           exampleWrappedQueue_run).
Defined.

Lemma handles_stable_in_full_runs_witness :
  queue.Push QueueSpec.exampleWrappedQueue (replicate 40 "d"%byte)
  = Some (89, QueueSpec.exampleGrownQueue) /\
  QueueSpec.inFull (replicate 40 "d"%byte) 89 QueueSpec.exampleGrownQueue
  = true /\
  queue.Get QueueSpec.exampleGrownQueue 89 = Some (Val (replicate 40 "d"%byte))
  /\ queue.Get QueueSpec.exampleGrownQueue 75
     = Some (Val (replicate 10 "b"%byte)).
Proof.
  assert (Hf : QueueSpec.inFull (replicate 40 "d"%byte) 89
                 QueueSpec.exampleGrownQueue = true) by reflexivity.
  split; [exact exampleGrownQueue_Push|]. split; [exact Hf|].
  destruct (handles_stable_in_full_runs _ _ _ _ _ _ _ _ exampleNewQueue_New
              exampleWrappedQueue_run exampleGrownQueue_Push Hf) as [Hd Hes].
  split; [exact Hd|].
  apply (Hes 75 (replicate 10 "b"%byte)). apply list_elem_of_here.
Defined.

Lemma wrapped_gap_in_full_runs_witness :
  QueueSpec.wrapped QueueSpec.exampleWrappedQueue /\
  queue.minimumEmptyBlobSize <= 75 - 35 /\ 75 < 89 /\ 89 <= 100.
Proof.
  assert (Hw : QueueSpec.wrapped QueueSpec.exampleWrappedQueue)
    by (vm_compute; reflexivity).
  split; [exact Hw|].
  exact (wrapped_gap_in_full_runs _ _ _ _ _ exampleNewQueue_New
           exampleWrappedQueue_run Hw).
Defined.

Lemma pushes_pop_in_push_order_witness :
  queue.NewBytesQueue 10
  = Some (queue.mkQueue (replicate 10 x00) 10 1 1 0 1) /\
  QueueSpec.runInFull (queue.mkQueue (replicate 10 x00) 10 1 1 0 1) []
    (QueueSpec.CallPush <$> [[x01; x02]; [x03]])
  = Some (queue.mkQueue
            ([x00] ++ le_encode 4 2 ++ [x01; x02] ++ le_encode 4 1 ++ [x03]
               ++ replicate 8 x00) 20 1 12 2 12,
          [(1, [x01; x02]); (7, [x03])]) /\
  QueueSpec.drain 3
    (queue.mkQueue
       ([x00] ++ le_encode 4 2 ++ [x01; x02] ++ le_encode 4 1 ++ [x03]
          ++ replicate 8 x00) 20 1 12 2 12)
  = Some [[x01; x02]; [x03]].
Proof.
  assert (H0 : queue.NewBytesQueue 10
               = Some (queue.mkQueue (replicate 10 x00) 10 1 1 0 1))
    by reflexivity.
  assert (H : QueueSpec.runInFull
                (queue.mkQueue (replicate 10 x00) 10 1 1 0 1) []
                (QueueSpec.CallPush <$> [[x01; x02]; [x03]])
              = Some (queue.mkQueue
                        ([x00] ++ le_encode 4 2 ++ [x01; x02]
                           ++ le_encode 4 1 ++ [x03] ++ replicate 8 x00)
                        20 1 12 2 12,
                      [(1, [x01; x02]); (7, [x03])]))
    by (vm_compute; reflexivity).
  split; [exact H0|]. split; [exact H|].
  exact (pushes_pop_in_push_order _ _ _ _ _ H0 H).
Defined.

Lemma exampleNewQueue_reachable :
  QueueSpec.reachable QueueSpec.exampleNewQueue.
Proof. exact (QueueSpec.reachable_New 100 _ exampleNewQueue_New). Qed.

Lemma capacity_never_shrinks_witness :
  QueueSpec.reachable QueueSpec.exampleNewQueue /\
  len (queue.array QueueSpec.exampleNewQueue) = 100 /\
  queue.Capacity (queue.Clear QueueSpec.exampleNewQueue) = 100.
Proof.
  split; [exact exampleNewQueue_reachable|].
  destruct (capacity_never_shrinks _ exampleNewQueue_reachable)
    as (Hl & _ & _ & _ & Hc).
  split; [exact Hl|exact Hc].
Defined.

Lemma Peek_agrees_with_Pop_witness :
  queue.Peek QueueSpec.exampleWrappedQueue
  = Some (Val (replicate 10 "b"%byte)) /\
  exists q' : queue.BytesQueue,
    queue.Pop QueueSpec.exampleWrappedQueue
    = Some (Val (replicate 10 "b"%byte), q') /\
    queue.Len q' = 2 - 1.
Proof.
  assert (H : queue.Peek QueueSpec.exampleWrappedQueue
              = Some (Val (replicate 10 "b"%byte)))
    by (vm_compute; reflexivity).
  split; [exact H|].
  exact (proj2 (proj2 (Peek_agrees_with_Pop QueueSpec.exampleWrappedQueue))
           _ H).
Defined.

Lemma Push_raises_Len_witness :
  queue.Push QueueSpec.exampleWrappedQueue (replicate 40 "d"%byte)
  = Some (89, QueueSpec.exampleGrownQueue) /\
  QueueSpec.inFull (replicate 40 "d"%byte) 89 QueueSpec.exampleGrownQueue
  = true /\
  QueueSpec.growsWrapped QueueSpec.exampleWrappedQueue
    (replicate 40 "d"%byte) = true /\
  queue.Len QueueSpec.exampleGrownQueue = 2 + 2.
Proof.
  assert (Hf : QueueSpec.inFull (replicate 40 "d"%byte) 89
                 QueueSpec.exampleGrownQueue = true) by reflexivity.
  split; [exact exampleGrownQueue_Push|]. split; [exact Hf|].
  split; [reflexivity|].
  exact (Push_raises_Len _ _ _ _ _ _ _ _ exampleNewQueue_New
           exampleWrappedQueue_run exampleGrownQueue_Push Hf).
Defined.

(** ** The cache properties on the example cache *)

Lemma exampleEmptyCache_reachable :
  CacheSpec.reachable CacheSpec.exampleEmptyCache.
Proof.
  exact (CacheSpec.reachable_new _ _ exampleConfig_valid
           exampleEmptyCache_new).
Qed.

Lemma shard_selection_in_range_witness :
  CacheSpec.reachable CacheSpec.exampleCache /\
  exists shard : bigcache.cacheShard,
    bigcache.getShard CacheSpec.exampleCache
      (bigcache.Sum64 CacheSpec.exampleCache "zzz") = Some shard.
Proof.
  split; [exact exampleCache_reachable|].
  exact (shard_selection_in_range _ exampleCache_reachable "zzz"%string).
Defined.

Lemma Set_then_Get_witness :
  CacheSpec.reachable CacheSpec.exampleEmptyCache /\
  bigcache.Set_ CacheSpec.exampleEmptyCache 0 "A" ["1"%byte]
  = Some CacheSpec.exampleCache /\
  CacheSpec.setInFull CacheSpec.exampleEmptyCache 0 "A" ["1"%byte] = true /\
  len (String.list_byte_of_string "A") < 2 ^ 16 /\
  bigcache.Get CacheSpec.exampleCache "A" = Some (Val ["1"%byte]).
Proof.
  assert (Hf : CacheSpec.setInFull CacheSpec.exampleEmptyCache 0 "A"
                 ["1"%byte] = true) by (vm_compute; reflexivity).
  assert (Hk : len (String.list_byte_of_string "A") < 2 ^ 16)
    by (vm_compute; reflexivity).
  split; [exact exampleEmptyCache_reachable|].
  split; [exact exampleCache_Set|]. split; [exact Hf|]. split; [exact Hk|].
  exact (proj2 (Set_then_Get _ _ _ _ _ exampleEmptyCache_reachable
                  exampleCache_Set Hf Hk)).
Defined.

Lemma three_not_power_of_two : ~ (exists k : Z, 0 <= k /\ 3 = 2 ^ k).
Proof.
  intros (k & Hk & H).
  destruct (Z.eq_dec k 0) as [->|H0]; [done|].
  destruct (Z.eq_dec k 1) as [->|H1]; [done|].
  assert (H2 : 2 ^ 2 <= 2 ^ k) by (apply Z.pow_le_mono_r; lia).
  change (2 ^ 2) with 4 in H2. lia.
Qed.

Lemma newBigCache_rejects_non_power_witness :
  CacheSpec.int_range 3 /\
  bigcache.newBigCache (bigcache.mkConfig 3 0 0 0 false None)
  = Some (Error (bigcache.InvalidConfig "Shards number must be power of two")).
Proof.
  assert (Hr : CacheSpec.int_range 3) by (split; vm_compute; congruence).
  split; [exact Hr|].
  apply (newBigCache_rejects_non_power (bigcache.mkConfig 3 0 0 0 false None)
           Hr).
  - discriminate.
  - discriminate.
  - exact three_not_power_of_two.
Defined.

Lemma newBigCache_builds_shards_witness :
  exists c : bigcache.BigCache,
    bigcache.NewBigCache CacheSpec.exampleConfig = Some (Val c) /\
    bigcache.shardSize c = 10 /\ bigcache.Size c = 0.
Proof.
  destruct (newBigCache_builds_shards CacheSpec.exampleConfig 0)
    as (c & Hc & Hs & _ & _ & Hz & _).
  - lia.
  - reflexivity.
  - vm_compute. split; congruence.
  - vm_compute. congruence.
  - vm_compute. reflexivity.
  - vm_compute. reflexivity.
  - exists c. split; [exact Hc|]. split; [exact Hs|exact Hz].
Defined.

Lemma evictOldest_by_age_witness :
  queue.Peek
    (queue.mkQueue
       (x00 :: le_encode 4 20 ++ bigcache.wrapEntry 0 1 "A" ["1"%byte]
          ++ replicate 75 x00) 100 1 25 1 25)
  = Some (Val (bigcache.wrapEntry 0 1 "A" ["1"%byte])) /\
  exists q' : queue.BytesQueue,
    bigcache.evictOldest CacheSpec.exampleCache 6
      (bigcache.mkShard {[1 := 1]}
         (queue.mkQueue
            (x00 :: le_encode 4 20 ++ bigcache.wrapEntry 0 1 "A" ["1"%byte]
               ++ replicate 75 x00) 100 1 25 1 25))
    = Some (bigcache.mkShard (delete 1 {[1 := 1]}) q').
Proof.
  assert (Hp : queue.Peek
                 (queue.mkQueue
                    (x00 :: le_encode 4 20
                       ++ bigcache.wrapEntry 0 1 "A" ["1"%byte]
                       ++ replicate 75 x00) 100 1 25 1 25)
               = Some (Val (bigcache.wrapEntry 0 1 "A" ["1"%byte])))
    by (vm_compute; reflexivity).
  split; [exact Hp|].
  assert (Hnow : 0 <= 6 < 2 ^ 64) by (split; vm_compute; congruence).
  destruct (proj2 (evictOldest_by_age CacheSpec.exampleCache 6
                     (bigcache.mkShard {[1 := 1]}
                        (queue.mkQueue
                           (x00 :: le_encode 4 20
                              ++ bigcache.wrapEntry 0 1 "A" ["1"%byte]
                              ++ replicate 75 x00) 100 1 25 1 25)) Hnow)
              _ Hp) as [_ Hev].
  - vm_compute. congruence.
  - destruct Hev as (q' & _ & _ & He); [vm_compute; reflexivity|].
    exists q'. exact He.
Defined.

Lemma Set_map_effect_witness :
  bigcache.Set_ CacheSpec.exampleEmptyCache 0 "A" ["1"%byte]
  = Some CacheSpec.exampleCache /\
  exists s' : bigcache.cacheShard,
    bigcache.getShard CacheSpec.exampleCache
      (bigcache.Sum64 CacheSpec.exampleCache "A") = Some s' /\
    bigcache.Sum64 CacheSpec.exampleEmptyCache "A"
    ∈ dom (bigcache.hashmap s').
Proof.
  split; [exact exampleCache_Set|].
  destruct (Set_map_effect _ _ _ _ _ exampleCache_Set)
    as (s & s' & _ & Hs' & Hin & _).
  exists s'. split; [exact Hs'|exact Hin].
Defined.

Lemma Iterate_visits_map_entries_witness :
  bigcache.Iterate CacheSpec.exampleCache = Some [("A"%string, ["1"%byte])] /\
  exists (shard : bigcache.cacheShard) (h : Z),
    shard ∈ bigcache.shards CacheSpec.exampleCache /\
    CacheSpec.yields shard h "A" ["1"%byte].
Proof.
  assert (H : bigcache.Iterate CacheSpec.exampleCache
              = Some [("A"%string, ["1"%byte])]) by (vm_compute; reflexivity).
  split; [exact H|].
  apply (proj2 (Iterate_visits_map_entries _ _ H) "A"%string ["1"%byte]).
  apply list_elem_of_here.
Defined.

(** ** The invariant properties on the example cache *)

Lemma exampleCache_reachableInFull :
  CacheSpec.reachableInFull CacheSpec.exampleCache.
Proof.
  eapply CacheSpec.inFull_Set;
    [|exact exampleCache_Set|vm_compute; reflexivity].
  exact (CacheSpec.inFull_new _ _ exampleConfig_valid exampleEmptyCache_new).
Qed.

Lemma exampleShard_in_exampleCache :
  CacheSpec.exampleShard ∈ bigcache.shards CacheSpec.exampleCache.
Proof. apply list_elem_of_here. Qed.

Lemma map_within_queue_witness :
  CacheSpec.reachableInFull CacheSpec.exampleCache /\
  CacheSpec.exampleShard ∈ bigcache.shards CacheSpec.exampleCache /\
  Z.of_nat (size (bigcache.hashmap CacheSpec.exampleShard))
  <= queue.Len (bigcache.entries CacheSpec.exampleShard).
Proof.
  split; [exact exampleCache_reachableInFull|].
  split; [exact exampleShard_in_exampleCache|].
  exact (proj1 (map_within_queue _ _ exampleCache_reachableInFull
                  exampleShard_in_exampleCache)).
Defined.

Lemma map_entries_readable_witness :
  bigcache.hashmap CacheSpec.exampleShard !! 1 = Some 1 /\
  exists blob : list byte,
    queue.Get (bigcache.entries CacheSpec.exampleShard) 1 = Some (Val blob) /\
    bigcache.readHashFromEntry blob = 1.
Proof.
  assert (Hl : bigcache.hashmap CacheSpec.exampleShard !! 1 = Some 1)
    by (vm_compute; reflexivity).
  split; [exact Hl|].
  exact (proj2 (map_entries_readable _ _ _ _ exampleCache_reachableInFull
                  exampleShard_in_exampleCache Hl)).
Defined.

Lemma Get_total_in_full_runs_witness :
  bigcache.Get CacheSpec.exampleCache "B"
  = Some (Error (bigcache.notFound "B")) \/
  exists v : list byte,
    bigcache.Get CacheSpec.exampleCache "B" = Some (Val v).
Proof.
  exact (Get_total_in_full_runs _ "B"%string exampleCache_reachableInFull).
Defined.

Lemma Iterate_one_call_per_entry_witness :
  exists calls : list (string * list byte),
    bigcache.Iterate CacheSpec.exampleCache = Some calls /\
    length calls = 1%nat.
Proof.
  destruct (Iterate_one_call_per_entry _ exampleCache_reachableInFull)
    as (calls & Hc & Hlen).
  exists calls. split; [exact Hc|]. rewrite Hlen. vm_compute. reflexivity.
Defined.

Lemma Set_keeps_other_keys_witness :
  exists c' : bigcache.BigCache,
    bigcache.Set_ CacheSpec.exampleCache 1 "BB" ["2"%byte] = Some c' /\
    bigcache.Get CacheSpec.exampleCache "A" = Some (Val ["1"%byte]) /\
    bigcache.Get c' "A" = Some (Val ["1"%byte]).
Proof.
  assert (Hset : exists c' : bigcache.BigCache,
             bigcache.Set_ CacheSpec.exampleCache 1 "BB" ["2"%byte]
             = Some c') by (vm_compute; eexists; reflexivity).
  destruct Hset as [c' Hset].
  assert (Hg : bigcache.Get CacheSpec.exampleCache "A"
               = Some (Val ["1"%byte])) by (vm_compute; reflexivity).
  exists c'. split; [exact Hset|]. split; [exact Hg|].
  apply (Set_keeps_other_keys CacheSpec.exampleCache 1 "BB" ["2"%byte] c'
           "A" ["1"%byte] exampleCache_reachableInFull Hset).
  - vm_compute. reflexivity.
  - vm_compute. congruence.
  - exact Hg.
  - intros s oldest Hs Hp. left.
    vm_compute in Hs. injection Hs as <-.
    vm_compute in Hp. injection Hp as <-.
    vm_compute. congruence.
Defined.

(** ** The totality properties on the example states *)

Lemma Push_total_in_full_runs_witness :
  queue.NewBytesQueue 100 = Some QueueSpec.exampleNewQueue /\
  QueueSpec.runInFull QueueSpec.exampleNewQueue [] QueueSpec.exampleCalls
  = Some (QueueSpec.exampleWrappedQueue, QueueSpec.exampleWrappedEntries) /\
  exists (i : Z) (q' : queue.BytesQueue),
    queue.Push QueueSpec.exampleWrappedQueue (replicate 500 "e"%byte)
    = Some (i, q').
Proof.
  split; [exact exampleNewQueue_New|]. split; [exact exampleWrappedQueue_run|].
  apply (Push_total_in_full_runs 100 _ _ _ _ (replicate 500 "e"%byte)
           exampleNewQueue_New exampleWrappedQueue_run).
  left. vm_compute. congruence.
Defined.

Lemma Set_total_in_full_runs_witness :
  CacheSpec.reachableInFull CacheSpec.exampleCache /\
  exists c' : bigcache.BigCache,
    bigcache.Set_ CacheSpec.exampleCache 7 "CCC" (replicate 200 "3"%byte)
    = Some c'.
Proof.
  split; [exact exampleCache_reachableInFull|].
  exact (Set_total_in_full_runs _ 7 "CCC"%string (replicate 200 "3"%byte)
           exampleCache_reachableInFull).
Defined.

(** ** The in-full criterion and the expiry on the example states *)

Lemma Push_in_full_iff_fits_witness :
  QueueSpec.reachable (queue.mkQueue (replicate 10 x00) 10 1 1 0 1) /\
  queue.Push (queue.mkQueue (replicate 10 x00) 10 1 1 0 1) ["7"%byte]
  = Some (1, queue.mkQueue
               (x00 :: le_encode 4 1 ++ ["7"%byte] ++ replicate 4 x00)
               10 1 6 1 6) /\
  QueueSpec.storedInFull ["7"%byte] 1
    (queue.mkQueue (x00 :: le_encode 4 1 ++ ["7"%byte] ++ replicate 4 x00)
       10 1 6 1 6).
Proof.
  assert (Hr : QueueSpec.reachable
                 (queue.mkQueue (replicate 10 x00) 10 1 1 0 1)).
  { apply (QueueSpec.reachable_New 10). reflexivity. }
  assert (Hp : queue.Push (queue.mkQueue (replicate 10 x00) 10 1 1 0 1)
                 ["7"%byte]
               = Some (1, queue.mkQueue
                            (x00 :: le_encode 4 1 ++ ["7"%byte]
                               ++ replicate 4 x00) 10 1 6 1 6)).
  { vm_compute; reflexivity. }
  split; [exact Hr|]. split; [exact Hp|].
  apply (proj2 (proj1 (Push_in_full_iff_fits _ _ _ _ Hr Hp))).
  vm_compute. congruence.
Defined.

Lemma Set_drops_expired_oldest_witness :
  exists c' : bigcache.BigCache,
    bigcache.Set_ CacheSpec.exampleCache 6 "BB" ["2"%byte] = Some c' /\
    bigcache.Get CacheSpec.exampleCache "A" = Some (Val ["1"%byte]) /\
    bigcache.Get c' "A" = Some (Error (bigcache.notFound "A")).
Proof.
  assert (Hset : exists c' : bigcache.BigCache,
             bigcache.Set_ CacheSpec.exampleCache 6 "BB" ["2"%byte]
             = Some c') by (vm_compute; eexists; reflexivity).
  destruct Hset as [c' Hset].
  assert (Hg : bigcache.Get CacheSpec.exampleCache "A"
               = Some (Val ["1"%byte])) by (vm_compute; reflexivity).
  exists c'. split; [exact Hset|]. split; [exact Hg|].
  apply (Set_drops_expired_oldest CacheSpec.exampleCache 6 "BB" ["2"%byte] c'
           "A" CacheSpec.exampleShard (bigcache.wrapEntry 0 1 "A" ["1"%byte])
           exampleCache_reachableInFull Hset).
  - vm_compute. reflexivity.
  - vm_compute. reflexivity.
  - vm_compute. reflexivity.
  - vm_compute. reflexivity.
  - vm_compute. congruence.
  - vm_compute. reflexivity.
Defined.

(** ** Collisions on the example caches *)






(** ** A [Set] on a cache of two shards *)

Lemma exampleCache2_Set :
  (r ← bigcache.newBigCache CacheSpec.exampleConfig2;
   match r with
   | Val c => bigcache.Set_ c 0 "BB" ["2"%byte]
   | Error _ => None
   end) = Some CacheSpec.exampleCache2.
Proof. vm_compute. reflexivity. Qed.

Lemma Set_touches_one_shard_witness :
  exists c' : bigcache.BigCache,
    bigcache.Set_ CacheSpec.exampleCache2 1 "A" ["1"%byte] = Some c' /\
    bigcache.shardIndex CacheSpec.exampleCache2
      (bigcache.Sum64 CacheSpec.exampleCache2 "A") = 1%nat /\
    bigcache.shardIndex CacheSpec.exampleCache2
      (bigcache.Sum64 CacheSpec.exampleCache2 "BB") = 0%nat /\
    length (bigcache.shards c') = 2%nat /\
    bigcache.shards c' !! 0%nat = bigcache.shards CacheSpec.exampleCache2 !! 0%nat /\
    bigcache.Get CacheSpec.exampleCache2 "BB" = Some (Val ["2"%byte]) /\
    bigcache.Get c' "BB" = Some (Val ["2"%byte]) /\
    bigcache.Get c' "A" = Some (Val ["1"%byte]).
Proof.
  assert (Hp : (c' ← bigcache.Set_ CacheSpec.exampleCache2 1 "A" ["1"%byte];
                bigcache.Get c' "A") = Some (Val ["1"%byte]))
    by (vm_compute; reflexivity).
  destruct (bigcache.Set_ CacheSpec.exampleCache2 1 "A" ["1"%byte])
    as [c'|] eqn:Hset; [|discriminate].
  cbn [mbind option_bind] in Hp. rename Hp into Hga.
  assert (Hia : bigcache.shardIndex CacheSpec.exampleCache2
                  (bigcache.Sum64 CacheSpec.exampleCache2 "A") = 1%nat)
    by (vm_compute; reflexivity).
  assert (Hib : bigcache.shardIndex CacheSpec.exampleCache2
                  (bigcache.Sum64 CacheSpec.exampleCache2 "BB") = 0%nat)
    by (vm_compute; reflexivity).
  assert (Hgb : bigcache.Get CacheSpec.exampleCache2 "BB"
                = Some (Val ["2"%byte])) by (vm_compute; reflexivity).
  destruct (Set_touches_one_shard _ _ _ _ _ Hset)
    as (Hlen & _ & _ & _ & Hother & Hget).
  exists c'. split; [reflexivity|]. split; [exact Hia|]. split; [exact Hib|].
  split; [rewrite Hlen; reflexivity|].
  split; [apply Hother; rewrite Hia; discriminate|].
  split; [exact Hgb|]. split; [|exact Hga].
  rewrite (Hget "BB"%string); [exact Hgb|]. rewrite Hia, Hib. discriminate.
Defined.

